(** * intel_powerstat: the MSR service ([plugins/inputs/intel_powerstat/msr.go])

    A shallow embedding of the identifier parser ([parseCores],
    [parseIntRanges], [parseIDs], [removeDuplicateValues]) and of the per-core
    register refresh ([openAndReadMsr], [readDataFromMsr], [isMsrLoaded],
    [setCPUCores]), followed by the properties the specification states
    about them.

    Conventions.
    - Go's [uint]/[uint64] and [int]/[int64] are [Z] with the wrap-around
      written out ([wrapU64], [wrapI64]); [uint] and [int] are 64 bits wide
      (linux on amd64/arm64).
    - Go strings are byte strings ([string] of [ascii]), in UTF-8 where
      runes matter (the white space of [strings.TrimSpace] and of [fmt]).
    - A Go slice is a [slice A]: [None] is the [nil] slice.
    - A Go [error] result is an [option error] ([None] is [nil]) and a
      [(value, error)] pair is a sum [error + value].
    - A call that may dereference a nil pointer returns an [outcome]. *)

From Stdlib Require Import ZArith String Ascii List Lia Bool Permutation.
From stdpp Require Import gmap strings list fin_maps.

Local Open Scope string_scope.
Local Open Scope Z_scope.
Local Open Scope list_scope.

Set Warnings "-clear-no-such-hyp".

(** ** Errors *)

(** One constructor per [fmt.Errorf] site of the file, plus the errors that
    come from outside it. *)
Inductive error : Type :=
| ErrExternal (msg : string)
    (* an error of a collaborator: checkFile, os.Open, fileService *)
| ErrCanceled
    (* context.Canceled, returned by ctx.Err() *)
| ErrSyntax (fn num : string)
    (* strconv.NumError with strconv.ErrSyntax *)
| ErrRange (fn num : string)
    (* strconv.NumError with strconv.ErrRange *)
| ErrOpenMsr (path : string) (err : error)
    (* "error opening MSR file on path %q: %w" *)
| ErrReadCore (core : string) (err : error)
    (* "error reading data from MSR for core %q: %w" *)
| ErrReadMsrFile (err : error)
    (* "error reading MSR file: %w" *)
| ErrGoroutines (err : error)
    (* "received error during reading MSR values in goroutines: %w" *)
| ErrEqualOrGreater (start end_ : Z)
    (* "`%d` is equal or greater than `%d`" *)
| ErrMaxSize
    (* "requested number of IDs exceeds max size `%d`" *)
| ErrWrongFormat (id : string) (err : error).
    (* "wrong format for id number %q: %w" *)

(** The specification's taxonomy over the parser's errors. *)
Definition isFormatError (e : error) : bool :=
  match e with
  | ErrEqualOrGreater _ _ | ErrWrongFormat _ _ => true
  | _ => false
  end.

Definition isCapacityError (e : error) : bool :=
  match e with
  | ErrMaxSize => true
  | _ => false
  end.

(** ** Machine integers *)

Definition maxUint : Z := 2 ^ 64 - 1.
Definition maxInt : Z := 2 ^ 63 - 1.
Definition minInt : Z := - 2 ^ 63.

(** Arithmetic on [uint64] is modulo 2^64. *)
Definition wrapU64 (z : Z) : Z := z mod 2 ^ 64.

(** The conversion [int(x)] / [int64(x)] of an unsigned value: two's
    complement reinterpretation. *)
Definition wrapI64 (z : Z) : Z := (z + 2 ^ 63) mod 2 ^ 64 - 2 ^ 63.

(** ** Slices *)

Definition slice (A : Type) : Type := option (list A).

Definition elems {A} (s : slice A) : list A :=
  match s with
  | None => []
  | Some l => l
  end.

Definition len {A} (s : slice A) : Z := Z.of_nat (length (elems s)).

(** [append(s, x)]: the result is never nil. *)
Definition append {A} (s : slice A) (x : A) : slice A := Some (elems s ++ [x]).

(** ** Strings: [strings.Split], [strings.TrimSpace] *)

Definition byte_of (c : ascii) : Z := Z.of_N (N_of_ascii c).

(** [unicode.IsSpace], which is also the table of [fmt], on the UTF-8
    encoding of a rune: the six ASCII white-space characters
    '\t' '\n' '\v' '\f' '\r' ' ', ... *)
Definition isSpace (c : ascii) : bool :=
  let n := byte_of c in ((9 <=? n) && (n <=? 13)) || (n =? 32).

(** ... U+0085 and U+00A0, of two bytes, ... *)
Definition isSpace2 (c0 c1 : ascii) : bool :=
  (byte_of c0 =? 0xC2) && ((byte_of c1 =? 0x85) || (byte_of c1 =? 0xA0)).

(** ... and U+1680, U+2000 to U+200A, U+2028, U+2029, U+202F, U+205F and
    U+3000, of three bytes. *)
Definition isSpace3 (c0 c1 c2 : ascii) : bool :=
  let n0 := byte_of c0 in
  let n1 := byte_of c1 in
  let n2 := byte_of c2 in
  ((n0 =? 0xE1) && (n1 =? 0x9A) && (n2 =? 0x80))
  || ((n0 =? 0xE2) && (n1 =? 0x80) &&
      (((0x80 <=? n2) && (n2 <=? 0x8A))
       || (n2 =? 0xA8) || (n2 =? 0xA9) || (n2 =? 0xAF)))
  || ((n0 =? 0xE2) && (n1 =? 0x81) && (n2 =? 0x9F))
  || ((n0 =? 0xE3) && (n1 =? 0x80) && (n2 =? 0x80)).

Definition isDigit (c : ascii) : bool :=
  let n := byte_of c in (48 <=? n) && (n <=? 57).

Definition digitVal (c : ascii) : Z := byte_of c - 48.

Definition comma : ascii := Ascii.ascii_of_nat 44.
Definition minus : ascii := Ascii.ascii_of_nat 45.
Definition plus : ascii := Ascii.ascii_of_nat 43.
Definition underscore : ascii := Ascii.ascii_of_nat 95.
Definition newline : ascii := Ascii.ascii_of_nat 10.

(** [strings.Split(s, ",")]: always at least one field. *)
Fixpoint Split (s : string) : list string :=
  match s with
  | EmptyString => [EmptyString]
  | String c rest =>
      if Ascii.eqb c comma then EmptyString :: Split rest
      else match Split rest with
           | [] => [String c EmptyString]
           | f :: fs => String c f :: fs
           end
  end.

(** [strings.TrimLeftFunc(s, unicode.IsSpace)]: the leading white-space
    runes are dropped. *)
Fixpoint TrimLeft (s : string) : string :=
  match s with
  | EmptyString => EmptyString
  | String c0 rest =>
      if isSpace c0 then TrimLeft rest
      else
        match rest with
        | String c1 rest1 =>
            if isSpace2 c0 c1 then TrimLeft rest1
            else
              match rest1 with
              | String c2 rest2 =>
                  if isSpace3 c0 c1 c2 then TrimLeft rest2 else s
              | EmptyString => s
              end
        | EmptyString => s
        end
  end.

Fixpoint revAppend (s acc : string) : string :=
  match s with
  | EmptyString => acc
  | String c rest => revAppend rest (String c acc)
  end.

Definition revString (s : string) : string := revAppend s EmptyString.

(** As [TrimLeft], on a string whose bytes are in the reverse order. *)
Fixpoint TrimLeftRev (s : string) : string :=
  match s with
  | EmptyString => EmptyString
  | String c0 rest =>
      if isSpace c0 then TrimLeftRev rest
      else
        match rest with
        | String c1 rest1 =>
            if isSpace2 c1 c0 then TrimLeftRev rest1
            else
              match rest1 with
              | String c2 rest2 =>
                  if isSpace3 c2 c1 c0 then TrimLeftRev rest2 else s
              | EmptyString => s
              end
        | EmptyString => s
        end
  end.

(** [strings.TrimRightFunc(s, unicode.IsSpace)]: the trailing white-space
    runes are dropped. *)
Definition TrimRight (s : string) : string :=
  revString (TrimLeftRev (revString s)).

Definition TrimSpace (s : string) : string := TrimRight (TrimLeft s).

(** ** Numbers: [strconv.Atoi], [fmt.Sscanf(id, "%d-%d", &start, &end)] *)

Inductive numError : Type := syntaxError | rangeError.

(** The digit loop of [strconv.ParseUint(s, 10, 64)]: a character that is not
    a decimal digit is a syntax error, a value above 2^64-1 a range error,
    whichever comes first. *)
Fixpoint ParseUintLoop (n : Z) (s : string) : numError + Z :=
  match s with
  | EmptyString => inr n
  | String c rest =>
      if negb (isDigit c) then inl syntaxError
      else if maxUint <? n * 10 + digitVal c then inl rangeError
      else ParseUintLoop (n * 10 + digitVal c) rest
  end.

Definition ParseUint (s : string) : numError + Z :=
  match s with
  | EmptyString => inl syntaxError
  | _ => ParseUintLoop 0 s
  end.

(** [strconv.Atoi]: an optional sign, then one or more decimal digits, the
    value within [int]. As in Go both results are returned: the value is 0
    with a syntax error and the nearest bound with a range error. *)
Definition Atoi (s : string) : Z * option error :=
  let fn := "Atoi" in
  let '(neg, body) :=
    match s with
    | String c rest =>
        if Ascii.eqb c minus then (true, rest)
        else if Ascii.eqb c plus then (false, rest)
        else (false, s)
    | EmptyString => (false, s)
    end in
  match ParseUint body with
  | inl syntaxError => (0, Some (ErrSyntax fn s))
  | inl rangeError =>
      (if neg then minInt else maxInt, Some (ErrRange fn s))
  | inr un =>
      if negb neg && (maxInt <? un) then (maxInt, Some (ErrRange fn s))
      else if neg && (maxInt + 1 <? un) then (minInt, Some (ErrRange fn s))
      else (if neg then - un else un, None)
  end.

(** [ss.SkipSpace] of a scan started by [Sscanf]: the leading white-space
    runes are dropped, but a newline is not white space there, it is the
    error "unexpected newline" ([None]). *)
Fixpoint SkipSpace (s : string) : option string :=
  match s with
  | EmptyString => Some s
  | String c0 rest =>
      if Ascii.eqb c0 newline then None
      else if isSpace c0 then SkipSpace rest
      else
        match rest with
        | String c1 rest1 =>
            if isSpace2 c0 c1 then SkipSpace rest1
            else
              match rest1 with
              | String c2 rest2 =>
                  if isSpace3 c0 c1 c2 then SkipSpace rest2 else Some s
              | EmptyString => Some s
              end
        | EmptyString => Some s
        end
  end.

(** The characters [ss.scanNumber] accepts for the verb [%d]:
    "0123456789_". *)
Definition acceptsDigit (c : ascii) : bool := isDigit c || Ascii.eqb c underscore.

(** The longest prefix [scanNumber] accepts, and what follows it. *)
Fixpoint scanNumber (s : string) : string * string :=
  match s with
  | EmptyString => (EmptyString, EmptyString)
  | String c rest =>
      if acceptsDigit c then
        let '(tok, tl) := scanNumber rest in (String c tok, tl)
      else (EmptyString, s)
  end.

(** [ss.scanUint('d', 64)]: skip white space, read the token, convert it with
    [strconv.ParseUint(tok, 10, 64)] (an underscore is a syntax error in base
    10). [None] is any scan error. *)
Definition scanUint (s : string) : option (Z * string) :=
  match SkipSpace s with
  | None => None
  | Some s1 =>
      let '(tok, tl) := scanNumber s1 in
      match ParseUint tok with
      | inr n => Some (n, tl)
      | inl _ => None
      end
  end.

(** [n, err := fmt.Sscanf(id, "%d-%d", &start, &end)] with [start, end uint]:
    [Some (start, end)] stands for [err == nil && n == 2]. Input left after
    the second number is not an error. *)
Definition Sscanf (id : string) : option (Z * Z) :=
  match scanUint id with
  | Some (start, String c rest) =>
      if Ascii.eqb c minus then
        match scanUint rest with
        | Some (end_, _) => Some (start, end_)
        | None => None
        end
      else None
  | _ => None
  end.

(** ** The identifier parser *)

(** Maximum size of core IDs or socket IDs (8192). *)
Definition maxIDsSize : Z := Z.shiftl 1 13.

(** What the logger receives. *)
Inductive logEntry : Type :=
| Debug (msg : string)
| Warn (msg : string) (args : list Z)
| Warnf (format : string) (err : error)
| LogError (err : error).

(** The loop [for ; start <= end; start++] of [parseIDs], on [uint] counters.
    [None] is a run that needs more than [fuel] iterations. *)
Fixpoint rangeLoop (fuel : nat) (start end_ : Z) (result : slice Z)
  : option (error + slice Z) :=
  match fuel with
  | O => None
  | S fuel' =>
      if start <=? end_ then
        if len result + 1 >? maxIDsSize then Some (inl ErrMaxSize)
        else rangeLoop fuel' (wrapU64 (start + 1)) end_
                       (append result (wrapI64 start))
      else Some (inr result)
  end.

(** Every iteration appends one ID or fails on the size check, so the loop
    never runs for more than [maxIDsSize + 1] iterations. *)
Definition loopFuel : nat := S (Z.to_nat maxIDsSize).

(** The body of the inner loop of [parseIDs], for one field of a
    specification. *)
Definition parseID (result : slice Z) (field : string)
  : option (error + slice Z) :=
  let id := TrimSpace field in
  match Sscanf id with
  | Some (start, end_) =>
      if start >=? end_ then Some (inl (ErrEqualOrGreater start end_))
      else rangeLoop loopFuel start end_ result
  | None =>
      match Atoi id with
      | (_, Some err) => Some (inl (ErrWrongFormat id err))
      | (num, None) =>
          if len result + 1 >? maxIDsSize then Some (inl ErrMaxSize)
          else Some (inr (append result num))
      end
  end.

Fixpoint parseFields (ids : list string) (result : slice Z)
  : option (error + slice Z) :=
  match ids with
  | [] => Some (inr result)
  | id :: rest =>
      match parseID result id with
      | Some (inr result') => parseFields rest result'
      | stop => stop
      end
  end.

Fixpoint parseSpecs (allIDsStrings : list string) (result : slice Z)
  : option (error + slice Z) :=
  match allIDsStrings with
  | [] => Some (inr result)
  | idsString :: rest =>
      match parseFields (Split idsString) result with
      | Some (inr result') => parseSpecs rest result'
      | stop => stop
      end
  end.

Definition parseIDs (allIDsStrings : list string) : option (error + slice Z) :=
  parseSpecs allIDsStrings None.

Fixpoint removeDuplicateValuesLoop (intSlice : list Z) (keys : gmap Z bool)
    (result duplicates : slice Z) : slice Z * slice Z :=
  match intSlice with
  | [] => (result, duplicates)
  | entry :: rest =>
      match keys !! entry with
      | None =>
          removeDuplicateValuesLoop rest (<[entry := true]> keys)
            (append result entry) duplicates
      | Some _ =>
          removeDuplicateValuesLoop rest keys result (append duplicates entry)
      end
  end.

Definition removeDuplicateValues (intSlice : slice Z) : slice Z * slice Z :=
  removeDuplicateValuesLoop (elems intSlice) ∅ None None.

(** [parseIntRanges]: the IDs without their repetitions; every repetition is
    reported to the logger. The first component is the log. *)
Definition parseIntRanges (ranges : list string)
  : option (list logEntry * (error + slice Z)) :=
  match parseIDs ranges with
  | None => None
  | Some (inl err) => Some ([], inl err)
  | Some (inr ids) =>
      let '(ids', duplicatedIDs) := removeDuplicateValues ids in
      Some (map (fun duplication =>
                   Warn "duplicated id number `%d` will be removed" [duplication])
                (elems duplicatedIDs),
            inr ids')
  end.

(** [parseCores]: a [nil] result stands for "all possible cores". *)
Definition parseCores (cores : slice string) : option (list logEntry * slice Z) :=
  match cores with
  | None => Some ([Debug "all possible cores will be configured"], None)
  | Some [] =>
      Some ([Warn "an empty list of cores was provided. All possible cores will be configured" []],
            None)
  | Some ranges =>
      match parseIntRanges ranges with
      | None => None
      | Some (log, inl err) =>
          Some (log ++ [Warnf "Error while parsing list of cores: %w. All possible cores will be configured" err],
                None)
      | Some (log, inr result) => Some (log, result)
      end
  end.

Fixpoint contains (s : list Z) (e : Z) : bool :=
  match s with
  | [] => false
  | v :: rest => if v =? e then true else contains rest e
  end.

(** The exported twin of [contains], defined in another file of the package.

    Modelled from the spec: the helper [Contains] is not part of msr.go; the
    store is "populated ... from the Identifier Range Parser's output
    intersected with the set of cores actually discoverable", so it is the
    membership test. *)
Definition Contains (s : list Z) (e : Z) : bool := contains s e.

(** ** The per-core data store *)

Definition c3StateResidencyLocation : Z := 0x3FC.
Definition c6StateResidencyLocation : Z := 0x3FD.
Definition c7StateResidencyLocation : Z := 0x3FE.
Definition maximumFrequencyClockCountLocation : Z := 0xE7.
Definition actualFrequencyClockCountLocation : Z := 0xE8.
Definition throttleTemperatureLocation : Z := 0x1A2.
Definition temperatureLocation : Z := 0x19C.
Definition timestampCounterLocation : Z := 0x10.

(** The fields of [msrData], as [setCPUCores] lists them: the counters and
    their deltas are [uint64], the two temperatures [int64]. *)
Record msrData : Type := {
  mperf : Z;
  aperf : Z;
  timeStampCounter : Z;
  c3 : Z;
  c6 : Z;
  c7 : Z;
  throttleTemp : Z;
  temp : Z;
  mperfDelta : Z;
  aperfDelta : Z;
  timeStampCounterDelta : Z;
  c3Delta : Z;
  c6Delta : Z;
  c7Delta : Z
}.

Definition set_c3Delta (v : Z) (d : msrData) : msrData :=
  {| mperf := mperf d; aperf := aperf d; timeStampCounter := timeStampCounter d;
     c3 := c3 d; c6 := c6 d; c7 := c7 d; throttleTemp := throttleTemp d;
     temp := temp d; mperfDelta := mperfDelta d; aperfDelta := aperfDelta d;
     timeStampCounterDelta := timeStampCounterDelta d;
     c3Delta := v; c6Delta := c6Delta d; c7Delta := c7Delta d |}.

Definition set_c6Delta (v : Z) (d : msrData) : msrData :=
  {| mperf := mperf d; aperf := aperf d; timeStampCounter := timeStampCounter d;
     c3 := c3 d; c6 := c6 d; c7 := c7 d; throttleTemp := throttleTemp d;
     temp := temp d; mperfDelta := mperfDelta d; aperfDelta := aperfDelta d;
     timeStampCounterDelta := timeStampCounterDelta d;
     c3Delta := c3Delta d; c6Delta := v; c7Delta := c7Delta d |}.

Definition set_c7Delta (v : Z) (d : msrData) : msrData :=
  {| mperf := mperf d; aperf := aperf d; timeStampCounter := timeStampCounter d;
     c3 := c3 d; c6 := c6 d; c7 := c7 d; throttleTemp := throttleTemp d;
     temp := temp d; mperfDelta := mperfDelta d; aperfDelta := aperfDelta d;
     timeStampCounterDelta := timeStampCounterDelta d;
     c3Delta := c3Delta d; c6Delta := c6Delta d; c7Delta := v |}.

Definition set_mperfDelta (v : Z) (d : msrData) : msrData :=
  {| mperf := mperf d; aperf := aperf d; timeStampCounter := timeStampCounter d;
     c3 := c3 d; c6 := c6 d; c7 := c7 d; throttleTemp := throttleTemp d;
     temp := temp d; mperfDelta := v; aperfDelta := aperfDelta d;
     timeStampCounterDelta := timeStampCounterDelta d;
     c3Delta := c3Delta d; c6Delta := c6Delta d; c7Delta := c7Delta d |}.

Definition set_aperfDelta (v : Z) (d : msrData) : msrData :=
  {| mperf := mperf d; aperf := aperf d; timeStampCounter := timeStampCounter d;
     c3 := c3 d; c6 := c6 d; c7 := c7 d; throttleTemp := throttleTemp d;
     temp := temp d; mperfDelta := mperfDelta d; aperfDelta := v;
     timeStampCounterDelta := timeStampCounterDelta d;
     c3Delta := c3Delta d; c6Delta := c6Delta d; c7Delta := c7Delta d |}.

Definition set_timeStampCounterDelta (v : Z) (d : msrData) : msrData :=
  {| mperf := mperf d; aperf := aperf d; timeStampCounter := timeStampCounter d;
     c3 := c3 d; c6 := c6 d; c7 := c7 d; throttleTemp := throttleTemp d;
     temp := temp d; mperfDelta := mperfDelta d; aperfDelta := aperfDelta d;
     timeStampCounterDelta := v;
     c3Delta := c3Delta d; c6Delta := c6Delta d; c7Delta := c7Delta d |}.

Definition set_c3 (v : Z) (d : msrData) : msrData :=
  {| mperf := mperf d; aperf := aperf d; timeStampCounter := timeStampCounter d;
     c3 := v; c6 := c6 d; c7 := c7 d; throttleTemp := throttleTemp d;
     temp := temp d; mperfDelta := mperfDelta d; aperfDelta := aperfDelta d;
     timeStampCounterDelta := timeStampCounterDelta d;
     c3Delta := c3Delta d; c6Delta := c6Delta d; c7Delta := c7Delta d |}.

Definition set_c6 (v : Z) (d : msrData) : msrData :=
  {| mperf := mperf d; aperf := aperf d; timeStampCounter := timeStampCounter d;
     c3 := c3 d; c6 := v; c7 := c7 d; throttleTemp := throttleTemp d;
     temp := temp d; mperfDelta := mperfDelta d; aperfDelta := aperfDelta d;
     timeStampCounterDelta := timeStampCounterDelta d;
     c3Delta := c3Delta d; c6Delta := c6Delta d; c7Delta := c7Delta d |}.

Definition set_c7 (v : Z) (d : msrData) : msrData :=
  {| mperf := mperf d; aperf := aperf d; timeStampCounter := timeStampCounter d;
     c3 := c3 d; c6 := c6 d; c7 := v; throttleTemp := throttleTemp d;
     temp := temp d; mperfDelta := mperfDelta d; aperfDelta := aperfDelta d;
     timeStampCounterDelta := timeStampCounterDelta d;
     c3Delta := c3Delta d; c6Delta := c6Delta d; c7Delta := c7Delta d |}.

Definition set_mperf (v : Z) (d : msrData) : msrData :=
  {| mperf := v; aperf := aperf d; timeStampCounter := timeStampCounter d;
     c3 := c3 d; c6 := c6 d; c7 := c7 d; throttleTemp := throttleTemp d;
     temp := temp d; mperfDelta := mperfDelta d; aperfDelta := aperfDelta d;
     timeStampCounterDelta := timeStampCounterDelta d;
     c3Delta := c3Delta d; c6Delta := c6Delta d; c7Delta := c7Delta d |}.

Definition set_aperf (v : Z) (d : msrData) : msrData :=
  {| mperf := mperf d; aperf := v; timeStampCounter := timeStampCounter d;
     c3 := c3 d; c6 := c6 d; c7 := c7 d; throttleTemp := throttleTemp d;
     temp := temp d; mperfDelta := mperfDelta d; aperfDelta := aperfDelta d;
     timeStampCounterDelta := timeStampCounterDelta d;
     c3Delta := c3Delta d; c6Delta := c6Delta d; c7Delta := c7Delta d |}.

Definition set_timeStampCounter (v : Z) (d : msrData) : msrData :=
  {| mperf := mperf d; aperf := aperf d; timeStampCounter := v;
     c3 := c3 d; c6 := c6 d; c7 := c7 d; throttleTemp := throttleTemp d;
     temp := temp d; mperfDelta := mperfDelta d; aperfDelta := aperfDelta d;
     timeStampCounterDelta := timeStampCounterDelta d;
     c3Delta := c3Delta d; c6Delta := c6Delta d; c7Delta := c7Delta d |}.

Definition set_throttleTemp (v : Z) (d : msrData) : msrData :=
  {| mperf := mperf d; aperf := aperf d; timeStampCounter := timeStampCounter d;
     c3 := c3 d; c6 := c6 d; c7 := c7 d; throttleTemp := v;
     temp := temp d; mperfDelta := mperfDelta d; aperfDelta := aperfDelta d;
     timeStampCounterDelta := timeStampCounterDelta d;
     c3Delta := c3Delta d; c6Delta := c6Delta d; c7Delta := c7Delta d |}.

Definition set_temp (v : Z) (d : msrData) : msrData :=
  {| mperf := mperf d; aperf := aperf d; timeStampCounter := timeStampCounter d;
     c3 := c3 d; c6 := c6 d; c7 := c7 d; throttleTemp := throttleTemp d;
     temp := v; mperfDelta := mperfDelta d; aperfDelta := aperfDelta d;
     timeStampCounterDelta := timeStampCounterDelta d;
     c3Delta := c3Delta d; c6Delta := c6Delta d; c7Delta := c7Delta d |}.

(** The collaborators of the service, none of which is defined in msr.go:
    [checkFile], [os.Open] and the methods of [fileService] it calls. A
    [reader] is an open file ([io.ReaderAt]). *)
Record fileService : Type := {
  reader : Type;
  checkFile : string -> option error;
  osOpen : string -> error + reader;
  readFileAtOffsetToUint64 : reader -> Z -> error + Z;
  getStringsMatchingPatternOnPath : string -> error + list string
}.

(** The state of [msrServiceImpl] that its methods change; [fs] and [log] are
    passed along. [cpuCoresData] maps a core to its [*msrData]: a core that
    is not a key reads as the nil pointer. *)
Record msrServiceImpl : Type := {
  cpuCoresData : gmap string msrData;
  cpuCores : slice Z
}.

(** [msrOffsets] is assigned once, by [newMsrServiceWithFs], the only
    constructor of the service. *)
Definition msrOffsets : list Z :=
  [c3StateResidencyLocation; c6StateResidencyLocation; c7StateResidencyLocation;
   maximumFrequencyClockCountLocation; actualFrequencyClockCountLocation;
   timestampCounterLocation; throttleTemperatureLocation; temperatureLocation].

(** How a call either returns or panics (here: on a nil pointer
    dereference). *)
Inductive outcome (A : Type) : Type :=
| Returned (a : A)
| Panicked.
Arguments Returned {A} a.
Arguments Panicked {A}.

(** ** The concurrent reads of one refresh

    [readDataFromMsr] starts one goroutine per offset in an [errgroup] with a
    shared context. What the scheduler decides is a [schedule]: the order in
    which the goroutines get past their read ([completion]) and, for a
    goroutine that reaches its [select] when the context is already
    cancelled and the receiver is ready as well, which case runs
    ([sendWins]). *)
Record schedule : Type := {
  completion : list Z;
  sendWins : Z -> bool
}.

(** [readValueFromFileAtOffset] inside its goroutine: the value put on the
    channel, if any, and the error the goroutine returns to the group.
    [ctxDone] tells whether the context is cancelled when the goroutine
    reaches its [select]. *)
Definition readValueFromFileAtOffset (fs : fileService) (ctxDone send : bool)
    (rd : reader fs) (offset : Z) : option Z * option error :=
  match readFileAtOffsetToUint64 fs rd offset with
  | inl err => (None, Some err)
  | inr value =>
      if ctxDone && negb send then (None, Some ErrCanceled)
      else (Some value, None)
  end.

(** The goroutines in their order of completion. The group keeps the first
    error and cancels the context with it; [chans] holds the values that
    were sent (a channel closed without a value is absent). *)
Fixpoint runGroup (fs : fileService) (sendWins : Z -> bool) (rd : reader fs)
    (order : list Z) (gerr : option error) (chans : gmap Z Z)
  : option error * gmap Z Z :=
  match order with
  | [] => (gerr, chans)
  | off :: rest =>
      let ctxDone := bool_decide (is_Some gerr) in
      let '(sent, err) :=
        readValueFromFileAtOffset fs ctxDone (sendWins off) rd off in
      let chans' :=
        match sent with
        | Some value => <[off := value]> chans
        | None => chans
        end in
      let gerr' :=
        match gerr, err with
        | None, Some e => Some (ErrReadMsrFile e)
        | _, _ => gerr
        end in
      runGroup fs sendWins rd rest gerr' chans'
  end.

(** [<-ch]: the value sent, or the zero value of a closed channel. *)
Definition recv (chans : gmap Z Z) (off : Z) : Z := default 0 (chans !! off).

Definition readDataFromMsr (fs : fileService) (sch : schedule)
    (m : msrServiceImpl) (core : string) (rd : reader fs)
  : outcome (option error) * msrServiceImpl :=
  let '(gerr, chans) := runGroup fs (sendWins sch) rd (completion sch) None ∅ in
  let newC3 := recv chans c3StateResidencyLocation in
  let newC6 := recv chans c6StateResidencyLocation in
  let newC7 := recv chans c7StateResidencyLocation in
  let newMperf := recv chans maximumFrequencyClockCountLocation in
  let newAperf := recv chans actualFrequencyClockCountLocation in
  let newTsc := recv chans timestampCounterLocation in
  let newThrottleTemp := recv chans throttleTemperatureLocation in
  let newTemp := recv chans temperatureLocation in
  match gerr with
  | Some err => (Returned (Some (ErrGoroutines err)), m)
  | None =>
      match cpuCoresData m !! core with
      | None => (Panicked, m)
      | Some d =>
          let d := set_c3Delta (wrapU64 (newC3 - c3 d)) d in
          let d := set_c6Delta (wrapU64 (newC6 - c6 d)) d in
          let d := set_c7Delta (wrapU64 (newC7 - c7 d)) d in
          let d := set_mperfDelta (wrapU64 (newMperf - mperf d)) d in
          let d := set_aperfDelta (wrapU64 (newAperf - aperf d)) d in
          let d := set_timeStampCounterDelta
                     (wrapU64 (newTsc - timeStampCounter d)) d in
          let d := set_c3 newC3 d in
          let d := set_c6 newC6 d in
          let d := set_c7 newC7 d in
          let d := set_mperf newMperf d in
          let d := set_aperf newAperf d in
          let d := set_timeStampCounter newTsc d in
          let d := set_throttleTemp
                     (wrapI64 (Z.land (Z.shiftr newThrottleTemp 16) 0xFF)) d in
          let d := set_temp (wrapI64 (Z.land (Z.shiftr newTemp 16) 0x7F)) d in
          (Returned None,
           {| cpuCoresData := <[core := d]> (cpuCoresData m);
              cpuCores := cpuCores m |})
      end
  end.

(** [fmt.Sprintf(msrPartialPath, core)]. *)
Definition msrPath (core : string) : string :=
  String.append "/dev/cpu/" (String.append core "/msr").

Definition openAndReadMsr (fs : fileService) (sch : schedule)
    (m : msrServiceImpl) (core : string)
  : outcome (option error) * msrServiceImpl :=
  let path := msrPath core in
  match checkFile fs path with
  | Some err => (Returned (Some err), m)
  | None =>
      match osOpen fs path with
      | inl err => (Returned (Some (ErrOpenMsr path err)), m)
      | inr msrFile =>
          match readDataFromMsr fs sch m core msrFile with
          | (Returned (Some err), m') =>
              (Returned (Some (ErrReadCore core err)), m')
          | (Returned None, m') => (Returned None, m')
          | (Panicked, m') => (Panicked, m')
          end
      end
  end.

(** [isMsrLoaded]: [order] is the order in which [range] visits the keys of
    the store, [sch] the schedule of the refresh of each core. *)
Fixpoint isMsrLoadedLoop (fs : fileService) (sch : string -> schedule)
    (order : list string) (m : msrServiceImpl)
  : outcome bool * msrServiceImpl :=
  match order with
  | [] => (Returned false, m)
  | cpuID :: rest =>
      match openAndReadMsr fs (sch cpuID) m cpuID with
      | (Returned None, m') => (Returned true, m')
      | (Returned (Some _), m') => isMsrLoadedLoop fs sch rest m'
      | (Panicked, m') => (Panicked, m')
      end
  end.

Definition isMsrLoaded (fs : fileService) (sch : string -> schedule)
    (order : list string) (m : msrServiceImpl)
  : outcome bool * msrServiceImpl :=
  isMsrLoadedLoop fs sch order m.

(** ** Setting the store up: [setCPUCores], [newMsrServiceWithFs] *)

Definition slash : ascii := Ascii.ascii_of_nat 47.

Fixpoint stripTrailingSlashes (path : string) : string :=
  match path with
  | EmptyString => EmptyString
  | String c rest =>
      match stripTrailingSlashes rest with
      | EmptyString =>
          if Ascii.eqb c slash then EmptyString else String c EmptyString
      | r => String c r
      end
  end.

Fixpoint hasSlash (path : string) : bool :=
  match path with
  | EmptyString => false
  | String c rest => Ascii.eqb c slash || hasSlash rest
  end.

Fixpoint lastElement (path : string) : string :=
  match path with
  | EmptyString => EmptyString
  | String c rest =>
      if hasSlash rest then lastElement rest
      else if Ascii.eqb c slash then rest
      else path
  end.

(** [filepath.Base] on linux. *)
Definition Base (path : string) : string :=
  match path with
  | EmptyString => "."
  | _ =>
      match lastElement (stripTrailingSlashes path) with
      | EmptyString => "/"
      | p => p
      end
  end.

Fixpoint cutPrefix (s prefix : string) : option string :=
  match prefix, s with
  | EmptyString, _ => Some s
  | String p prefix', String c s' =>
      if Ascii.eqb p c then cutPrefix s' prefix' else None
  | String _ _, EmptyString => None
  end.

(** [strings.TrimPrefix]. *)
Definition TrimPrefix (s prefix : string) : string :=
  default s (cutPrefix s prefix).

(** The literal [&msrData{mperf: 0, ..., c7Delta: 0}] of [setCPUCores]. *)
Definition newMsrData : msrData :=
  {| mperf := 0; aperf := 0; timeStampCounter := 0; c3 := 0; c6 := 0; c7 := 0;
     throttleTemp := 0; temp := 0; mperfDelta := 0; aperfDelta := 0;
     timeStampCounterDelta := 0; c3Delta := 0; c6Delta := 0; c7Delta := 0 |}.

Definition cpuCorePattern : string := "/sys/devices/system/cpu//cpu[0-9]*".

Fixpoint setCPUCoresLoop (cpuPaths : list string) (cores : slice Z)
    (data : gmap string msrData) : gmap string msrData :=
  match cpuPaths with
  | [] => data
  | cpuPath :: rest =>
      let core := TrimPrefix (Base cpuPath) "cpu" in
      let skip :=
        match cores with
        | Some l => negb (Contains l (fst (Atoi core)))
        | None => false
        end in
      if skip then setCPUCoresLoop rest cores data
      else setCPUCoresLoop rest cores (<[core := newMsrData]> data)
  end.

(** [setCPUCores] initializes the [cpuCoresData] map. *)
Definition setCPUCores (fs : fileService) (m : msrServiceImpl)
  : list logEntry * option error * msrServiceImpl :=
  let m := {| cpuCoresData := ∅; cpuCores := cpuCores m |} in
  match getStringsMatchingPatternOnPath fs cpuCorePattern with
  | inl err => ([], Some err, m)
  | inr [] =>
      ([Debug "CPU core data wasn't found using pattern: %s"], None, m)
  | inr cpuPaths =>
      ([], None,
       {| cpuCoresData := setCPUCoresLoop cpuPaths (cpuCores m) (cpuCoresData m);
          cpuCores := cpuCores m |})
  end.

Definition newMsrServiceWithFs (fs : fileService) (cores : slice string)
  : option (list logEntry * msrServiceImpl) :=
  match parseCores cores with
  | None => None
  | Some (log, parsedCores) =>
      let msrService := {| cpuCoresData := ∅; cpuCores := parsedCores |} in
      match setCPUCores fs msrService with
      | (log', Some err, msrService') =>
          Some (log ++ log' ++ [LogError err], msrService')
      | (log', None, msrService') => Some (log ++ log', msrService')
      end
  end.

(** ** The other methods of the service: [readSingleMsr],
    [retrieveCPUFrequencyForCore], [retrieveUncoreFrequency] *)

Definition turboRatioLimitLocation : Z := 0x1AD.
Definition turboRatioLimit1Location : Z := 0x1AE.
Definition turboRatioLimit2Location : Z := 0x1AF.
Definition atomCoreTurboRatiosLocation : Z := 0x66C.
Definition uncorePerfStatusLocation : Z := 0x621.
Definition platformInfo : Z := 0xCE.
Definition fsbFreq : Z := 0xCD.

Definition msrTurboRatioLimitString : string := "MSR_TURBO_RATIO_LIMIT".
Definition msrTurboRatioLimit1String : string := "MSR_TURBO_RATIO_LIMIT1".
Definition msrTurboRatioLimit2String : string := "MSR_TURBO_RATIO_LIMIT2".
Definition msrAtomCoreTurboRatiosString : string := "MSR_ATOM_CORE_TURBO_RATIOS".
Definition msrUncorePerfStatusString : string := "MSR_UNCORE_PERF_STATUS".
Definition msrPlatformInfoString : string := "MSR_PLATFORM_INFO".
Definition msrFSBFreqString : string := "MSR_FSB_FREQ".

(** The errors of these methods: the errors above, and one constructor per
    [fmt.Errorf] site of the methods. *)
Inductive serviceError : Type :=
| ErrOf (err : error)
| ErrIncorrectName (msr : string)
    (* "incorect name of MSR %s" *)
| ErrUnknownFrequencyType (typeFreq : string)
    (* "unknown frequency type %s, only 'initial' and 'current' are supported" *)
| ErrUnknownFrequencyKind (kind : string)
    (* "unknown frequency type %s, only 'min' and 'max' are supported" *)
| ErrUncoreFreqPath (socketID typeFreq : string) (err : serviceError)
    (* "unable to create uncore freq read path for socketID %q, and frequency type %q: %w" *)
| ErrOpenCurFreq (path : string) (err : error)
    (* "error opening scaling_cur_freq file on path %q: %w" *)
| ErrOpenUncoreFreq (path : string) (err : error).
    (* "error opening uncore frequncy file on %q: %w" *)

(** The [switch msr] of [readSingleMsr]: [None] is its [default] case. *)
Definition msrAddress (msr : string) : option Z :=
  if String.eqb msr msrTurboRatioLimitString then Some turboRatioLimitLocation
  else if String.eqb msr msrTurboRatioLimit1String
       then Some turboRatioLimit1Location
  else if String.eqb msr msrTurboRatioLimit2String
       then Some turboRatioLimit2Location
  else if String.eqb msr msrAtomCoreTurboRatiosString
       then Some atomCoreTurboRatiosLocation
  else if String.eqb msr msrUncorePerfStatusString
       then Some uncorePerfStatusLocation
  else if String.eqb msr msrPlatformInfoString then Some platformInfo
  else if String.eqb msr msrFSBFreqString then Some fsbFreq
  else None.

Definition readSingleMsr (fs : fileService) (core msr : string)
  : serviceError + Z :=
  let path := msrPath core in
  match checkFile fs path with
  | Some err => inl (ErrOf err)
  | None =>
      match osOpen fs path with
      | inl err => inl (ErrOf (ErrOpenMsr path err))
      | inr msrFile =>
          match msrAddress msr with
          | None => inl (ErrIncorrectName msr)
          | Some address =>
              match readFileAtOffsetToUint64 fs msrFile address with
              | inl err => inl (ErrOf err)
              | inr value => inr value
              end
          end
      end
  end.

(** Go's [<=] on strings: the byte-wise lexicographic order. *)
Fixpoint stringLe (s t : string) : bool :=
  match s, t with
  | EmptyString, _ => true
  | String _ _, EmptyString => false
  | String c s', String d t' =>
      if byte_of c <? byte_of d then true
      else if byte_of c =? byte_of d then stringLe s' t'
      else false
  end.

(** [if id >= "0" && id <= "9" { id = fmt.Sprintf("0%s", id) }]. *)
Definition zeroPrefixed (id : string) : string :=
  if stringLe "0" id && stringLe id "9" then String.append "0" id else id.

Definition createUncoreFreqPath (socketID typeFreq kind die : string)
  : serviceError + string :=
  let socketID := zeroPrefixed socketID in
  let die := zeroPrefixed die in
  match
    (if String.eqb typeFreq "initial" then Some "initial_"
     else if String.eqb typeFreq "current" then Some EmptyString
     else None)
  with
  | None => inl (ErrUnknownFrequencyType typeFreq)
  | Some prefix =>
      if negb (String.eqb kind "min") && negb (String.eqb kind "max")
      then inl (ErrUnknownFrequencyKind kind)
      else
        inr (String.append
               "/sys/devices/system/cpu/intel_uncore_frequency/package_"
               (String.append socketID
                  (String.append "_die_"
                     (String.append die
                        (String.append "/"
                           (String.append prefix
                              (String.append kind "_freq_khz")))))))
  end.

(** What the two frequency methods use besides [checkFile] and [os.Open],
    none of it defined in msr.go: the type [float64] with its zero,
    [fileService.readFileToFloat64] (its second result is not used) and
    [convertKiloHertzToMegaHertz]. *)
Record floatService (fs : fileService) : Type := {
  float64 : Type;
  zeroFloat : float64;
  readFileToFloat64 : reader fs -> float64 * option error;
  convertKiloHertzToMegaHertz : float64 -> float64
}.
Arguments float64 {fs} _.
Arguments zeroFloat {fs} _.
Arguments readFileToFloat64 {fs} _ _.
Arguments convertKiloHertzToMegaHertz {fs} _ _.

(** [fmt.Sprintf(cpuCurrentFreqPartialPath, core)]. *)
Definition cpuFreqPath (core : string) : string :=
  String.append "/sys/devices/system/cpu/cpu"
    (String.append core "/cpufreq/scaling_cur_freq").

Definition retrieveCPUFrequencyForCore (fs : fileService)
    (ff : floatService fs) (core : string)
  : float64 ff * option serviceError :=
  let cpuFreqPath := cpuFreqPath core in
  match checkFile fs cpuFreqPath with
  | Some err => (zeroFloat ff, Some (ErrOf err))
  | None =>
      match osOpen fs cpuFreqPath with
      | inl err => (zeroFloat ff, Some (ErrOpenCurFreq cpuFreqPath err))
      | inr cpuFreqFile =>
          let '(cpuFreq, err) := readFileToFloat64 ff cpuFreqFile in
          (convertKiloHertzToMegaHertz ff cpuFreq, option_map ErrOf err)
      end
  end.

Definition retrieveUncoreFrequency (fs : fileService) (ff : floatService fs)
    (socketID typeFreq kind die : string)
  : float64 ff * option serviceError :=
  match createUncoreFreqPath socketID typeFreq kind die with
  | inl err => (zeroFloat ff, Some (ErrUncoreFreqPath socketID typeFreq err))
  | inr uncoreFreqPath =>
      match checkFile fs uncoreFreqPath with
      | Some err => (zeroFloat ff, Some (ErrOf err))
      | None =>
          match osOpen fs uncoreFreqPath with
          | inl err =>
              (zeroFloat ff, Some (ErrOpenUncoreFreq uncoreFreqPath err))
          | inr uncoreFreqFile =>
              let '(uncoreFreq, err) := readFileToFloat64 ff uncoreFreqFile in
              (convertKiloHertzToMegaHertz ff uncoreFreq, option_map ErrOf err)
          end
      end
  end.


(** ** What the properties below speak about *)

(** A schedule of one refresh lets each of the eight goroutines run once. *)
Definition validSchedule (sch : schedule) : Prop :=
  Permutation (completion sch) msrOffsets.

(** The register source of a core is openable and readable: the file passes
    [checkFile], opens, and each tracked offset reads. *)
Definition readable (fs : fileService) (core : string) : bool :=
  match checkFile fs (msrPath core) with
  | Some _ => false
  | None =>
      match osOpen fs (msrPath core) with
      | inl _ => false
      | inr rd =>
          forallb (fun off =>
                     match readFileAtOffsetToUint64 fs rd off with
                     | inr _ => true
                     | inl _ => false
                     end) msrOffsets
      end
  end.

(** The sample a successful refresh stores, from the previous sample [d] and
    the raw values [raw] read at the offsets. *)
Definition refreshed (raw : Z -> Z) (d : msrData) : msrData :=
  {| mperf := raw maximumFrequencyClockCountLocation;
     aperf := raw actualFrequencyClockCountLocation;
     timeStampCounter := raw timestampCounterLocation;
     c3 := raw c3StateResidencyLocation;
     c6 := raw c6StateResidencyLocation;
     c7 := raw c7StateResidencyLocation;
     throttleTemp := Z.land (Z.shiftr (raw throttleTemperatureLocation) 16) 0xFF;
     temp := Z.land (Z.shiftr (raw temperatureLocation) 16) 0x7F;
     mperfDelta := (raw maximumFrequencyClockCountLocation - mperf d) mod 2 ^ 64;
     aperfDelta := (raw actualFrequencyClockCountLocation - aperf d) mod 2 ^ 64;
     timeStampCounterDelta :=
       (raw timestampCounterLocation - timeStampCounter d) mod 2 ^ 64;
     c3Delta := (raw c3StateResidencyLocation - c3 d) mod 2 ^ 64;
     c6Delta := (raw c6StateResidencyLocation - c6 d) mod 2 ^ 64;
     c7Delta := (raw c7StateResidencyLocation - c7 d) mod 2 ^ 64 |}.

(** The fields of a list of specifications, in the order [parseIDs] visits
    them. *)
Definition fields (allIDsStrings : list string) : list string :=
  flat_map Split allIDsStrings.

(** The IDs a valid field stands for: the integers of [a, b] for a range
    with [a < b], the integer itself for a single value. IDs are [int]s, so
    a range that reaches above [maxInt] is not given a meaning. *)
Definition expandID (field : string) : option (list Z) :=
  let id := TrimSpace field in
  match Sscanf id with
  | Some (a, b) =>
      if (a <? b) && (b <=? maxInt) then Some (seqZ a (b - a + 1)) else None
  | None =>
      match Atoi id with
      | (num, None) => Some [num]
      | (_, Some _) => None
      end
  end.

(** The expansion of a list of fields, before deduplication: defined when
    every field is valid. *)
Fixpoint expandAll (fs : list string) : option (list Z) :=
  match fs with
  | [] => Some []
  | f :: rest =>
      match expandID f, expandAll rest with
      | Some l, Some ls => Some (l ++ ls)
      | _, _ => None
      end
  end.

(** The decimal digits of [n >= 0], most significant first, in front of
    [acc]: what [%d] and [strconv.Itoa] print. *)
Definition digitChar (d : Z) : ascii := ascii_of_N (Z.to_N (48 + d)).

Fixpoint decimalAux (fuel : nat) (n : Z) (acc : string) : string :=
  match fuel with
  | O => acc
  | S fuel' =>
      let acc' := String (digitChar (n mod 10)) acc in
      if n <? 10 then acc' else decimalAux fuel' (n / 10) acc'
  end.

Definition decimal (n : Z) : string :=
  decimalAux (S (Z.to_nat (Z.log2 n))) n EmptyString.

(** The range token "a-b". *)
Definition rangeToken (a b : Z) : string :=
  String.append (decimal a) (String minus (decimal b)).

Fixpoint hasComma (s : string) : bool :=
  match s with
  | EmptyString => false
  | String c rest => Ascii.eqb c comma || hasComma rest
  end.

(** The values of [l] in the order each is first met, given the values
    [seen] before [l]. *)
Fixpoint firstOccurrences (seen l : list Z) : list Z :=
  match l with
  | [] => []
  | x :: rest =>
      if bool_decide (x ∈ seen) then firstOccurrences seen rest
      else x :: firstOccurrences (seen ++ [x]) rest
  end.

(** The occurrences of [l] that repeat a value met before. *)
Fixpoint laterOccurrences (seen l : list Z) : list Z :=
  match l with
  | [] => []
  | x :: rest =>
      if bool_decide (x ∈ seen) then x :: laterOccurrences seen rest
      else laterOccurrences (seen ++ [x]) rest
  end.

(** The core a path of the system's CPU directory stands for, as
    [setCPUCores] computes it. *)
Definition coreOf (cpuPath : string) : string :=
  TrimPrefix (Base cpuPath) "cpu".

(** Whether the filter [cores] lets the core through: every core passes the
    nil filter, and a core passes a list when its number is in the list. *)
Definition selected (cores : slice Z) (core : string) : Prop :=
  match cores with
  | Some l => fst (Atoi core) ∈ l
  | None => True
  end.

(** The directory of core [n] under [dir]: "dir/cpu<n>". *)
Definition cpuDir (dir : string) (n : Z) : string :=
  String.append dir (String.append "/cpu" (decimal n)).

(** [strings.Join(fields, ",")]. *)
Fixpoint joinComma (fs : list string) : string :=
  match fs with
  | [] => EmptyString
  | [f] => f
  | f :: rest => String.append f (String comma (joinComma rest))
  end.

(** The names [readSingleMsr] knows, with their registers. *)
Definition namedRegisters : list (string * Z) :=
  [(msrTurboRatioLimitString, turboRatioLimitLocation);
   (msrTurboRatioLimit1String, turboRatioLimit1Location);
   (msrTurboRatioLimit2String, turboRatioLimit2Location);
   (msrAtomCoreTurboRatiosString, atomCoreTurboRatiosLocation);
   (msrUncorePerfStatusString, uncorePerfStatusLocation);
   (msrPlatformInfoString, platformInfo);
   (msrFSBFreqString, fsbFreq)].

(** The arguments [createUncoreFreqPath] accepts. *)
Definition validFrequency (typeFreq kind : string) : Prop :=
  (typeFreq = "initial" ∨ typeFreq = "current") ∧
  (kind = "min" ∨ kind = "max").

(** The tokens of a specification: a single ID, or a range "a-b". *)
Inductive idToken : Type :=
| Single (n : Z)
| Range (a b : Z).

(** A token as it is written, *)
Definition printToken (t : idToken) : string :=
  match t with
  | Single n => decimal n
  | Range a b => rangeToken a b
  end.

(** the IDs it stands for, *)
Definition tokenIDs (t : idToken) : list Z :=
  match t with
  | Single n => [n]
  | Range a b => seqZ a (b - a + 1)
  end.

(** and when it is well formed: IDs are non-negative [int]s, and a range
    has its bounds in increasing order. *)
Definition validToken (t : idToken) : Prop :=
  match t with
  | Single n => 0 ≤ n ≤ maxInt
  | Range a b => 0 ≤ a ∧ a < b ∧ b ≤ maxInt
  end.

(** [append(s, l...)]: nil stays nil when nothing is appended. *)
Definition appendAll {A} (s : slice A) (l : list A) : slice A :=
  match l with
  | [] => s
  | _ :: _ => Some (elems s ++ l)
  end.

(** *** Fixtures: a register file served from a table, as the package's tests
    mock [fileService]. *)
Definition tableFs (regs : Z -> error + Z) (cpuPaths : list string)
  : fileService :=
  {| reader := unit;
     checkFile := fun _ => None;
     osOpen := fun _ => inr tt;
     readFileAtOffsetToUint64 := fun _ off => regs off;
     getStringsMatchingPatternOnPath := fun _ => inr cpuPaths |}.

Definition inOrder : schedule :=
  {| completion := msrOffsets; sendWins := fun _ => false |}.

Definition reversed : schedule :=
  {| completion := rev msrOffsets; sendWins := fun _ => true |}.

Definition twoCpus : list string :=
  ["/sys/devices/system/cpu//cpu0"; "/sys/devices/system/cpu//cpu1"].

(** Every register reads its own offset. *)
Definition regsOk (off : Z) : error + Z := inr off.

(** As [regsOk], but the read of the timestamp counter fails. *)
Definition regsTscFails (off : Z) : error + Z :=
  if off =? timestampCounterLocation then inl (ErrExternal "short read")
  else inr off.

(** The two temperature registers hold 0x00AB1234 and 0xFFFFFFFF. *)
Definition regsTemps (off : Z) : error + Z :=
  if off =? throttleTemperatureLocation then inr 0x00AB1234
  else if off =? temperatureLocation then inr 0xFFFFFFFF
  else inr off.

Definition store1 : msrServiceImpl :=
  {| cpuCoresData := {[ "0" := newMsrData ]}; cpuCores := None |}.

Definition store2 : msrServiceImpl :=
  {| cpuCoresData := <[ "1" := newMsrData ]> {[ "0" := newMsrData ]};
     cpuCores := None |}.

(** * Properties *)

(** ** The concurrent reads *)

(** Membership of a tracked offset in [msrOffsets]. *)
Ltac in_offsets :=
  unfold msrOffsets;
  repeat first [apply list_elem_of_here | apply list_elem_of_further].

Section Refresh.
Variable fs : fileService.

Lemma runGroup_keeps_error sw (rd : reader fs) order e chans :
  fst (runGroup fs sw rd order (Some e) chans) = Some e.
Proof.
  revert chans. induction order as [|off rest IH]; intros chans; [done|].
  simpl. destruct (readValueFromFileAtOffset _ _ _ _ _) as [sent err].
  apply IH.
Qed.

(** The error of the group is the error of a read: the context is only
    cancelled by a failed read, so the first error is never
    [context.Canceled]. *)
Lemma runGroup_first_error sw (rd : reader fs) order chans off err :
  off ∈ order →
  readFileAtOffsetToUint64 fs rd off = inl err →
  ∃ off' err',
    off' ∈ order ∧ readFileAtOffsetToUint64 fs rd off' = inl err' ∧
    fst (runGroup fs sw rd order None chans) = Some (ErrReadMsrFile err').
Proof.
  revert chans. induction order as [|o rest IH]; intros chans Hin Hrd.
  - by apply elem_of_nil in Hin.
  - simpl. unfold readValueFromFileAtOffset.
    destruct (readFileAtOffsetToUint64 fs rd o) as [e|v] eqn:Ho.
    + exists o, e. split; [left|]. split; [done|].
      apply runGroup_keeps_error.
    + simpl.
      apply elem_of_cons in Hin as [->|Hin]; [congruence|].
      destruct (IH (<[o:=v]> chans) Hin Hrd) as (off' & err' & ? & ? & ?).
      exists off', err'. split; [by right|done].
Qed.

Lemma runGroup_all_ok sw (rd : reader fs) order chans (raw : Z → Z) :
  (∀ off, off ∈ order → readFileAtOffsetToUint64 fs rd off = inr (raw off)) →
  fst (runGroup fs sw rd order None chans) = None ∧
  ∀ k, snd (runGroup fs sw rd order None chans) !! k =
       if decide (k ∈ order) then Some (raw k) else chans !! k.
Proof.
  revert chans. induction order as [|o rest IH]; intros chans Hall.
  - split; [done|]. intros k.
    destruct (decide (k ∈ [])) as [Hk|_]; [by apply elem_of_nil in Hk|done].
  - simpl. unfold readValueFromFileAtOffset.
    rewrite (Hall o) by left.
    simpl.
    destruct (IH (<[o:=raw o]> chans)) as [Herr Hch].
    { intros off Hoff. apply Hall. by right. }
    split; [done|]. intros k. rewrite Hch.
    destruct (decide (k ∈ rest)) as [Hk|Hk].
    + rewrite decide_True by (by right). done.
    + destruct (decide (k = o)) as [->|Hne].
      * rewrite decide_True by left. by rewrite lookup_insert_eq.
      * rewrite decide_False.
        -- by rewrite lookup_insert_ne.
        -- intros [?|?]%elem_of_cons; done.
Qed.

Lemma runGroup_no_error_inv sw (rd : reader fs) order chans off :
  fst (runGroup fs sw rd order None chans) = None →
  off ∈ order →
  ∃ v, readFileAtOffsetToUint64 fs rd off = inr v.
Proof.
  intros Hnone Hin.
  destruct (readFileAtOffsetToUint64 fs rd off) as [e|v] eqn:Hrd; [|by eexists].
  destruct (runGroup_first_error sw rd order chans off e Hin Hrd)
    as (? & ? & ? & ? & Hsome).
  congruence.
Qed.

Lemma wrapI64_small z : 0 ≤ z < 2 ^ 63 → wrapI64 z = z.
Proof.
  intros Hz. unfold wrapI64.
  rewrite Z.mod_small; lia.
Qed.

Lemma wrapI64_bits_ff z : wrapI64 (Z.land z 0xFF) = Z.land z 0xFF.
Proof.
  apply wrapI64_small. change 0xFF with (Z.ones 8).
  rewrite Z.land_ones by lia.
  pose proof (Z.mod_pos_bound z (2 ^ 8) ltac:(lia)). lia.
Qed.

Lemma wrapI64_bits_7f z : wrapI64 (Z.land z 0x7F) = Z.land z 0x7F.
Proof.
  apply wrapI64_small. change 0x7F with (Z.ones 7).
  rewrite Z.land_ones by lia.
  pose proof (Z.mod_pos_bound z (2 ^ 7) ltac:(lia)). lia.
Qed.

Lemma readDataFromMsr_error sch m core (rd : reader fs) off err :
  validSchedule sch →
  off ∈ msrOffsets →
  readFileAtOffsetToUint64 fs rd off = inl err →
  ∃ off' err',
    off' ∈ msrOffsets ∧ readFileAtOffsetToUint64 fs rd off' = inl err' ∧
    readDataFromMsr fs sch m core rd =
      (Returned (Some (ErrGoroutines (ErrReadMsrFile err'))), m).
Proof.
  unfold validSchedule. intros Hsch Hin Hrd.
  assert (Hin' : off ∈ completion sch) by (by rewrite Hsch).
  destruct (runGroup_first_error (sendWins sch) rd (completion sch) ∅ off err
              Hin' Hrd) as (off' & err' & Hoff' & Hrd' & Hrun).
  exists off', err'. split; [by rewrite <- Hsch|]. split; [done|].
  unfold readDataFromMsr.
  destruct (runGroup _ _ _ _ _ _) as [gerr chans]. simpl in Hrun.
  by subst gerr.
Qed.

Lemma readDataFromMsr_ok sch m core (rd : reader fs) (raw : Z → Z) :
  validSchedule sch →
  (∀ off, off ∈ msrOffsets →
          readFileAtOffsetToUint64 fs rd off = inr (raw off)) →
  readDataFromMsr fs sch m core rd =
    match cpuCoresData m !! core with
    | None => (Panicked, m)
    | Some d =>
        (Returned None,
         {| cpuCoresData := <[core := refreshed raw d]> (cpuCoresData m);
            cpuCores := cpuCores m |})
    end.
Proof.
  unfold validSchedule. intros Hsch Hall.
  destruct (runGroup_all_ok (sendWins sch) rd (completion sch) ∅ raw)
    as [Herr Hch].
  { intros off Hoff. apply Hall. by rewrite <- Hsch. }
  unfold readDataFromMsr.
  destruct (runGroup _ _ _ _ _ _) as [gerr chans]. simpl in Herr, Hch.
  subst gerr.
  destruct (cpuCoresData m !! core) as [d|]; [|done].
  assert (Hrecv : ∀ off, off ∈ msrOffsets → recv chans off = raw off).
  { intros off Hoff. unfold recv. rewrite Hch.
    rewrite decide_True by (by rewrite Hsch). done. }
  rewrite !Hrecv by in_offsets.
  rewrite wrapI64_bits_ff, wrapI64_bits_7f.
  reflexivity.
Qed.

(** A refresh that returns an error, whatever the error, and a refresh
    that panics leave the store as it was. *)
Lemma openAndReadMsr_store_kept sch m core r m' :
  openAndReadMsr fs sch m core = (r, m') →
  r ≠ Returned None →
  m' = m.
Proof.
  unfold openAndReadMsr, readDataFromMsr.
  destruct (checkFile fs (msrPath core)); [congruence|].
  destruct (osOpen fs (msrPath core)) as [e|rd]; [congruence|].
  destruct (runGroup _ _ _ _ _ _) as [[e|] chans]; [congruence|].
  destruct (cpuCoresData m !! core); [|congruence].
  intros [= <- <-]. done.
Qed.

(** What a successful refresh has done. *)
Lemma openAndReadMsr_success_inv sch m core m' :
  validSchedule sch →
  openAndReadMsr fs sch m core = (Returned None, m') →
  ∃ (rd : reader fs) (raw : Z → Z) d,
    checkFile fs (msrPath core) = None ∧
    osOpen fs (msrPath core) = inr rd ∧
    (∀ off, off ∈ msrOffsets →
            readFileAtOffsetToUint64 fs rd off = inr (raw off)) ∧
    cpuCoresData m !! core = Some d ∧
    m' = {| cpuCoresData := <[core := refreshed raw d]> (cpuCoresData m);
            cpuCores := cpuCores m |}.
Proof.
  intros Hsch. unfold openAndReadMsr.
  destruct (checkFile fs (msrPath core)) eqn:Hck; [congruence|].
  destruct (osOpen fs (msrPath core)) as [e|rd] eqn:Hop; [congruence|].
  set (raw := fun off => match readFileAtOffsetToUint64 fs rd off with
                         | inr v => v
                         | inl _ => 0
                         end).
  destruct (decide (Forall (fun off => is_Some (match readFileAtOffsetToUint64 fs rd off with inr v => Some v | inl _ => None end)) msrOffsets)) as [Hall|Hnot].
  - rewrite Forall_forall in Hall.
    assert (Hraw : ∀ off, off ∈ msrOffsets →
              readFileAtOffsetToUint64 fs rd off = inr (raw off)).
    { intros off Hoff. specialize (Hall off Hoff). unfold raw.
      destruct (readFileAtOffsetToUint64 fs rd off); [by destruct Hall|done]. }
    rewrite (readDataFromMsr_ok sch m core rd raw Hsch Hraw).
    destruct (cpuCoresData m !! core) as [d|] eqn:Hd; [|congruence].
    intros [= <-]. exists rd, raw, d. done.
  - apply not_Forall_Exists in Hnot; [|intros x; apply _].
    apply Exists_exists in Hnot as (off & Hoff & Hfail).
    destruct (readFileAtOffsetToUint64 fs rd off) as [e|v] eqn:Hrd.
    + destruct (readDataFromMsr_error sch m core rd off e Hsch Hoff Hrd)
        as (? & ? & ? & ? & ->).
      congruence.
    + exfalso. apply Hfail. rewrite Hrd. eauto.
Qed.

End Refresh.

Lemma validSchedule_inOrder : validSchedule inOrder.
Proof. unfold validSchedule. reflexivity. Qed.

Lemma validSchedule_reversed : validSchedule reversed.
Proof. unfold validSchedule. simpl. symmetry. apply Permutation_rev. Qed.

(** C1: when one of the eight reads of a refresh fails, [readDataFromMsr] and
    [openAndReadMsr] return an error, which wraps the error of a failed read
    and (for [openAndReadMsr]) names the core, and the service, hence the
    core's sample with all its current and delta fields, is exactly what it
    was before the call, whatever the scheduler did. *)
Theorem refresh_failure_commits_nothing
    (fs : fileService) (sch : schedule) (m : msrServiceImpl) (core : string)
    (rd : reader fs) (off : Z) (err : error) :
  validSchedule sch →
  off ∈ msrOffsets →
  readFileAtOffsetToUint64 fs rd off = inl err →
  ∃ off' cause,
    off' ∈ msrOffsets ∧
    readFileAtOffsetToUint64 fs rd off' = inl cause ∧
    readDataFromMsr fs sch m core rd =
      (Returned (Some (ErrGoroutines (ErrReadMsrFile cause))), m) ∧
    (checkFile fs (msrPath core) = None →
     osOpen fs (msrPath core) = inr rd →
     openAndReadMsr fs sch m core =
       (Returned (Some (ErrReadCore core
                          (ErrGoroutines (ErrReadMsrFile cause)))), m)).
Proof.
  intros Hsch Hoff Hrd.
  destruct (readDataFromMsr_error fs sch m core rd off err Hsch Hoff Hrd)
    as (off' & cause & Hoff' & Hrd' & Hrun).
  exists off', cause. repeat split; try done.
  intros Hck Hop. unfold openAndReadMsr. by rewrite Hck, Hop, Hrun.
Qed.

Lemma refresh_failure_commits_nothing_witness :
  ∃ off' cause,
    off' ∈ msrOffsets ∧
    regsTscFails off' = inl cause ∧
    readDataFromMsr (tableFs regsTscFails twoCpus) reversed store1 "0" tt =
      (Returned (Some (ErrGoroutines (ErrReadMsrFile cause))), store1) ∧
    (checkFile (tableFs regsTscFails twoCpus) (msrPath "0") = None →
     osOpen (tableFs regsTscFails twoCpus) (msrPath "0") = inr tt →
     openAndReadMsr (tableFs regsTscFails twoCpus) reversed store1 "0" =
       (Returned (Some (ErrReadCore "0"
                          (ErrGoroutines (ErrReadMsrFile cause)))), store1)).
Proof.
  apply (refresh_failure_commits_nothing (tableFs regsTscFails twoCpus)
           reversed store1 "0" tt timestampCounterLocation
           (ErrExternal "short read")).
  - exact validSchedule_reversed.
  - in_offsets.
  - reflexivity.
Defined.

Lemma setCPUCoresLoop_fresh cpuPaths cores (data : gmap string msrData) :
  map_Forall (λ _ d, d = newMsrData) data →
  map_Forall (λ _ d, d = newMsrData) (setCPUCoresLoop cpuPaths cores data).
Proof.
  revert data. induction cpuPaths as [|cpuPath rest IH]; intros data Hdata;
    [done|].
  simpl. destruct (match cores with Some _ => _ | None => _ end).
  - by apply IH.
  - apply IH. by apply map_Forall_insert_2.
Qed.

(** Every sample of a service that [newMsrServiceWithFs] has just built is
    the all-zero sample. *)
Lemma newMsrServiceWithFs_fresh fs cores log m core d :
  newMsrServiceWithFs fs cores = Some (log, m) →
  cpuCoresData m !! core = Some d →
  d = newMsrData.
Proof.
  unfold newMsrServiceWithFs, setCPUCores.
  destruct (parseCores cores) as [[log0 parsed]|]; [|done].
  simpl.
  destruct (getStringsMatchingPatternOnPath fs cpuCorePattern)
    as [e|[|p ps]]; intros [= <- <-]; simpl; try by rewrite lookup_empty.
  apply (setCPUCoresLoop_fresh (p :: ps) parsed ∅).
  apply map_Forall_empty.
Qed.

(** C2: after a successful refresh the six delta fields are
    (raw value read - value stored before) mod 2^64 and the six current
    fields are the raw values; on the all-zero sample that setup stores, the
    deltas are the raw values themselves. *)
Theorem refresh_deltas_are_modular
    (fs : fileService) (sch : schedule) (m m' : msrServiceImpl)
    (core : string) :
  validSchedule sch →
  openAndReadMsr fs sch m core = (Returned None, m') →
  ∃ (rd : reader fs) (raw : Z → Z) d d',
    osOpen fs (msrPath core) = inr rd ∧
    (∀ off, off ∈ msrOffsets →
            readFileAtOffsetToUint64 fs rd off = inr (raw off)) ∧
    cpuCoresData m !! core = Some d ∧
    cpuCoresData m' !! core = Some d' ∧
    (c3Delta d' = (raw c3StateResidencyLocation - c3 d) mod 2 ^ 64 ∧
     c6Delta d' = (raw c6StateResidencyLocation - c6 d) mod 2 ^ 64 ∧
     c7Delta d' = (raw c7StateResidencyLocation - c7 d) mod 2 ^ 64 ∧
     mperfDelta d' =
       (raw maximumFrequencyClockCountLocation - mperf d) mod 2 ^ 64 ∧
     aperfDelta d' =
       (raw actualFrequencyClockCountLocation - aperf d) mod 2 ^ 64 ∧
     timeStampCounterDelta d' =
       (raw timestampCounterLocation - timeStampCounter d) mod 2 ^ 64) ∧
    (c3 d' = raw c3StateResidencyLocation ∧
     c6 d' = raw c6StateResidencyLocation ∧
     c7 d' = raw c7StateResidencyLocation ∧
     mperf d' = raw maximumFrequencyClockCountLocation ∧
     aperf d' = raw actualFrequencyClockCountLocation ∧
     timeStampCounter d' = raw timestampCounterLocation) ∧
    (d = newMsrData →
     (∀ off, off ∈ msrOffsets → 0 ≤ raw off < 2 ^ 64) →
     c3Delta d' = raw c3StateResidencyLocation ∧
     c6Delta d' = raw c6StateResidencyLocation ∧
     c7Delta d' = raw c7StateResidencyLocation ∧
     mperfDelta d' = raw maximumFrequencyClockCountLocation ∧
     aperfDelta d' = raw actualFrequencyClockCountLocation ∧
     timeStampCounterDelta d' = raw timestampCounterLocation) ∧
    (∀ cores log, newMsrServiceWithFs fs cores = Some (log, m) →
                  d = newMsrData).
Proof.
  intros Hsch Hrun.
  destruct (openAndReadMsr_success_inv fs sch m core m' Hsch Hrun)
    as (rd & raw & d & _ & Hop & Hraw & Hd & ->).
  exists rd, raw, d, (refreshed raw d). simpl.
  split; [done|]. split; [done|]. split; [done|].
  split; [by rewrite lookup_insert_eq|].
  split; [done|]. split; [done|]. split.
  - intros -> Hrange. simpl. rewrite !Z.sub_0_r.
    repeat split; apply Z.mod_small; apply Hrange; in_offsets.
  - intros cores log Hnew.
    by apply (newMsrServiceWithFs_fresh fs cores log m core d).
Qed.

Lemma refresh_deltas_are_modular_witness :
  ∃ m' d',
    openAndReadMsr (tableFs regsOk twoCpus) inOrder store1 "0" =
      (Returned None, m') ∧
    cpuCoresData m' !! "0" = Some d' ∧
    c3Delta d' = 0x3FC ∧ timeStampCounterDelta d' = 0x10.
Proof.
  set (fs := tableFs regsOk twoCpus).
  set (m' := snd (openAndReadMsr fs inOrder store1 "0")).
  assert (Hrun : openAndReadMsr fs inOrder store1 "0" = (Returned None, m'))
    by reflexivity.
  destruct (refresh_deltas_are_modular fs inOrder store1 m' "0"
              validSchedule_inOrder Hrun)
    as (rd & raw & d & d' & _ & _ & _ & Hd' & _).
  exists m', d'. split; [exact Hrun|]. split; [exact Hd'|].
  vm_compute in Hd'. injection Hd' as <-. split; reflexivity.
Defined.

Lemma land_shiftr_testbit (v k i : Z) :
  0 ≤ k → 0 ≤ i →
  Z.testbit (Z.land (Z.shiftr v 16) (Z.ones k)) i =
    (i <? k) && Z.testbit v (i + 16).
Proof.
  intros Hk Hi.
  rewrite Z.land_spec, Z.shiftr_spec by lia.
  rewrite Z.testbit_ones_nonneg by lia.
  destruct (Z.ltb_spec i k); simpl.
  - by rewrite andb_true_r.
  - by rewrite andb_false_r.
Qed.

(** C8: a successful refresh stores bits 23:16 of the raw value read at the
    throttle-temperature offset, [(v >> 16) & 0xFF], and bits 22:16 of the raw
    value read at the temperature offset, [(v >> 16) & 0x7F]; both are
    functions of the fresh raw value alone (the sample has delta fields for
    the six counters only), and raw value 0x00AB1234 gives throttle
    temperature 0xAB. *)
Theorem refresh_temperature_fields
    (fs : fileService) (sch : schedule) (m m' : msrServiceImpl)
    (core : string) :
  validSchedule sch →
  openAndReadMsr fs sch m core = (Returned None, m') →
  ∃ (rd : reader fs) (raw : Z → Z) d',
    osOpen fs (msrPath core) = inr rd ∧
    (∀ off, off ∈ msrOffsets →
            readFileAtOffsetToUint64 fs rd off = inr (raw off)) ∧
    cpuCoresData m' !! core = Some d' ∧
    throttleTemp d' =
      Z.land (Z.shiftr (raw throttleTemperatureLocation) 16) 0xFF ∧
    temp d' = Z.land (Z.shiftr (raw temperatureLocation) 16) 0x7F ∧
    (∀ i, 0 ≤ i →
          Z.testbit (throttleTemp d') i =
            (i <? 8) && Z.testbit (raw throttleTemperatureLocation) (i + 16)) ∧
    (∀ i, 0 ≤ i →
          Z.testbit (temp d') i =
            (i <? 7) && Z.testbit (raw temperatureLocation) (i + 16)) ∧
    (raw throttleTemperatureLocation = 0x00AB1234 → throttleTemp d' = 0xAB).
Proof.
  intros Hsch Hrun.
  destruct (openAndReadMsr_success_inv fs sch m core m' Hsch Hrun)
    as (rd & raw & d & _ & Hop & Hraw & Hd & ->).
  exists rd, raw, (refreshed raw d). simpl.
  split; [done|]. split; [done|].
  split; [by rewrite lookup_insert_eq|].
  split; [done|]. split; [done|]. split; [|split].
  - intros i Hi. change 0xFF with (Z.ones 8).
    by apply land_shiftr_testbit.
  - intros i Hi. change 0x7F with (Z.ones 7).
    by apply land_shiftr_testbit.
  - by intros ->.
Qed.

Lemma refresh_temperature_fields_witness :
  ∃ m' d',
    openAndReadMsr (tableFs regsTemps twoCpus) inOrder store1 "0" =
      (Returned None, m') ∧
    cpuCoresData m' !! "0" = Some d' ∧
    throttleTemp d' = 0xAB ∧ temp d' = 0x7F.
Proof.
  set (fs := tableFs regsTemps twoCpus).
  set (m' := snd (openAndReadMsr fs inOrder store1 "0")).
  assert (Hrun : openAndReadMsr fs inOrder store1 "0" = (Returned None, m'))
    by reflexivity.
  destruct (refresh_temperature_fields fs inOrder store1 m' "0"
              validSchedule_inOrder Hrun)
    as (rd & raw & d' & _ & _ & Hd' & _).
  exists m', d'. split; [exact Hrun|]. split; [exact Hd'|].
  vm_compute in Hd'. injection Hd' as <-. split; reflexivity.
Defined.

(** A refresh for a core that is not a key of the store, with a readable
    register source: the nil [*msrData] is dereferenced. *)
Lemma openAndReadMsr_unknown_core fs sch m core :
  validSchedule sch →
  cpuCoresData m !! core = None →
  readable fs core = true →
  openAndReadMsr fs sch m core = (Panicked, m).
Proof.
  intros Hsch Hnone. unfold readable, openAndReadMsr.
  destruct (checkFile fs (msrPath core)); [done|].
  destruct (osOpen fs (msrPath core)) as [e|rd]; [done|].
  intros Hall. rewrite forallb_forall in Hall.
  set (raw := fun off => match readFileAtOffsetToUint64 fs rd off with
                         | inr v => v
                         | inl _ => 0
                         end).
  rewrite (readDataFromMsr_ok fs sch m core rd raw Hsch).
  - by rewrite Hnone.
  - intros off Hoff. apply list_elem_of_In in Hoff.
    specialize (Hall off Hoff). unfold raw.
    by destruct (readFileAtOffsetToUint64 fs rd off).
Qed.

(** C4, at the failing input: the store holds core "0" only, the register
    file of core "1" passes [checkFile], opens and reads at all eight
    offsets, and the refresh of core "1" does not return: it panics. *)
Theorem openAndReadMsr_panics_on_unknown_core :
  cpuCoresData store1 !! "1" = None ∧
  readable (tableFs regsOk twoCpus) "1" = true ∧
  openAndReadMsr (tableFs regsOk twoCpus) inOrder store1 "1" =
    (Panicked, store1).
Proof. repeat split; reflexivity. Qed.

(** ** The availability probe *)

Lemma forallb_false_ex {A} (f : A → bool) (l : list A) :
  forallb f l = false → ∃ x, x ∈ l ∧ f x = false.
Proof.
  induction l as [|a l IH]; simpl; [done|].
  destruct (f a) eqn:Hfa; simpl.
  - intros (x & ? & ?)%IH. exists x. split; [by right|done].
  - intros _. exists a. split; [left|done].
Qed.

(** On a core of the store, a refresh succeeds exactly when the register
    source of the core is readable; when it is not, the refresh returns an
    error. *)
Lemma openAndReadMsr_readable fs sch m core :
  validSchedule sch →
  is_Some (cpuCoresData m !! core) →
  if readable fs core
  then ∃ m', openAndReadMsr fs sch m core = (Returned None, m')
  else ∃ e, openAndReadMsr fs sch m core = (Returned (Some e), m).
Proof.
  intros Hsch [d Hd]. unfold readable, openAndReadMsr.
  destruct (checkFile fs (msrPath core)) as [e|]; [by eexists|].
  destruct (osOpen fs (msrPath core)) as [e|rd]; [by eexists|].
  destruct (forallb _ msrOffsets) eqn:Hall.
  - rewrite forallb_forall in Hall.
    set (raw := fun off => match readFileAtOffsetToUint64 fs rd off with
                           | inr v => v
                           | inl _ => 0
                           end).
    rewrite (readDataFromMsr_ok fs sch m core rd raw Hsch).
    + rewrite Hd. by eexists.
    + intros off Hoff. apply list_elem_of_In in Hoff.
      specialize (Hall off Hoff). unfold raw.
      by destruct (readFileAtOffsetToUint64 fs rd off).
  - apply forallb_false_ex in Hall as (off & Hoff & Hfail).
    destruct (readFileAtOffsetToUint64 fs rd off) as [e|v] eqn:Hrd; [|done].
    destruct (readDataFromMsr_error fs sch m core rd off e Hsch Hoff Hrd)
      as (? & ? & ? & ? & ->).
    by eexists.
Qed.

Lemma isMsrLoadedLoop_spec fs sch order m :
  (∀ c, c ∈ order → validSchedule (sch c)) →
  (∀ c, c ∈ order → is_Some (cpuCoresData m !! c)) →
  ∃ m', isMsrLoadedLoop fs sch order m =
          (Returned (existsb (readable fs) order), m') ∧
        (existsb (readable fs) order = false → m' = m) ∧
        (∀ pre c post,
           order = pre ++ c :: post →
           (∀ p, p ∈ pre → readable fs p = false) →
           readable fs c = true →
           m' = snd (openAndReadMsr fs (sch c) m c)).
Proof.
  induction order as [|c0 rest IH]; intros Hsch Hkeys.
  - exists m. split; [done|]. split; [done|].
    intros pre c post Heq. by destruct pre.
  - simpl.
    pose proof (openAndReadMsr_readable fs (sch c0) m c0
                  (Hsch c0 ltac:(left)) (Hkeys c0 ltac:(left))) as Hc0.
    destruct (readable fs c0) eqn:Hr0.
    + destruct Hc0 as [m' Hrun]. rewrite Hrun. exists m'.
      split; [done|]. split; [done|].
      intros pre c post Heq Hpre Hc.
      destruct pre as [|p pre]; simpl in Heq.
      * injection Heq as <- <-. by rewrite Hrun.
      * injection Heq as <- ->. rewrite Hpre in Hr0 by left. done.
    + destruct Hc0 as [e Hrun]. rewrite Hrun. simpl.
      destruct IH as (m' & Hloop & Hnone & Hfirst).
      { intros c Hc. apply Hsch. by right. }
      { intros c Hc. apply Hkeys. by right. }
      exists m'. split; [done|]. split; [done|].
      intros pre c post Heq Hpre Hc.
      destruct pre as [|p pre]; simpl in Heq.
      * injection Heq as <- <-. congruence.
      * injection Heq as <- ->. apply (Hfirst pre c post eq_refl); [|done].
        intros q Hq. apply Hpre. by right.
Qed.

(** C9: [isMsrLoaded] always returns a boolean (no error of a core gets
    out); it is [true] exactly when some core of the store has a register
    source that is openable and readable; with none (or with an empty store)
    it is [false] and the store is untouched; and it stops at the first core,
    in the order of the iteration, whose refresh succeeds. *)
Theorem isMsrLoaded_any_core_readable
    (fs : fileService) (sch : string → schedule) (order : list string)
    (m : msrServiceImpl) :
  (∀ c, validSchedule (sch c)) →
  (∀ c, c ∈ order ↔ is_Some (cpuCoresData m !! c)) →
  ∃ b m',
    isMsrLoaded fs sch order m = (Returned b, m') ∧
    (b = true ↔
     ∃ c, is_Some (cpuCoresData m !! c) ∧ readable fs c = true) ∧
    (b = false → m' = m) ∧
    (∀ pre c post,
       order = pre ++ c :: post →
       (∀ p, p ∈ pre → readable fs p = false) →
       readable fs c = true →
       b = true ∧ openAndReadMsr fs (sch c) m c = (Returned None, m')).
Proof.
  intros Hsch Hkeys. unfold isMsrLoaded.
  destruct (isMsrLoadedLoop_spec fs sch order m) as (m' & Hrun & Hnone & Hfirst).
  { intros c _. apply Hsch. }
  { intros c Hc. by apply Hkeys. }
  exists (existsb (readable fs) order), m'.
  split; [done|]. split; [|split; [done|]].
  - rewrite existsb_exists. split.
    + intros (c & Hc & Hr). exists c. split; [|done].
      apply Hkeys. by apply list_elem_of_In.
    + intros (c & Hc & Hr). exists c. split; [|done].
      apply list_elem_of_In. by apply Hkeys.
  - intros pre c post Heq Hpre Hc. split.
    + apply existsb_exists. exists c. split; [|done].
      apply list_elem_of_In. rewrite Heq. apply elem_of_app. right. left.
    + rewrite (Hfirst pre c post Heq Hpre Hc).
      pose proof (openAndReadMsr_readable fs (sch c) m c (Hsch c)) as Hc'.
      rewrite Hc in Hc'. destruct Hc' as [m'' ->]; [|done].
      apply Hkeys. rewrite Heq. apply elem_of_app. right. left.
Qed.

Lemma isMsrLoaded_any_core_readable_witness :
  ∃ b m',
    isMsrLoaded (tableFs regsOk twoCpus) (λ _, inOrder) ["0"] store1 =
      (Returned b, m') ∧
    b = true.
Proof.
  destruct (isMsrLoaded_any_core_readable (tableFs regsOk twoCpus)
              (λ _, inOrder) ["0"] store1) as (b & m' & Hrun & Hb & _).
  - intros _. exact validSchedule_inOrder.
  - intros c. unfold store1. simpl. rewrite list_elem_of_singleton.
    split.
    + intros ->. by rewrite lookup_singleton_eq.
    + intros [d Hd]. apply lookup_singleton_Some in Hd. by destruct Hd.
  - exists b, m'. split; [exact Hrun|].
    apply Hb. exists "0". split; [|reflexivity].
    unfold store1. simpl. by rewrite lookup_singleton_eq.
Defined.

(** ** The identifier parser *)

Lemma len_append {A} (s : slice A) (x : A) : len (append s x) = len s + 1.
Proof. unfold len, append. simpl. rewrite length_app. simpl. lia. Qed.

Lemma len_nonneg {A} (s : slice A) : 0 ≤ len s.
Proof. unfold len. lia. Qed.

Lemma maxIDsSize_eq : maxIDsSize = 8192.
Proof. reflexivity. Qed.

(** The loop over a range returns within [maxIDsSize + 1 - len result]
    iterations, with [result] extended or with the size error. *)
Lemma rangeLoop_total fuel start end_ (result : slice Z) :
  len result ≤ maxIDsSize →
  maxIDsSize < Z.of_nat fuel + len result →
  (∃ result' l, rangeLoop fuel start end_ result = Some (inr result') ∧
                elems result' = elems result ++ l ∧
                len result' ≤ maxIDsSize) ∨
  rangeLoop fuel start end_ result = Some (inl ErrMaxSize).
Proof.
  revert start result.
  induction fuel as [|fuel IH]; intros start result Hlen Hfuel; [lia|].
  simpl. destruct (start <=? end_).
  - rewrite Z.gtb_ltb. destruct (Z.ltb_spec maxIDsSize (len result + 1));
      [by right|].
    destruct (IH (wrapU64 (start + 1)) (append result (wrapI64 start)))
      as [(result' & l & Hrun & Hel & Hle)|Hrun].
    + rewrite len_append. lia.
    + rewrite len_append. lia.
    + left. exists result', (wrapI64 start :: l).
      split; [done|]. split; [|done].
      rewrite Hel. simpl. by rewrite <- app_assoc.
    + by right.
  - left. exists result, []. by rewrite app_nil_r.
Qed.

Lemma loopFuel_enough (result : slice Z) :
  maxIDsSize < Z.of_nat loopFuel + len result.
Proof.
  unfold loopFuel. pose proof (len_nonneg result).
  rewrite maxIDsSize_eq in *. lia.
Qed.

(** One field: the parse of it returns, and either extends the result,
    within the size limit, or fails. *)
Lemma parseID_total (result : slice Z) (field : string) :
  len result ≤ maxIDsSize →
  (∃ result' l, parseID result field = Some (inr result') ∧
                elems result' = elems result ++ l ∧
                len result' ≤ maxIDsSize) ∨
  (∃ e, parseID result field = Some (inl e)).
Proof.
  intros Hlen. unfold parseID.
  destruct (Sscanf (TrimSpace field)) as [[start end_]|].
  - destruct (start >=? end_); [right; by eexists|].
    destruct (rangeLoop_total loopFuel start end_ result Hlen
                (loopFuel_enough result)) as [?|Hrun]; [by left|].
    right. by eexists.
  - destruct (Atoi (TrimSpace field)) as [num [err|]]; [right; by eexists|].
    rewrite Z.gtb_ltb. destruct (Z.ltb_spec maxIDsSize (len result + 1));
      [right; by eexists|].
    left. exists (append result num), [num].
    split; [done|]. split; [done|]. rewrite len_append. lia.
Qed.

Lemma parseFields_total (fs : list string) (result : slice Z) :
  len result ≤ maxIDsSize →
  (∃ result' l, parseFields fs result = Some (inr result') ∧
                elems result' = elems result ++ l ∧
                len result' ≤ maxIDsSize) ∨
  (∃ e, parseFields fs result = Some (inl e)).
Proof.
  revert result. induction fs as [|f rest IH]; intros result Hlen.
  - left. exists result, []. by rewrite app_nil_r.
  - simpl.
    destruct (parseID_total result f Hlen)
      as [(r1 & l1 & -> & Hel1 & Hle1)|[e ->]]; [|right; by eexists].
    destruct (IH r1 Hle1) as [(r2 & l2 & Hrun & Hel2 & Hle2)|?]; [|by right].
    left. exists r2, (l1 ++ l2). split; [done|]. split; [|done].
    by rewrite Hel2, Hel1, <- app_assoc.
Qed.

Lemma parseFields_app (fs1 fs2 : list string) (result : slice Z) :
  parseFields (fs1 ++ fs2) result =
    match parseFields fs1 result with
    | Some (inr result') => parseFields fs2 result'
    | stop => stop
    end.
Proof.
  revert result. induction fs1 as [|f rest IH]; intros result; [done|].
  simpl. destruct (parseID result f) as [[e|r]|]; [done| |done].
  apply IH.
Qed.

(** The two nested loops of [parseIDs] visit the fields of all the
    specifications in one sequence. *)
Lemma parseSpecs_fields (allIDsStrings : list string) (result : slice Z) :
  parseSpecs allIDsStrings result = parseFields (fields allIDsStrings) result.
Proof.
  revert result. induction allIDsStrings as [|s rest IH]; intros result;
    [done|].
  unfold fields in *. simpl. rewrite parseFields_app.
  destruct (parseFields (Split s) result) as [[e|r]|]; [done| |done].
  apply IH.
Qed.

Lemma parseIDs_fields (allIDsStrings : list string) :
  parseIDs allIDsStrings = parseFields (fields allIDsStrings) None.
Proof. apply parseSpecs_fields. Qed.

(** [parseIDs] always returns: the fuel of the range loop is never used
    up. *)
Lemma parseIDs_total (allIDsStrings : list string) :
  ∃ r, parseIDs allIDsStrings = Some r.
Proof.
  rewrite parseIDs_fields.
  destruct (parseFields_total (fields allIDsStrings) None)
    as [(r & l & -> & _)|[e ->]]; [done|by eexists|by eexists].
Qed.

Lemma isDigit_digitVal (c : ascii) :
  isDigit c = true → 0 ≤ digitVal c ≤ 9.
Proof.
  unfold isDigit, digitVal. intros [H1 H2]%andb_prop.
  apply Z.leb_le in H1, H2. lia.
Qed.

Lemma ParseUintLoop_bounds (s : string) (n v : Z) :
  0 ≤ n ≤ maxUint →
  ParseUintLoop n s = inr v →
  0 ≤ v ≤ maxUint.
Proof.
  revert n. induction s as [|c rest IH]; intros n Hn; simpl.
  - intros [= <-]. done.
  - destruct (isDigit c) eqn:Hc; simpl; [|done].
    destruct (Z.ltb_spec maxUint (n * 10 + digitVal c)); [done|].
    apply IH. apply isDigit_digitVal in Hc. lia.
Qed.

Lemma scanUint_bounds (s : string) (v : Z) (tl : string) :
  scanUint s = Some (v, tl) → 0 ≤ v ≤ maxUint.
Proof.
  unfold scanUint. destruct (SkipSpace s) as [s1|]; [|done].
  destruct (scanNumber s1) as [tok tl'].
  destruct (ParseUint tok) as [e|n] eqn:Hp; [done|].
  intros [= <- <-]. unfold ParseUint in Hp. destruct tok; [done|].
  apply (ParseUintLoop_bounds _ 0 n) in Hp; [done|].
  unfold maxUint. lia.
Qed.

(** The two numbers of a range token are [uint]s. *)
Lemma Sscanf_bounds (id : string) (a b : Z) :
  Sscanf id = Some (a, b) → 0 ≤ a ≤ maxUint ∧ 0 ≤ b ≤ maxUint.
Proof.
  unfold Sscanf.
  destruct (scanUint id) as [[start [|c rest]]|] eqn:Ha; [done| |done].
  destruct (Ascii.eqb c minus); [|done].
  destruct (scanUint rest) as [[end_ tl]|] eqn:Hb; [|done].
  intros [= <- <-].
  split; eapply scanUint_bounds; eassumption.
Qed.

(** The range loop on a range that stays within [int]: [k] IDs are left to
    append, [start], [start + 1], ... *)
Lemma rangeLoop_run (k : nat) (fuel : nat) (start : Z) (result : slice Z) :
  0 ≤ start →
  start + Z.of_nat k - 1 ≤ maxInt →
  len result + Z.of_nat k ≤ maxIDsSize →
  (k < fuel)%nat →
  rangeLoop fuel start (start + Z.of_nat k - 1) result =
    Some (inr (match k with
               | O => result
               | S _ => Some (elems result ++ seqZ start (Z.of_nat k))
               end)).
Proof.
  revert fuel start result.
  induction k as [|k IH]; intros fuel start result Hs He Hlen Hfuel.
  - destruct fuel as [|fuel]; [lia|]. simpl.
    destruct (Z.leb_spec start (start + Z.of_nat 0 - 1)); [lia|done].
  - destruct fuel as [|fuel]; [lia|]. simpl.
    destruct (Z.leb_spec start (start + Z.of_nat (S k) - 1)); [|lia].
    rewrite Z.gtb_ltb.
    destruct (Z.ltb_spec maxIDsSize (len result + 1)); [lia|].
    assert (Hw : wrapU64 (start + 1) = start + 1).
    { unfold wrapU64. apply Z.mod_small. unfold maxInt in He. lia. }
    assert (Hi : wrapI64 start = start).
    { apply wrapI64_small. unfold maxInt in He. lia. }
    rewrite Hw, Hi.
    replace (start + Z.of_nat (S k) - 1) with (start + 1 + Z.of_nat k - 1) by lia.
    rewrite IH; [|lia|lia|rewrite len_append; lia|lia].
    f_equal. f_equal.
    replace (Z.of_nat (S k)) with (Z.succ (Z.of_nat k)) by lia.
    rewrite (seqZ_cons start) by lia.
    replace (Z.pred (Z.succ (Z.of_nat k))) with (Z.of_nat k) by lia.
    replace (Z.succ start) with (start + 1) by lia.
    destruct k as [|k]; simpl.
    + done.
    + by rewrite <- app_assoc.
Qed.

(** The range loop when the IDs left to append do not fit below the
    ceiling. *)
Lemma rangeLoop_overflow (k : nat) (fuel : nat) (start : Z) (result : slice Z) :
  0 ≤ start →
  start + Z.of_nat k - 1 ≤ maxInt →
  len result ≤ maxIDsSize →
  maxIDsSize < len result + Z.of_nat k →
  maxIDsSize < Z.of_nat fuel + len result →
  rangeLoop fuel start (start + Z.of_nat k - 1) result = Some (inl ErrMaxSize).
Proof.
  revert fuel start result.
  induction k as [|k IH]; intros fuel start result Hs He Hlen Hover Hfuel;
    [lia|].
  destruct fuel as [|fuel]; [lia|]. simpl.
  destruct (Z.leb_spec start (start + Z.of_nat (S k) - 1)); [|lia].
  rewrite Z.gtb_ltb.
  destruct (Z.ltb_spec maxIDsSize (len result + 1)); [done|].
  assert (Hw : wrapU64 (start + 1) = start + 1).
  { unfold wrapU64. apply Z.mod_small. unfold maxInt in He. lia. }
  rewrite Hw.
  replace (start + Z.of_nat (S k) - 1) with (start + 1 + Z.of_nat k - 1) by lia.
  apply IH; rewrite ?len_append; lia.
Qed.

(** A valid field, parsed after [result]: its IDs are appended when they fit
    below the ceiling, and the parse fails with the size error when they do
    not. *)
Lemma parseID_expand (result : slice Z) (field : string) (l : list Z) :
  expandID field = Some l →
  len result ≤ maxIDsSize →
  l ≠ [] ∧
  (len result + Z.of_nat (length l) ≤ maxIDsSize →
   parseID result field = Some (inr (Some (elems result ++ l)))) ∧
  (maxIDsSize < len result + Z.of_nat (length l) →
   parseID result field = Some (inl ErrMaxSize)).
Proof.
  unfold expandID, parseID. intros Hexp Hlen.
  destruct (Sscanf (TrimSpace field)) as [[a b]|] eqn:Hscan.
  - destruct (Z.ltb_spec a b) as [Hab|]; [|done].
    destruct (Z.leb_spec b maxInt) as [Hb|]; [|done].
    simpl in Hexp. injection Hexp as <-.
    apply Sscanf_bounds in Hscan as [Ha _].
    rewrite Z.geb_leb. destruct (Z.leb_spec b a); [lia|].
    rewrite length_seqZ.
    set (k := Z.to_nat (b - a + 1)).
    assert (Hk : Z.of_nat k = b - a + 1) by (unfold k; lia).
    assert (Hb' : a + Z.of_nat k - 1 = b) by lia.
    split; [|split].
    + intros Hnil. apply (f_equal length) in Hnil.
      rewrite length_seqZ in Hnil. simpl in Hnil. lia.
    + intros Hfit.
      pose proof (rangeLoop_run k loopFuel a result) as Hrun.
      rewrite Hb', Hk in Hrun. rewrite Hrun; try lia.
      * destruct k; [lia|done].
      * unfold loopFuel. rewrite maxIDsSize_eq in *.
        pose proof (len_nonneg result). lia.
    + intros Hover.
      pose proof (rangeLoop_overflow k loopFuel a result) as Hrun.
      rewrite Hb' in Hrun. apply Hrun; try lia.
      apply loopFuel_enough.
  - destruct (Atoi (TrimSpace field)) as [num [err|]]; [done|].
    injection Hexp as <-. simpl. rewrite Z.gtb_ltb.
    split; [done|]. split; intros H.
    + destruct (Z.ltb_spec maxIDsSize (len result + 1)); [lia|done].
    + destruct (Z.ltb_spec maxIDsSize (len result + 1)); [done|lia].
Qed.

Lemma len_Some (l : list Z) : len (Some l) = Z.of_nat (length l).
Proof. done. Qed.

(** A list of valid fields, parsed after [result]: the expansion is
    appended when it fits below the ceiling, and the parse fails with the
    size error when it does not. *)
Lemma parseFields_expand (fs : list string) (result : slice Z) (all : list Z) :
  expandAll fs = Some all →
  len result ≤ maxIDsSize →
  (len result + Z.of_nat (length all) ≤ maxIDsSize →
   parseFields fs result =
     Some (inr (match fs with
                | [] => result
                | _ :: _ => Some (elems result ++ all)
                end))) ∧
  (maxIDsSize < len result + Z.of_nat (length all) →
   parseFields fs result = Some (inl ErrMaxSize)).
Proof.
  revert result all.
  induction fs as [|f rest IH]; intros result all Hexp Hlen; simpl in *.
  - injection Hexp as <-. simpl. split; [done|lia].
  - destruct (expandID f) as [l|] eqn:Hf; [|done].
    destruct (expandAll rest) as [ls|] eqn:Hrest; [|done].
    injection Hexp as <-. rewrite length_app.
    destruct (parseID_expand result f l Hf Hlen) as (Hne & Hfit & Hover).
    destruct (Z.le_gt_cases (len result + Z.of_nat (length l)) maxIDsSize)
      as [Hl|Hl].
    + rewrite (Hfit Hl).
      destruct (IH (Some (elems result ++ l)) ls eq_refl) as [IHfit IHover].
      { rewrite len_Some, length_app. unfold len in Hl. lia. }
      rewrite len_Some, length_app in IHfit, IHover. unfold len in *.
      split; intros H.
      * rewrite IHfit by lia. simpl. destruct rest; simpl in *.
        -- injection Hrest as <-. by rewrite app_nil_r.
        -- by rewrite <- app_assoc.
      * apply IHover. lia.
    + split; intros H; [lia|]. by rewrite (Hover Hl).
Qed.

Lemma expandAll_app (fs1 fs2 : list string) :
  expandAll (fs1 ++ fs2) =
    match expandAll fs1, expandAll fs2 with
    | Some l1, Some l2 => Some (l1 ++ l2)
    | _, _ => None
    end.
Proof.
  induction fs1 as [|f rest IH]; simpl.
  - by destruct (expandAll fs2).
  - rewrite IH. destruct (expandID f) as [l|]; [|done].
    destruct (expandAll rest) as [l1|]; [|done].
    destruct (expandAll fs2) as [l2|]; [|done].
    by rewrite <- app_assoc.
Qed.

(** The fields before a given one parse to their expansion. *)
Lemma parseFields_prefix (pre : list string) (lpre : list Z) :
  expandAll pre = Some lpre →
  Z.of_nat (length lpre) ≤ maxIDsSize →
  ∃ r, parseFields pre None = Some (inr r) ∧ elems r = lpre ∧
       len r ≤ maxIDsSize.
Proof.
  intros Hexp Hlen.
  destruct (parseFields_expand pre None lpre Hexp) as [Hfit _].
  { rewrite maxIDsSize_eq. done. }
  rewrite Hfit by done.
  destruct pre; simpl in *.
  - injection Hexp as <-. by exists None.
  - by exists (Some lpre).
Qed.

(** A field that fails stops the parse, whatever comes before and after
    it. *)
Lemma parseFields_failing_field (pre post : list string) (f : string) :
  (∀ r, ∃ e, parseID r f = Some (inl e)) →
  ∃ e, parseFields (pre ++ f :: post) None = Some (inl e).
Proof.
  intros Hf. rewrite parseFields_app.
  destruct (parseFields_total pre None) as [(r & l & -> & _)|[e ->]].
  - rewrite maxIDsSize_eq. done.
  - simpl. destruct (Hf r) as [e ->]. by eexists.
  - by eexists.
Qed.

(** C3 (amended): for a field that [Sscanf] reads as the range [a-b]: if
    [a < b] with [b] within [int], the other fields are valid and the whole
    expansion stays within the ceiling of 8192 IDs, [parseIDs] succeeds and
    its result is the expansion of the fields before, then every integer of
    [a, b] in increasing order, then the expansion of the fields after; if
    [a >= b] the parse fails without a result, and the error is the
    FormatError of this range when the fields before it are valid and within
    the ceiling. *)
Theorem parseIDs_range_token
    (allIDsStrings pre post : list string) (f : string) (a b : Z) :
  fields allIDsStrings = pre ++ f :: post →
  Sscanf (TrimSpace f) = Some (a, b) →
  (a < b → b ≤ maxInt →
   ∀ lpre lpost,
     expandAll pre = Some lpre →
     expandAll post = Some lpost →
     Z.of_nat (length lpre) + (b - a + 1) + Z.of_nat (length lpost)
       ≤ maxIDsSize →
     parseIDs allIDsStrings =
       Some (inr (Some (lpre ++ seqZ a (b - a + 1) ++ lpost))) ∧
     ∀ x, a ≤ x ≤ b → x ∈ lpre ++ seqZ a (b - a + 1) ++ lpost) ∧
  (b ≤ a →
   (∃ e, parseIDs allIDsStrings = Some (inl e)) ∧
   ∀ lpre,
     expandAll pre = Some lpre →
     Z.of_nat (length lpre) ≤ maxIDsSize →
     parseIDs allIDsStrings = Some (inl (ErrEqualOrGreater a b)) ∧
     isFormatError (ErrEqualOrGreater a b) = true).
Proof.
  intros Hfields Hscan. rewrite parseIDs_fields, Hfields. split.
  - intros Hab Hb lpre lpost Hpre Hpost Hfit.
    assert (Hf : expandID f = Some (seqZ a (b - a + 1))).
    { unfold expandID. rewrite Hscan.
      destruct (Z.ltb_spec a b); [|lia].
      destruct (Z.leb_spec b maxInt); [done|lia]. }
    assert (Hall : expandAll (pre ++ f :: post) =
                   Some (lpre ++ seqZ a (b - a + 1) ++ lpost)).
    { rewrite expandAll_app, Hpre. simpl. by rewrite Hf, Hpost. }
    destruct (parseFields_expand _ None _ Hall) as [Hrun _].
    { rewrite maxIDsSize_eq. done. }
    split.
    + rewrite Hrun.
      * by destruct pre.
      * rewrite !length_app, length_seqZ. unfold len. simpl. lia.
    + intros x Hx. rewrite !elem_of_app. right. left.
      apply elem_of_seqZ. lia.
  - intros Hba.
    assert (Hf : ∀ r, parseID r f = Some (inl (ErrEqualOrGreater a b))).
    { intros r. unfold parseID. rewrite Hscan, Z.geb_leb.
      destruct (Z.leb_spec b a); [done|lia]. }
    split.
    + apply parseFields_failing_field. intros r. rewrite Hf. by eexists.
    + intros lpre Hpre Hlen. split; [|done].
      destruct (parseFields_prefix pre lpre Hpre Hlen) as (r & Hr & _).
      rewrite parseFields_app, Hr. simpl. by rewrite Hf.
Qed.

(** The claim as the specification words it fails on a range that is too
    long: ["0-8192"] is a range token with [0 < 8192], and the parse does not
    succeed. *)
Lemma parseIDs_range_token_over_ceiling :
  fields ["0-8192"] = [] ++ "0-8192" :: [] ∧
  Sscanf (TrimSpace "0-8192") = Some (0, 8192) ∧
  0 < 8192 ∧
  parseIDs ["0-8192"] = Some (inl ErrMaxSize).
Proof.
  split; [reflexivity|]. split; [reflexivity|]. split; [lia|].
  vm_compute. reflexivity.
Qed.

Lemma parseIDs_range_token_witness :
  parseIDs ["0, 2-4"; "7"] = Some (inr (Some [0; 2; 3; 4; 7])) ∧
  parseIDs ["1,5-5"] = Some (inl (ErrEqualOrGreater 5 5)) ∧
  parseIDs ["1,9-3"] = Some (inl (ErrEqualOrGreater 9 3)).
Proof.
  split; [|split].
  - destruct (parseIDs_range_token ["0, 2-4"; "7"] ["0"] ["7"] " 2-4" 2 4
                eq_refl eq_refl) as [Hlt _].
    assert (H24 : 2 < 4) by lia.
    assert (H4 : 4 ≤ maxInt) by (vm_compute; discriminate).
    assert (Hfit : Z.of_nat (length [0]) + (4 - 2 + 1) + Z.of_nat (length [7])
                   ≤ maxIDsSize) by (vm_compute; discriminate).
    destruct (Hlt H24 H4 [0] [7] eq_refl eq_refl Hfit) as [Hrun _].
    exact Hrun.
  - destruct (parseIDs_range_token ["1,5-5"] ["1"] [] "5-5" 5 5
                eq_refl eq_refl) as [_ Hge].
    assert (H55 : 5 ≤ 5) by lia.
    assert (Hfit : Z.of_nat (length [1]) ≤ maxIDsSize)
      by (vm_compute; discriminate).
    destruct (Hge H55) as [_ Hfirst].
    destruct (Hfirst [1] eq_refl Hfit) as [Hrun _]. exact Hrun.
  - destruct (parseIDs_range_token ["1,9-3"] ["1"] [] "9-3" 9 3
                eq_refl eq_refl) as [_ Hge].
    assert (H39 : 3 ≤ 9) by lia.
    assert (Hfit : Z.of_nat (length [1]) ≤ maxIDsSize)
      by (vm_compute; discriminate).
    destruct (Hge H39) as [_ Hfirst].
    destruct (Hfirst [1] eq_refl Hfit) as [Hrun _]. exact Hrun.
Defined.

(** The ceiling on lists of valid fields whose IDs are [int]s: more than
    8192 expanded IDs fail with the size error, 8192 or fewer parse to the
    expansion. *)
Lemma parseIDs_ceiling (allIDsStrings : list string) (all : list Z) :
  expandAll (fields allIDsStrings) = Some all →
  (maxIDsSize < Z.of_nat (length all) →
   parseIDs allIDsStrings = Some (inl ErrMaxSize)) ∧
  (Z.of_nat (length all) ≤ maxIDsSize →
   ∃ ids, parseIDs allIDsStrings = Some (inr ids) ∧ elems ids = all).
Proof.
  intros Hall. rewrite parseIDs_fields.
  destruct (parseFields_expand _ None _ Hall) as [Hfit Hover].
  { rewrite maxIDsSize_eq. done. }
  split.
  - intros H. by apply Hover.
  - intros H. rewrite Hfit by done.
    destruct (fields allIDsStrings); simpl in *.
    + injection Hall as <-. by exists None.
    + by eexists.
Qed.

(** C5, at the failing input: the two range tokens stand for
    8190 + 2 = 8192 IDs, and the parse fails with the size error: after
    2^64-1 the [uint] counter of the second range wraps to 0, [start <= end]
    still holds, and the loop appends until the ceiling stops it. The second
    range alone, two IDs, fails the same way. *)
Theorem parseIDs_range_to_max_uint :
  Sscanf "0-8189" = Some (0, 8189) ∧
  Sscanf "18446744073709551614-18446744073709551615" =
    Some (2 ^ 64 - 2, 2 ^ 64 - 1) ∧
  (8189 - 0 + 1) + ((2 ^ 64 - 1) - (2 ^ 64 - 2) + 1) = maxIDsSize ∧
  parseIDs ["0-8189"; "18446744073709551614-18446744073709551615"] =
    Some (inl ErrMaxSize) ∧
  parseIDs ["18446744073709551614-18446744073709551615"] =
    Some (inl ErrMaxSize) ∧
  isCapacityError ErrMaxSize = true.
Proof.
  split; [vm_compute; reflexivity|]. split; [vm_compute; reflexivity|].
  split; [reflexivity|]. split; [vm_compute; reflexivity|].
  split; [vm_compute; reflexivity|reflexivity].
Qed.

Lemma ParseUint_nonneg (s : string) (un : Z) :
  ParseUint s = inr un → 0 ≤ un ≤ maxUint.
Proof.
  unfold ParseUint. destruct s; [done|].
  apply ParseUintLoop_bounds. unfold maxUint. lia.
Qed.

(** What [strconv.Atoi] accepts is within [int], and is negative only with a
    leading minus sign. *)
Lemma Atoi_accepts (s : string) (num : Z) :
  Atoi s = (num, None) →
  minInt ≤ num ≤ maxInt ∧ (num < 0 → ∃ rest, s = String minus rest).
Proof.
  unfold Atoi.
  destruct s as [|c rest]; [done|].
  destruct (Ascii.eqb c minus) eqn:Hminus.
  - apply Ascii.eqb_eq in Hminus as ->.
    destruct (ParseUint rest) as [[]|un] eqn:Hp; [done|done|]. simpl.
    apply ParseUint_nonneg in Hp.
    destruct (Z.ltb_spec (maxInt + 1) un); [done|].
    intros [= <-]. unfold minInt, maxInt in *. split; [lia|by eexists].
  - destruct (Ascii.eqb c plus).
    + destruct (ParseUint rest) as [[]|un] eqn:Hp; [done|done|]. simpl.
      apply ParseUint_nonneg in Hp.
      destruct (Z.ltb_spec maxInt un); [done|]. simpl.
      intros [= <-]. unfold minInt, maxInt in *. split; lia.
    + destruct (ParseUint (String c rest)) as [[]|un] eqn:Hp; [done|done|].
      simpl. apply ParseUint_nonneg in Hp.
      destruct (Z.ltb_spec maxInt un); [done|]. simpl.
      intros [= <-]. unfold minInt, maxInt in *. split; lia.
Qed.

Lemma parseFields_success_inv (pre post : list string) (f : string)
    (ids : slice Z) :
  parseFields (pre ++ f :: post) None = Some (inr ids) →
  ∃ r1 r2 l,
    parseFields pre None = Some (inr r1) ∧ len r1 ≤ maxIDsSize ∧
    parseID r1 f = Some (inr r2) ∧
    elems ids = elems r2 ++ l.
Proof.
  rewrite parseFields_app.
  destruct (parseFields_total pre None) as [(r1 & l1 & Hpre & _ & Hle1)|[e ->]];
    [by rewrite maxIDsSize_eq| |done].
  rewrite Hpre. simpl.
  destruct (parseID_total r1 f Hle1) as [(r2 & l2 & Hf & _ & Hle2)|[e ->]];
    [|done].
  rewrite Hf.
  destruct (parseFields_total post r2 Hle2) as [(r3 & l3 & -> & Hel & _)|[e ->]];
    [|done].
  intros [= <-]. by exists r1, r2, l3.
Qed.

(** A field that [Sscanf] does not read as a range: when the parse
    succeeds, the field is an integer that [strconv.Atoi] accepts, within
    [int], it is in the result, and it is negative only when written with a
    leading minus sign; when [strconv.Atoi] rejects the field the parse fails
    without a result, and the error is the FormatError naming the field when
    the fields before it are valid and within the ceiling. *)
Lemma parseIDs_single_token
    (allIDsStrings pre post : list string) (f : string) :
  fields allIDsStrings = pre ++ f :: post →
  Sscanf (TrimSpace f) = None →
  (∀ ids, parseIDs allIDsStrings = Some (inr ids) →
     ∃ num,
       Atoi (TrimSpace f) = (num, None) ∧
       minInt ≤ num ≤ maxInt ∧
       num ∈ elems ids ∧
       (num < 0 → ∃ rest, TrimSpace f = String minus rest)) ∧
  (∀ v err, Atoi (TrimSpace f) = (v, Some err) →
     (∃ e, parseIDs allIDsStrings = Some (inl e)) ∧
     ∀ lpre,
       expandAll pre = Some lpre →
       Z.of_nat (length lpre) ≤ maxIDsSize →
       parseIDs allIDsStrings =
         Some (inl (ErrWrongFormat (TrimSpace f) err)) ∧
       isFormatError (ErrWrongFormat (TrimSpace f) err) = true).
Proof.
  intros Hfields Hscan. rewrite parseIDs_fields, Hfields. split.
  - intros ids Hrun.
    apply parseFields_success_inv in Hrun
      as (r1 & r2 & l & _ & _ & Hf & Hel).
    unfold parseID in Hf. rewrite Hscan in Hf.
    destruct (Atoi (TrimSpace f)) as [num [err|]] eqn:Hatoi; [done|].
    destruct (len r1 + 1 >? maxIDsSize); [done|].
    injection Hf as <-.
    destruct (Atoi_accepts _ _ Hatoi) as [Hrange Hneg].
    exists num. split; [done|]. split; [done|]. split; [|done].
    rewrite Hel. simpl. rewrite !elem_of_app. left. right. left.
  - intros v err Hatoi.
    assert (Hf : ∀ r, parseID r f =
                      Some (inl (ErrWrongFormat (TrimSpace f) err))).
    { intros r. unfold parseID. by rewrite Hscan, Hatoi. }
    split.
    + apply parseFields_failing_field. intros r. rewrite Hf. by eexists.
    + intros lpre Hpre Hlen. split; [|done].
      destruct (parseFields_prefix pre lpre Hpre Hlen) as (r & Hr & _).
      rewrite parseFields_app, Hr. simpl. by rewrite Hf.
Qed.

(** C10, at the failing input: ["-5"] is a single token, not a range
    ([Sscanf] fails on it), it is not a non-negative integer, and the parse
    accepts it: the result holds -5. The sibling path rejects a negative
    number: the range ["-5-7"] fails with a FormatError. *)
Theorem parseIDs_accepts_negative :
  fields ["-5"] = ["-5"] ∧
  Sscanf (TrimSpace "-5") = None ∧
  Atoi (TrimSpace "-5") = (-5, None) ∧
  parseIDs ["-5"] = Some (inr (Some [-5])) ∧
  parseIDs ["-5-7"] =
    Some (inl (ErrWrongFormat "-5-7" (ErrSyntax "Atoi" "-5-7"))).
Proof. repeat split; reflexivity. Qed.

Example parseIDs_single_token_examples :
  (∃ num, Atoi (TrimSpace " 12") = (num, None) ∧ num ∈ [3; 12]) ∧
  parseIDs ["3,x7"] = Some (inl (ErrWrongFormat "x7" (ErrSyntax "Atoi" "x7"))).
Proof.
  split.
  - destruct (parseIDs_single_token ["3, 12"] ["3"] [] " 12"
                eq_refl eq_refl) as [Hok _].
    destruct (Hok (Some [3; 12]) eq_refl) as (num & Hnum & _ & Hin & _).
    exists num. split; [exact Hnum|exact Hin].
  - destruct (parseIDs_single_token ["3,x7"] ["3"] [] "x7"
                eq_refl eq_refl) as [_ Hbad].
    destruct (Hbad 0 (ErrSyntax "Atoi" "x7") eq_refl) as [_ Hfirst].
    assert (Hfit : Z.of_nat (length [3]) ≤ maxIDsSize)
      by (vm_compute; discriminate).
    destruct (Hfirst [3] eq_refl Hfit) as [Hrun _]. exact Hrun.
Defined.

(** ** Deduplication *)

Lemma firstOccurrences_elem (seen l : list Z) (x : Z) :
  x ∈ seen ++ firstOccurrences seen l ↔ x ∈ seen ∨ x ∈ l.
Proof.
  revert seen. induction l as [|y rest IH]; intros seen; simpl.
  - rewrite app_nil_r. set_solver.
  - case_bool_decide as Hy.
    + rewrite IH. set_solver.
    + replace (seen ++ y :: firstOccurrences (seen ++ [y]) rest)
        with ((seen ++ [y]) ++ firstOccurrences (seen ++ [y]) rest)
        by (by rewrite <- app_assoc).
      rewrite IH. set_solver.
Qed.

Lemma firstOccurrences_NoDup (seen l : list Z) :
  NoDup seen → NoDup (seen ++ firstOccurrences seen l).
Proof.
  revert seen. induction l as [|y rest IH]; intros seen Hseen; simpl.
  - by rewrite app_nil_r.
  - case_bool_decide as Hy.
    + by apply IH.
    + replace (seen ++ y :: firstOccurrences (seen ++ [y]) rest)
        with ((seen ++ [y]) ++ firstOccurrences (seen ++ [y]) rest)
        by (by rewrite <- app_assoc).
      apply IH. apply NoDup_app. split; [done|]. split.
      * intros z Hz ->%list_elem_of_singleton. done.
      * apply NoDup_singleton.
Qed.

(** A value that is met for the first time goes to the result, after
    exactly the values met before it. *)
Lemma firstOccurrences_first (seen pre post : list Z) (x : Z) :
  x ∉ seen → x ∉ pre →
  firstOccurrences seen (pre ++ x :: post) =
    firstOccurrences seen pre
      ++ x :: firstOccurrences (seen ++ firstOccurrences seen pre ++ [x]) post.
Proof.
  revert seen. induction pre as [|y rest IH]; intros seen Hseen Hpre; simpl.
  - by rewrite bool_decide_eq_false_2.
  - apply not_elem_of_cons in Hpre as [Hxy Hrest].
    case_bool_decide as Hy.
    + by apply IH.
    + rewrite IH; [|set_solver|done]. simpl.
      by rewrite <- !app_assoc.
Qed.

(** Every occurrence goes either to the result or to the duplicates. *)
Lemma occurrences_Permutation (seen l : list Z) :
  l ≡ₚ firstOccurrences seen l ++ laterOccurrences seen l.
Proof.
  revert seen. induction l as [|y rest IH]; intros seen; simpl; [done|].
  case_bool_decide.
  - rewrite <- Permutation_middle. by constructor.
  - simpl. by constructor.
Qed.

Lemma laterOccurrences_seen (seen l : list Z) (x : Z) :
  x ∈ laterOccurrences seen l → x ∈ seen ++ firstOccurrences seen l.
Proof.
  revert seen. induction l as [|y rest IH]; intros seen; simpl.
  - by intros ?%elem_of_nil.
  - case_bool_decide as Hy.
    + intros [->|Hx]%elem_of_cons; [set_solver|by apply IH].
    + intros Hx%IH. by rewrite <- app_assoc in Hx.
Qed.

Lemma laterOccurrences_sublist (seen l : list Z) :
  laterOccurrences seen l `sublist_of` l.
Proof.
  revert seen. induction l as [|y rest IH]; intros seen; simpl; [done|].
  case_bool_decide.
  - by apply sublist_skip.
  - by apply sublist_cons.
Qed.

Lemma firstOccurrences_sublist (seen l : list Z) :
  firstOccurrences seen l `sublist_of` l.
Proof.
  revert seen. induction l as [|y rest IH]; intros seen; simpl; [done|].
  case_bool_decide.
  - by apply sublist_cons.
  - by apply sublist_skip.
Qed.

(** The loop of [removeDuplicateValues], with [keys] holding the values of
    [result]. *)
Lemma removeDuplicateValuesLoop_spec (l : list Z) (keys : gmap Z bool)
    (result duplicates : slice Z) :
  (∀ x, is_Some (keys !! x) ↔ x ∈ elems result) →
  ∃ result' duplicates',
    removeDuplicateValuesLoop l keys result duplicates =
      (result', duplicates') ∧
    elems result' = elems result ++ firstOccurrences (elems result) l ∧
    elems duplicates' = elems duplicates ++ laterOccurrences (elems result) l.
Proof.
  revert keys result duplicates.
  induction l as [|y rest IH]; intros keys result duplicates Hkeys; simpl.
  - exists result, duplicates. by rewrite !app_nil_r.
  - destruct (keys !! y) as [v|] eqn:Hy.
    + rewrite bool_decide_eq_true_2 by (apply Hkeys; by eexists).
      destruct (IH keys result (append duplicates y) Hkeys)
        as (r' & d' & -> & Hr & Hd).
      exists r', d'. split; [done|]. split; [done|].
      rewrite Hd. simpl. by rewrite <- app_assoc.
    + rewrite bool_decide_eq_false_2
        by (intros Hin; apply Hkeys in Hin as [? ?]; congruence).
      destruct (IH (<[y:=true]> keys) (append result y) duplicates)
        as (r' & d' & -> & Hr & Hd).
      { intros x. simpl. rewrite elem_of_app, list_elem_of_singleton.
        rewrite <- Hkeys. destruct (decide (y = x)) as [->|Hne].
        - rewrite lookup_insert_eq. split; [by right|by eexists].
        - rewrite lookup_insert_ne by done. split; [by left|].
          intros [?|?]; [done|congruence]. }
      exists r', d'. split; [done|]. split; [|done].
      rewrite Hr. simpl. by rewrite <- app_assoc.
Qed.

Lemma removeDuplicateValues_spec (intSlice : slice Z) :
  ∃ result duplicates,
    removeDuplicateValues intSlice = (result, duplicates) ∧
    elems result = firstOccurrences [] (elems intSlice) ∧
    elems duplicates = laterOccurrences [] (elems intSlice).
Proof.
  unfold removeDuplicateValues.
  destruct (removeDuplicateValuesLoop_spec (elems intSlice) ∅ None None)
    as (r & d & Hrun & Hr & Hd).
  - intros x. simpl. rewrite lookup_empty. split.
    + by intros [? ?].
    + by intros ?%elem_of_nil.
  - by exists r, d.
Qed.

(** C6: on a successful parse, [parseIntRanges] returns the distinct IDs in
    the order each is first met ([firstOccurrences]): no ID twice, the same
    IDs as parsed, each first occurrence placed after exactly the values met
    before it. The dropped repetitions ([laterOccurrences]) form the side
    list of [removeDuplicateValues], every one of them reported to the
    logger and none of them an error; together with the result they make
    up the parsed IDs. ["0,1,2"; "1,3"] gives [0,1,2,3] and the side list
    [1]. *)
Theorem parseIntRanges_deduplicates (ranges : list string) (ids : slice Z) :
  parseIDs ranges = Some (inr ids) →
  ∃ result duplicates,
    removeDuplicateValues ids = (result, duplicates) ∧
    parseIntRanges ranges =
      Some (map (λ d, Warn "duplicated id number `%d` will be removed" [d])
                (elems duplicates),
            inr result) ∧
    elems result = firstOccurrences [] (elems ids) ∧
    elems duplicates = laterOccurrences [] (elems ids) ∧
    NoDup (elems result) ∧
    (∀ x, x ∈ elems result ↔ x ∈ elems ids) ∧
    (∀ pre x post,
       elems ids = pre ++ x :: post → x ∉ pre →
       ∃ rpre rpost,
         elems result = rpre ++ x :: rpost ∧ ∀ y, y ∈ rpre ↔ y ∈ pre) ∧
    elems ids ≡ₚ elems result ++ elems duplicates ∧
    elems result `sublist_of` elems ids ∧
    elems duplicates `sublist_of` elems ids ∧
    (∀ x, x ∈ elems duplicates → x ∈ elems result) ∧
    (ranges = ["0,1,2"; "1,3"] →
     elems result = [0; 1; 2; 3] ∧ elems duplicates = [1]).
Proof.
  intros Hparse.
  destruct (removeDuplicateValues_spec ids) as (result & dups & Hrun & Hr & Hd).
  exists result, dups. split; [done|].
  split. { unfold parseIntRanges. by rewrite Hparse, Hrun. }
  split; [done|]. split; [done|]. rewrite Hr, Hd.
  split. { apply (firstOccurrences_NoDup [] (elems ids)). constructor. }
  split.
  { intros x. rewrite (firstOccurrences_elem [] (elems ids) x). set_solver. }
  split.
  { intros pre x post Heq Hpre. rewrite Heq.
    rewrite firstOccurrences_first by (done || apply not_elem_of_nil).
    eexists _, _. split; [done|].
    intros y. rewrite (firstOccurrences_elem [] pre y). set_solver. }
  split; [apply occurrences_Permutation|].
  split; [apply firstOccurrences_sublist|].
  split; [apply laterOccurrences_sublist|].
  split. { intros x Hx. by apply laterOccurrences_seen in Hx. }
  intros ->. vm_compute in Hparse. injection Hparse as <-. done.
Qed.

Lemma parseIntRanges_deduplicates_witness :
  ∃ duplicates,
    parseIntRanges ["0,1,2"; "1,3"] =
      Some (map (λ d, Warn "duplicated id number `%d` will be removed" [d])
                (elems duplicates),
            inr (Some [0; 1; 2; 3])) ∧
    elems duplicates = [1].
Proof.
  destruct (parseIntRanges_deduplicates ["0,1,2"; "1,3"]
              (Some [0; 1; 2; 1; 3]) eq_refl)
    as (result & duplicates & Hrun & Hlog & _).
  vm_compute in Hrun. injection Hrun as <- <-.
  exists (Some [1]). split; [exact Hlog|reflexivity].
Defined.

Lemma rangeLoop_unfold fuel start end_ (result : slice Z) :
  rangeLoop (S fuel) start end_ result =
    if start <=? end_ then
      if len result + 1 >? maxIDsSize then Some (inl ErrMaxSize)
      else rangeLoop fuel (wrapU64 (start + 1)) end_
                     (append result (wrapI64 start))
    else Some (inr result).
Proof. reflexivity. Qed.

Lemma rangeLoop_extends fuel start end_ (result result' : slice Z) :
  rangeLoop fuel start end_ result = Some (inr result') →
  ∃ l, elems result' = elems result ++ l.
Proof.
  revert start result. induction fuel as [|fuel IH]; intros start result;
    [done|].
  simpl. destruct (start <=? end_).
  - destruct (len result + 1 >? maxIDsSize); [done|].
    intros (l & ->)%IH. exists (wrapI64 start :: l).
    simpl. by rewrite <- app_assoc.
  - intros [= <-]. exists []. by rewrite app_nil_r.
Qed.

(** A field that parses appends at least one ID. *)
Lemma parseID_appends (result result' : slice Z) (f : string) :
  parseID result f = Some (inr result') →
  ∃ x l, elems result' = elems result ++ x :: l.
Proof.
  unfold parseID.
  destruct (Sscanf (TrimSpace f)) as [[start end_]|].
  - rewrite Z.geb_leb. destruct (Z.leb_spec end_ start); [done|].
    unfold loopFuel. rewrite rangeLoop_unfold.
    destruct (Z.leb_spec start end_); [|lia].
    destruct (len result + 1 >? maxIDsSize); [done|].
    intros (l & ->)%rangeLoop_extends. exists (wrapI64 start), l.
    simpl. by rewrite <- app_assoc.
  - destruct (Atoi (TrimSpace f)) as [num [err|]]; [done|].
    destruct (len result + 1 >? maxIDsSize); [done|].
    intros [= <-]. by exists num, [].
Qed.

Lemma Split_nonempty (s : string) : ∃ f fs, Split s = f :: fs.
Proof.
  induction s as [|c rest (f & fs & IH)]; simpl; [by eexists _, _|].
  destruct (Ascii.eqb c comma); [by eexists _, _|].
  rewrite IH. by eexists _, _.
Qed.

(** A list of specifications that is not empty and parses holds at least
    one ID. *)
Lemma parseIDs_nonempty (s : string) (rest : list string) (ids : slice Z) :
  parseIDs (s :: rest) = Some (inr ids) →
  ∃ x l, ids = Some (x :: l).
Proof.
  rewrite parseIDs_fields. unfold fields.
  destruct (Split_nonempty s) as (f & fs & Hs).
  assert (Hsplit : flat_map Split (s :: rest) =
                   [] ++ f :: (fs ++ flat_map Split rest))
    by (simpl; by rewrite Hs).
  rewrite Hsplit.
  intros (r1 & r2 & l & Hpre & _ & Hf & Hel)%parseFields_success_inv.
  injection Hpre as <-.
  apply parseID_appends in Hf as (x & l' & Hr2).
  rewrite Hr2 in Hel. simpl in Hel.
  destruct ids as [l0|]; simpl in Hel; [|done].
  subst l0. by eexists _, _.
Qed.

(** C7: [parseCores] has no error result and always returns. For [nil], for
    an empty list and for a list on which [parseIntRanges] fails it returns
    [nil], "all possible cores", and logs; it returns a list of IDs only
    when the list of specifications is not empty and parses, and that list
    is then the parsed one, never [nil]. *)
Theorem parseCores_falls_back (cores : slice string) :
  ∃ log result,
    parseCores cores = Some (log, result) ∧
    (cores = None →
     result = None ∧ log = [Debug "all possible cores will be configured"]) ∧
    (cores = Some [] →
     result = None ∧
     log = [Warn "an empty list of cores was provided. All possible cores will be configured" []]) ∧
    (∀ ranges l err,
       cores = Some ranges → ranges ≠ [] →
       parseIntRanges ranges = Some (l, inl err) →
       result = None ∧
       log = l ++ [Warnf "Error while parsing list of cores: %w. All possible cores will be configured" err]) ∧
    (∀ ranges l ids,
       cores = Some ranges → ranges ≠ [] →
       parseIntRanges ranges = Some (l, inr ids) →
       result = ids ∧ log = l) ∧
    (result ≠ None ↔
     ∃ ranges l,
       cores = Some ranges ∧ ranges ≠ [] ∧
       parseIntRanges ranges = Some (l, inr result)).
Proof.
  destruct cores as [[|s rest]|].
  - eexists _, _. split; [reflexivity|].
    repeat split; intros; destruct_and?; simplify_eq; try done.
    by repeat match goal with H : ∃ _, _ |- _ => destruct H as [? H] end;
       destruct_and?; simplify_eq.
  - unfold parseCores.
    destruct (parseIDs_total (s :: rest)) as [[e|ids] Hids].
    + assert (Hpir : parseIntRanges (s :: rest) = Some ([], inl e))
        by (unfold parseIntRanges; by rewrite Hids).
      rewrite Hpir.
      eexists _, _. split; [reflexivity|].
      repeat split; intros; destruct_and?; simplify_eq; try done.
      by repeat match goal with H : ∃ _, _ |- _ => destruct H as [? H] end;
         destruct_and?; simplify_eq.
    + destruct (removeDuplicateValues_spec ids)
        as (result & dups & Hrun & Hr & _).
      assert (Hpir : parseIntRanges (s :: rest) =
                Some (map (λ d, Warn "duplicated id number `%d` will be removed" [d])
                          (elems dups),
                      inr result))
        by (unfold parseIntRanges; by rewrite Hids, Hrun).
      rewrite Hpir.
      eexists _, _. split; [reflexivity|].
      repeat split; intros; destruct_and?; simplify_eq; try done.
      * by eexists _, _.
      * apply parseIDs_nonempty in Hids as (x & l & ->).
        intros ->. simpl in Hr. discriminate Hr.
  - eexists _, _. split; [reflexivity|].
    repeat split; intros; destruct_and?; simplify_eq; try done.
    by repeat match goal with H : ∃ _, _ |- _ => destruct H as [? H] end;
       destruct_and?; simplify_eq.
Qed.

Lemma parseCores_falls_back_witness :
  (∃ log, parseCores (Some ["0-3,x"]) = Some (log, None)) ∧
  (∃ log, parseCores (Some ["0-3"]) = Some (log, Some [0; 1; 2; 3])).
Proof.
  split.
  - destruct (parseCores_falls_back (Some ["0-3,x"]))
      as (log & result & Hrun & _ & _ & Herr & _).
    assert (Hne : ["0-3,x"] ≠ []) by discriminate.
    destruct (Herr ["0-3,x"] []
                (ErrWrongFormat "x" (ErrSyntax "Atoi" "x")) eq_refl Hne eq_refl)
      as [-> _].
    exists log. exact Hrun.
  - destruct (parseCores_falls_back (Some ["0-3"]))
      as (log & result & Hrun & _ & _ & _ & Hok & _).
    assert (Hne : ["0-3"] ≠ []) by discriminate.
    destruct (Hok ["0-3"] [] (Some [0; 1; 2; 3]) eq_refl Hne eq_refl)
      as [-> _].
    exists log. exact Hrun.
Defined.

(** ** Tokens written in decimal *)

Lemma byte_of_digitChar (d : Z) :
  0 ≤ d ≤ 9 → byte_of (digitChar d) = 48 + d.
Proof.
  intros Hd. unfold byte_of, digitChar.
  rewrite N_ascii_embedding by lia. lia.
Qed.

Lemma isDigit_digitChar (d : Z) :
  0 ≤ d ≤ 9 → isDigit (digitChar d) = true ∧ digitVal (digitChar d) = d.
Proof.
  intros Hd. unfold isDigit, digitVal. rewrite byte_of_digitChar by done.
  split; [|lia]. apply andb_true_intro. split; apply Z.leb_le; lia.
Qed.

Lemma isDigit_byte (c : ascii) : isDigit c = true → 48 ≤ byte_of c ≤ 57.
Proof.
  unfold isDigit. intros [H1 H2]%andb_prop. apply Z.leb_le in H1, H2. lia.
Qed.

(** A digit is not white space, nor a byte of a white-space rune, nor the
    newline, the sign or the underscore. *)
Lemma isDigit_not_space (c : ascii) :
  isDigit c = true →
  isSpace c = false ∧ Ascii.eqb c newline = false ∧
  Ascii.eqb c minus = false ∧ Ascii.eqb c plus = false ∧
  (∀ c1, isSpace2 c c1 = false) ∧ (∀ c1, isSpace2 c1 c = false) ∧
  (∀ c1 c2, isSpace3 c c1 c2 = false) ∧ (∀ c1 c2, isSpace3 c2 c1 c = false).
Proof.
  intros Hc%isDigit_byte.
  assert (Hne : ∀ k, byte_of c ≠ k → (byte_of c =? k) = false)
    by (intros k; apply Z.eqb_neq).
  assert (Hchar : ∀ c', byte_of c ≠ byte_of c' → Ascii.eqb c c' = false).
  { intros c' Hb. apply Ascii.eqb_neq. intros ->. done. }
  split; [|split; [|split; [|split; [|split; [|split; [|split]]]]]].
  - unfold isSpace. rewrite (Hne 32) by lia.
    destruct (Z.leb_spec (byte_of c) 13); [lia|]. by rewrite andb_false_r.
  - apply Hchar. vm_compute (byte_of newline). lia.
  - apply Hchar. vm_compute (byte_of minus). lia.
  - apply Hchar. vm_compute (byte_of plus). lia.
  - intros c1. unfold isSpace2. by rewrite (Hne 0xC2) by lia.
  - intros c1. unfold isSpace2.
    rewrite (Hne 0x85), (Hne 0xA0) by lia. apply andb_false_r.
  - intros c1 c2. unfold isSpace3.
    by rewrite (Hne 0xE1), (Hne 0xE2), (Hne 0xE3) by lia.
  - intros c1 c2. unfold isSpace3.
    rewrite (Hne 0x80), (Hne 0xA8), (Hne 0xA9), (Hne 0xAF), (Hne 0x9F) by lia.
    destruct (Z.leb_spec 0x80 (byte_of c)); [lia|].
    simpl. by rewrite !andb_false_r.
Qed.

Lemma decimalAux_append (fuel : nat) (n : Z) (acc s : string) :
  String.append (decimalAux fuel n acc) s =
    decimalAux fuel n (String.append acc s).
Proof.
  revert n acc. induction fuel as [|fuel IH]; intros n acc; simpl; [done|].
  destruct (n <? 10); [done|]. by rewrite IH.
Qed.

(** With fuel left, the digits start with a digit. *)
Lemma decimalAux_head (fuel : nat) (n : Z) (acc : string) :
  0 ≤ n →
  ∃ c rest, decimalAux (S fuel) n acc = String c rest ∧ isDigit c = true.
Proof.
  revert n acc. induction fuel as [|fuel IH]; intros n acc Hn.
  - simpl. eexists _, _.
    split; [by destruct (n <? 10)|].
    apply isDigit_digitChar. pose proof (Z.mod_pos_bound n 10). lia.
  - change (decimalAux (S (S fuel)) n acc)
      with (if n <? 10 then String (digitChar (n mod 10)) acc
            else decimalAux (S fuel) (n / 10)
                   (String (digitChar (n mod 10)) acc)).
    destruct (n <? 10).
    + eexists _, _. split; [done|].
      apply isDigit_digitChar. pose proof (Z.mod_pos_bound n 10). lia.
    + apply IH. apply Z.div_pos; lia.
Qed.

(** [scanNumber] reads all the digits. *)
Lemma scanNumber_decimalAux (fuel : nat) (n : Z) (acc : string) :
  0 ≤ n →
  scanNumber (decimalAux fuel n acc) =
    (decimalAux fuel n (fst (scanNumber acc)), snd (scanNumber acc)).
Proof.
  revert n acc. induction fuel as [|fuel IH]; intros n acc Hn; simpl.
  - by destruct (scanNumber acc).
  - assert (Hd : acceptsDigit (digitChar (n mod 10)) = true).
    { unfold acceptsDigit.
      destruct (isDigit_digitChar (n mod 10)) as [-> _]; [|done].
      pose proof (Z.mod_pos_bound n 10). lia. }
    destruct (n <? 10).
    + simpl. rewrite Hd. by destruct (scanNumber acc).
    + rewrite IH by (apply Z.div_pos; lia). simpl. rewrite Hd.
      by destruct (scanNumber acc).
Qed.

(** [strconv.ParseUint] reads the digits back. *)
Lemma ParseUintLoop_decimalAux (fuel : nat) (n k : Z) (acc : string) :
  0 ≤ n < 2 ^ Z.of_nat fuel → 0 ≤ k →
  ∃ m, 0 < m ∧
       (k * m + n ≤ maxUint →
        ParseUintLoop k (decimalAux fuel n acc) = ParseUintLoop (k * m + n) acc).
Proof.
  revert n k acc. induction fuel as [|fuel IH]; intros n k acc Hn Hk.
  - exists 1. split; [lia|]. intros _. simpl.
    replace (k * 1 + n) with k by (simpl in Hn; lia). done.
  - assert (Hmod : 0 ≤ n mod 10 < 10) by (apply Z.mod_pos_bound; lia).
    destruct (isDigit_digitChar (n mod 10)) as [Hdig Hval]; [lia|].
    simpl. destruct (Z.ltb_spec n 10) as [Hlt|Hge].
    + exists 10. split; [lia|]. intros Hfit. simpl.
      rewrite Hdig, Hval. simpl. rewrite Z.mod_small by lia.
      destruct (Z.ltb_spec maxUint (k * 10 + n)); [lia|done].
    + destruct (IH (n / 10) k (String (digitChar (n mod 10)) acc))
        as (m & Hm & Hrun); [|done|].
      { split; [apply Z.div_pos; lia|].
        apply Z.div_lt_upper_bound; [lia|].
        rewrite Nat2Z.inj_succ, Z.pow_succ_r in Hn by lia. lia. }
      exists (10 * m). split; [lia|]. intros Hfit.
      pose proof (Z.div_mod n 10 ltac:(lia)) as Hdm.
      rewrite Hrun by nia. simpl. rewrite Hdig, Hval. simpl.
      replace ((k * m + n / 10) * 10 + n mod 10) with (k * (10 * m) + n)
        by lia.
      destruct (Z.ltb_spec maxUint (k * (10 * m) + n)); [lia|done].
Qed.

Lemma decimal_fuel (n : Z) :
  0 ≤ n → 0 ≤ n < 2 ^ Z.of_nat (S (Z.to_nat (Z.log2 n))).
Proof.
  intros Hn. split; [done|].
  rewrite Nat2Z.inj_succ, Z2Nat.id by apply Z.log2_nonneg.
  destruct (Z.eq_dec n 0) as [->|Hne]; [done|].
  apply Z.log2_spec. lia.
Qed.

(** A number written in decimal, followed by anything that does not start
    with a digit or an underscore, is scanned back. *)
Lemma scanUint_decimal (n : Z) (tl : string) :
  0 ≤ n ≤ maxUint →
  fst (scanNumber tl) = EmptyString →
  scanUint (String.append (decimal n) tl) = Some (n, snd (scanNumber tl)).
Proof.
  intros Hn Htl. unfold scanUint, decimal.
  rewrite decimalAux_append.
  change (String.append EmptyString tl) with tl.
  destruct (decimalAux_head (Z.to_nat (Z.log2 n)) n tl) as (c & rest & Heq & Hc);
    [lia|].
  assert (Hskip : SkipSpace (String c rest) = Some (String c rest)).
  { destruct (isDigit_not_space c Hc)
      as (Hs & Hnl & _ & _ & Hs2 & _ & Hs3 & _).
    simpl. rewrite Hnl, Hs.
    destruct rest as [|c1 [|c2 rest2]]; [done| |].
    - by rewrite Hs2.
    - by rewrite Hs2, Hs3. }
  rewrite Heq, Hskip, <- Heq.
  rewrite scanNumber_decimalAux, Htl by lia.
  destruct (decimalAux_head (Z.to_nat (Z.log2 n)) n EmptyString)
    as (c' & rest' & Heq' & _); [lia|].
  unfold ParseUint. rewrite Heq', <- Heq'.
  destruct (ParseUintLoop_decimalAux (S (Z.to_nat (Z.log2 n))) n 0 EmptyString)
    as (m & _ & Hrun); [apply decimal_fuel; lia|lia|].
  rewrite Hrun by lia. simpl. by rewrite Z.mul_0_l.
Qed.

(** The token "a-b" is a range token, with the numbers [a] and [b]. *)
Lemma Sscanf_rangeToken (a b : Z) :
  0 ≤ a ≤ maxUint → 0 ≤ b ≤ maxUint →
  Sscanf (rangeToken a b) = Some (a, b).
Proof.
  intros Ha Hb. unfold Sscanf, rangeToken.
  rewrite scanUint_decimal by done. simpl.
  replace (decimal b) with (String.append (decimal b) EmptyString).
  - by rewrite scanUint_decimal.
  - unfold decimal. by rewrite decimalAux_append.
Qed.

(** A number written in decimal alone is not a range token, and
    [strconv.Atoi] reads it back. *)
Lemma Sscanf_decimal (n : Z) :
  0 ≤ n ≤ maxUint → Sscanf (decimal n) = None.
Proof.
  intros Hn. unfold Sscanf.
  replace (decimal n) with (String.append (decimal n) EmptyString)
    by (unfold decimal; by rewrite decimalAux_append).
  by rewrite scanUint_decimal.
Qed.

Lemma Atoi_decimal (n : Z) :
  0 ≤ n ≤ maxInt → Atoi (decimal n) = (n, None).
Proof.
  intros Hn. unfold Atoi, decimal.
  destruct (decimalAux_head (Z.to_nat (Z.log2 n)) n EmptyString)
    as (c & rest & Heq & Hc); [lia|].
  destruct (isDigit_not_space c Hc) as (_ & _ & Hminus & Hplus & _).
  rewrite Heq, Hminus, Hplus, <- Heq.
  unfold ParseUint. rewrite Heq, <- Heq.
  destruct (ParseUintLoop_decimalAux (S (Z.to_nat (Z.log2 n))) n 0 EmptyString)
    as (m & _ & Hrun); [apply decimal_fuel; lia|lia|].
  unfold maxInt, maxUint in *.
  rewrite Hrun by lia. replace (0 * m + n) with n by lia.
  cbn [ParseUintLoop negb andb].
  destruct (Z.ltb_spec (2 ^ 63 - 1) n); [lia|done].
Qed.

Lemma append_cons (c : ascii) (s t : string) :
  String.append (String c s) t = String c (String.append s t).
Proof. reflexivity. Qed.

Lemma append_empty_r (s : string) : String.append s EmptyString = s.
Proof.
  induction s as [|c s IH]; [done|]. rewrite append_cons. by f_equal.
Qed.

Lemma append_assoc (s t u : string) :
  String.append (String.append s t) u = String.append s (String.append t u).
Proof.
  induction s as [|c s IH]; [done|]. rewrite !append_cons. by f_equal.
Qed.

Lemma revAppend_append (s t acc : string) :
  revAppend (String.append s t) acc = revAppend t (revAppend s acc).
Proof.
  revert acc. induction s as [|c s IH]; intros acc; [done|].
  rewrite append_cons. simpl. apply IH.
Qed.

Lemma revAppend_revAppend (s acc acc' : string) :
  revAppend (revAppend s acc) acc' = revAppend acc (String.append s acc').
Proof.
  revert acc acc'. induction s as [|c s IH]; intros acc acc'; [done|].
  rewrite append_cons. simpl. by rewrite IH.
Qed.

Lemma revString_involutive (s : string) : revString (revString s) = s.
Proof.
  unfold revString. rewrite revAppend_revAppend.
  change (revAppend EmptyString ?x) with x. apply append_empty_r.
Qed.

(** Nothing is trimmed from a string that starts and ends with a digit. *)
Lemma TrimSpace_digits (c d : ascii) (rest pre : string) :
  String c rest = String.append pre (String d EmptyString) →
  isDigit c = true → isDigit d = true →
  TrimSpace (String c rest) = String c rest.
Proof.
  intros Heq Hc Hd. unfold TrimSpace.
  assert (Hleft : TrimLeft (String c rest) = String c rest).
  { destruct (isDigit_not_space c Hc) as (Hs & _ & _ & _ & Hs2 & _ & Hs3 & _).
    simpl. rewrite Hs.
    destruct rest as [|c1 [|c2 rest2]]; [done| |].
    - by rewrite Hs2.
    - by rewrite Hs2, Hs3. }
  rewrite Hleft. unfold TrimRight.
  assert (Hrev : revString (String c rest) = String d (revString pre)).
  { rewrite Heq. unfold revString. by rewrite revAppend_append. }
  assert (Hright : TrimLeftRev (String d (revString pre)) =
                   String d (revString pre)).
  { destruct (isDigit_not_space d Hd) as (Hs & _ & _ & _ & _ & Hs2 & _ & Hs3).
    simpl. rewrite Hs.
    destruct (revString pre) as [|c1 [|c2 rest2]]; [done| |].
    - by rewrite Hs2.
    - by rewrite Hs2, Hs3. }
  rewrite Hrev, Hright, <- Hrev. apply revString_involutive.
Qed.

(** With fuel left, the digits end with a digit. *)
Lemma decimalAux_last (fuel : nat) (n : Z) (acc : string) :
  0 ≤ n →
  ∃ pre d, decimalAux (S fuel) n acc = String.append pre (String d acc) ∧
           isDigit d = true.
Proof.
  intros Hn. simpl.
  exists (if n <? 10 then EmptyString else decimalAux fuel (n / 10) EmptyString),
         (digitChar (n mod 10)).
  split.
  - destruct (n <? 10); [done|]. by rewrite decimalAux_append.
  - apply isDigit_digitChar. pose proof (Z.mod_pos_bound n 10). lia.
Qed.

Lemma TrimSpace_rangeToken (a b : Z) :
  0 ≤ a → 0 ≤ b → TrimSpace (rangeToken a b) = rangeToken a b.
Proof.
  intros Ha Hb. unfold rangeToken, decimal.
  rewrite decimalAux_append.
  change (String.append EmptyString ?s) with s.
  destruct (decimalAux_head (Z.to_nat (Z.log2 a)) a
              (String minus (decimalAux (S (Z.to_nat (Z.log2 b))) b EmptyString)))
    as (c & rest & Heq & Hc); [done|].
  destruct (decimalAux_last (Z.to_nat (Z.log2 b)) b EmptyString)
    as (pre & d & Hlast & Hd); [done|].
  rewrite Heq.
  apply (TrimSpace_digits c d rest
           (String.append (decimalAux (S (Z.to_nat (Z.log2 a))) a EmptyString)
              (String minus pre))); [|done|done].
  rewrite <- Heq, Hlast, append_assoc, append_cons.
  by rewrite decimalAux_append.
Qed.

Lemma TrimSpace_decimal (n : Z) : 0 ≤ n → TrimSpace (decimal n) = decimal n.
Proof.
  intros Hn. unfold decimal.
  destruct (decimalAux_head (Z.to_nat (Z.log2 n)) n EmptyString)
    as (c & rest & Heq & Hc); [done|].
  destruct (decimalAux_last (Z.to_nat (Z.log2 n)) n EmptyString)
    as (pre & d & Hlast & Hd); [done|].
  rewrite Heq. apply (TrimSpace_digits c d rest pre); [|done|done].
  by rewrite <- Heq, Hlast.
Qed.

Lemma Split_no_comma (s : string) : hasComma s = false → Split s = [s].
Proof.
  induction s as [|c rest IH]; simpl; [done|].
  destruct (Ascii.eqb c comma); simpl; [done|].
  intros Hrest. by rewrite IH.
Qed.

Lemma hasComma_decimalAux (fuel : nat) (n : Z) (acc : string) :
  0 ≤ n → hasComma (decimalAux fuel n acc) = hasComma acc.
Proof.
  revert n acc. induction fuel as [|fuel IH]; intros n acc Hn; simpl; [done|].
  assert (Hd : Ascii.eqb (digitChar (n mod 10)) comma = false).
  { apply Ascii.eqb_neq. intros Heq.
    apply (f_equal byte_of) in Heq.
    rewrite byte_of_digitChar in Heq
      by (pose proof (Z.mod_pos_bound n 10); lia).
    vm_compute (byte_of comma) in Heq.
    pose proof (Z.mod_pos_bound n 10). lia. }
  destruct (n <? 10).
  - simpl. by rewrite Hd.
  - rewrite IH by (apply Z.div_pos; lia). simpl. by rewrite Hd.
Qed.

(** A specification that is one range token is one field. *)
Lemma fields_rangeToken (a b : Z) :
  0 ≤ a → 0 ≤ b → fields [rangeToken a b] = [rangeToken a b].
Proof.
  intros Ha Hb. unfold fields. simpl. rewrite app_nil_r.
  apply Split_no_comma. unfold rangeToken, decimal.
  rewrite decimalAux_append, hasComma_decimalAux by done.
  change (String.append EmptyString ?s) with s.
  change (hasComma (String minus ?s)) with (hasComma s).
  by rewrite hasComma_decimalAux.
Qed.

(** The range token "a-b" as the only specification: with [a < b] in [int]
    and at most 8192 IDs the parse gives the integers of [a, b] in
    increasing order; with more it fails with the size error; with [a >= b]
    it fails with the error of the range. *)
Lemma parseIDs_rangeToken (a b : Z) :
  0 ≤ a ≤ maxUint → 0 ≤ b ≤ maxUint →
  (a < b → b ≤ maxInt → b - a + 1 ≤ maxIDsSize →
   parseIDs [rangeToken a b] = Some (inr (Some (seqZ a (b - a + 1))))) ∧
  (a < b → b ≤ maxInt → maxIDsSize < b - a + 1 →
   parseIDs [rangeToken a b] = Some (inl ErrMaxSize)) ∧
  (b ≤ a → parseIDs [rangeToken a b] = Some (inl (ErrEqualOrGreater a b))).
Proof.
  intros Ha Hb.
  rewrite parseIDs_fields, fields_rangeToken by lia.
  assert (Hscan : Sscanf (TrimSpace (rangeToken a b)) = Some (a, b))
    by (rewrite TrimSpace_rangeToken by lia; by apply Sscanf_rangeToken).
  split; [|split].
  - intros Hab Hint Hfit.
    assert (Hexp : expandAll [rangeToken a b] = Some (seqZ a (b - a + 1))).
    { simpl. unfold expandID. rewrite Hscan.
      destruct (Z.ltb_spec a b); [|lia].
      destruct (Z.leb_spec b maxInt); [|lia]. simpl. by rewrite app_nil_r. }
    destruct (parseFields_expand _ None _ Hexp) as [Hrun _];
      [by rewrite maxIDsSize_eq|].
    rewrite Hrun; [done|]. rewrite length_seqZ. unfold len. simpl. lia.
  - intros Hab Hint Hover.
    assert (Hexp : expandAll [rangeToken a b] = Some (seqZ a (b - a + 1))).
    { simpl. unfold expandID. rewrite Hscan.
      destruct (Z.ltb_spec a b); [|lia].
      destruct (Z.leb_spec b maxInt); [|lia]. simpl. by rewrite app_nil_r. }
    destruct (parseFields_expand _ None _ Hexp) as [_ Hrun];
      [by rewrite maxIDsSize_eq|].
    apply Hrun. rewrite length_seqZ. unfold len. simpl. lia.
  - intros Hba. simpl. unfold parseID. rewrite Hscan, Z.geb_leb.
    destruct (Z.leb_spec b a); [done|lia].
Qed.

(** A number written in decimal as the only specification parses to that
    number. *)
Lemma parseIDs_decimal (n : Z) :
  0 ≤ n ≤ maxInt → parseIDs [decimal n] = Some (inr (Some [n])).
Proof.
  intros Hn.
  assert (Hu : 0 ≤ n ≤ maxUint) by (unfold maxInt, maxUint in *; lia).
  rewrite parseIDs_fields. unfold fields. simpl. rewrite app_nil_r.
  rewrite Split_no_comma
    by (unfold decimal; by rewrite hasComma_decimalAux by lia).
  simpl. unfold parseID.
  rewrite TrimSpace_decimal, Sscanf_decimal, Atoi_decimal by lia.
  done.
Qed.

(** ** A range that ends at the largest [uint] *)

(** The loop over a range that ends at 2^64-1 never leaves through its
    condition: the counter stays at or below 2^64-1. *)
Lemma rangeLoop_max_uint_no_result (fuel : nat) (start : Z)
    (result result' : slice Z) :
  0 ≤ start ≤ maxUint →
  rangeLoop fuel start maxUint result ≠ Some (inr result').
Proof.
  revert start result. induction fuel as [|fuel IH]; intros start result Hs;
    [done|].
  rewrite rangeLoop_unfold.
  destruct (Z.leb_spec start maxUint); [|lia].
  destruct (len result + 1 >? maxIDsSize); [done|].
  apply IH. unfold wrapU64, maxUint.
  pose proof (Z.mod_pos_bound (start + 1) (2 ^ 64)). lia.
Qed.

(** Every range token that ends at 2^64-1 fails the parse with the size
    error, however few IDs it stands for. *)
Lemma parseIDs_rangeToken_max_uint (a : Z) :
  0 ≤ a < maxUint →
  parseIDs [rangeToken a maxUint] = Some (inl ErrMaxSize).
Proof.
  intros Ha.
  assert (Hm : 0 ≤ maxUint ≤ maxUint) by (unfold maxUint; lia).
  rewrite parseIDs_fields, fields_rangeToken by lia.
  simpl. unfold parseID.
  rewrite TrimSpace_rangeToken, Sscanf_rangeToken by lia.
  rewrite Z.geb_leb. destruct (Z.leb_spec maxUint a); [lia|].
  destruct (rangeLoop_total loopFuel a maxUint None)
    as [(r & l & Hrun & _)|Hrun].
  - by rewrite maxIDsSize_eq.
  - apply loopFuel_enough.
  - by apply rangeLoop_max_uint_no_result in Hrun; [|lia].
  - by rewrite Hrun.
Qed.

(** * Further properties of the service *)

(** ** One refresh *)

(** A refresh of a core whose register source is not readable returns an
    error and leaves the service alone, whether the core is in the store or
    not. *)
Lemma openAndReadMsr_unreadable fs sch m core :
  validSchedule sch →
  readable fs core = false →
  ∃ e, openAndReadMsr fs sch m core = (Returned (Some e), m).
Proof.
  intros Hsch. unfold readable, openAndReadMsr.
  destruct (checkFile fs (msrPath core)) as [e|]; [by eexists|].
  destruct (osOpen fs (msrPath core)) as [e|rd]; [by eexists|].
  intros (off & Hoff & Hfail)%forallb_false_ex.
  destruct (readFileAtOffsetToUint64 fs rd off) as [e|v] eqn:Hrd; [|done].
  destruct (readDataFromMsr_error fs sch m core rd off e Hsch Hoff Hrd)
    as (? & ? & ? & ? & ->).
  by eexists.
Qed.

(** The raw values of a readable register source. *)
Lemma readable_raw fs core :
  readable fs core = true →
  ∃ (rd : reader fs) (raw : Z → Z),
    checkFile fs (msrPath core) = None ∧
    osOpen fs (msrPath core) = inr rd ∧
    ∀ off, off ∈ msrOffsets →
           readFileAtOffsetToUint64 fs rd off = inr (raw off).
Proof.
  unfold readable.
  destruct (checkFile fs (msrPath core)) as [e|]; [done|].
  destruct (osOpen fs (msrPath core)) as [e|rd]; [done|].
  intros Hall. rewrite forallb_forall in Hall.
  exists rd, (λ off, match readFileAtOffsetToUint64 fs rd off with
                     | inr v => v
                     | inl _ => 0
                     end).
  split; [done|]. split; [done|].
  intros off Hoff. apply list_elem_of_In in Hoff. specialize (Hall off Hoff).
  by destruct (readFileAtOffsetToUint64 fs rd off).
Qed.

(** What a refresh does when the register source is readable, for every
    schedule. *)
Lemma openAndReadMsr_readable_eq fs m core (rd : reader fs) (raw : Z → Z) :
  checkFile fs (msrPath core) = None →
  osOpen fs (msrPath core) = inr rd →
  (∀ off, off ∈ msrOffsets →
          readFileAtOffsetToUint64 fs rd off = inr (raw off)) →
  ∀ sch, validSchedule sch →
    openAndReadMsr fs sch m core =
      match cpuCoresData m !! core with
      | None => (Panicked, m)
      | Some d =>
          (Returned None,
           {| cpuCoresData := <[core := refreshed raw d]> (cpuCoresData m);
              cpuCores := cpuCores m |})
      end.
Proof.
  intros Hck Hop Hraw sch Hsch. unfold openAndReadMsr.
  rewrite Hck, Hop, (readDataFromMsr_ok fs sch m core rd raw Hsch Hraw).
  by destruct (cpuCoresData m !! core).
Qed.

(** X1: how a refresh ends is decided by the register source and the store
    alone: it returns nil exactly when the source is readable and the core is
    a key of the store, it panics exactly when the source is readable and the
    core is not a key, and it returns an error exactly when the source is not
    readable. In particular a refresh of a core of the store never
    panics. *)
Theorem openAndReadMsr_outcome
    (fs : fileService) (sch : schedule) (m : msrServiceImpl) (core : string) :
  validSchedule sch →
  (fst (openAndReadMsr fs sch m core) = Returned None ↔
   readable fs core = true ∧ is_Some (cpuCoresData m !! core)) ∧
  (fst (openAndReadMsr fs sch m core) = Panicked ↔
   readable fs core = true ∧ cpuCoresData m !! core = None) ∧
  ((∃ e, fst (openAndReadMsr fs sch m core) = Returned (Some e)) ↔
   readable fs core = false).
Proof.
  intros Hsch.
  destruct (readable fs core) eqn:Hr.
  - destruct (readable_raw fs core Hr) as (rd & raw & Hck & Hop & Hraw).
    rewrite (openAndReadMsr_readable_eq fs m core rd raw Hck Hop Hraw sch Hsch).
    destruct (cpuCoresData m !! core) as [d|]; simpl.
    + split; [|split].
      * split; [by eauto|done].
      * split; [done|]. by intros [_ ?].
      * split; [by intros [? ?]|done].
    + split; [|split].
      * split; [done|]. by intros [_ [? ?]].
      * done.
      * split; [by intros [? ?]|done].
  - destruct (openAndReadMsr_unreadable fs sch m core Hsch Hr) as [e ->].
    simpl. split; [|split].
    + split; [done|]. by intros [? _].
    + split; [done|]. by intros [? _].
    + split; [done|]. by eexists.
Qed.

Lemma openAndReadMsr_outcome_witness :
  fst (openAndReadMsr (tableFs regsOk twoCpus) reversed store1 "0") =
    Returned None ∧
  fst (openAndReadMsr (tableFs regsOk twoCpus) reversed store1 "1") =
    Panicked ∧
  ∃ e, fst (openAndReadMsr (tableFs regsTscFails twoCpus) reversed store1 "0")
       = Returned (Some e).
Proof.
  split; [|split].
  - apply (openAndReadMsr_outcome (tableFs regsOk twoCpus) reversed store1 "0"
             validSchedule_reversed).
    split; [reflexivity|]. by eexists.
  - apply (openAndReadMsr_outcome (tableFs regsOk twoCpus) reversed store1 "1"
             validSchedule_reversed).
    split; reflexivity.
  - apply (openAndReadMsr_outcome (tableFs regsTscFails twoCpus) reversed
             store1 "0" validSchedule_reversed).
    reflexivity.
Defined.

(** X2: the scheduler does not change what a refresh does to the service:
    under any two schedules the service after the refresh is the same, and
    the results are the same unless both are errors (which then differ at
    most in the failed read they report). *)
Theorem openAndReadMsr_schedule_independent
    (fs : fileService) (sch1 sch2 : schedule) (m : msrServiceImpl)
    (core : string) :
  validSchedule sch1 → validSchedule sch2 →
  snd (openAndReadMsr fs sch1 m core) = snd (openAndReadMsr fs sch2 m core) ∧
  (fst (openAndReadMsr fs sch1 m core) = fst (openAndReadMsr fs sch2 m core) ∨
   ∃ off1 cause1 off2 cause2 (rd : reader fs),
     osOpen fs (msrPath core) = inr rd ∧
     off1 ∈ msrOffsets ∧ readFileAtOffsetToUint64 fs rd off1 = inl cause1 ∧
     off2 ∈ msrOffsets ∧ readFileAtOffsetToUint64 fs rd off2 = inl cause2 ∧
     fst (openAndReadMsr fs sch1 m core) =
       Returned (Some (ErrReadCore core
                         (ErrGoroutines (ErrReadMsrFile cause1)))) ∧
     fst (openAndReadMsr fs sch2 m core) =
       Returned (Some (ErrReadCore core
                         (ErrGoroutines (ErrReadMsrFile cause2))))).
Proof.
  intros Hs1 Hs2.
  destruct (readable fs core) eqn:Hr.
  - destruct (readable_raw fs core Hr) as (rd & raw & Hck & Hop & Hraw).
    rewrite !(openAndReadMsr_readable_eq fs m core rd raw Hck Hop Hraw)
      by done.
    split; [done|by left].
  - unfold readable in Hr. unfold openAndReadMsr.
    destruct (checkFile fs (msrPath core)) as [e|]; [split; [done|by left]|].
    destruct (osOpen fs (msrPath core)) as [e|rd]; [split; [done|by left]|].
    apply forallb_false_ex in Hr as (off & Hoff & Hfail).
    destruct (readFileAtOffsetToUint64 fs rd off) as [e|v] eqn:Hrd; [|done].
    destruct (readDataFromMsr_error fs sch1 m core rd off e Hs1 Hoff Hrd)
      as (off1 & c1 & Ho1 & Hr1 & ->).
    destruct (readDataFromMsr_error fs sch2 m core rd off e Hs2 Hoff Hrd)
      as (off2 & c2 & Ho2 & Hr2 & ->).
    simpl. split; [done|]. right.
    by exists off1, c1, off2, c2, rd.
Qed.

Lemma openAndReadMsr_schedule_independent_witness :
  snd (openAndReadMsr (tableFs regsOk twoCpus) inOrder store1 "0") =
  snd (openAndReadMsr (tableFs regsOk twoCpus) reversed store1 "0").
Proof.
  apply (openAndReadMsr_schedule_independent (tableFs regsOk twoCpus)
           inOrder reversed store1 "0"
           validSchedule_inOrder validSchedule_reversed).
Defined.

(** X3: a successful refresh touches the sample of its core only: every
    other sample, the set of cores of the store and the list of selected
    cores are what they were. *)
Theorem openAndReadMsr_frame
    (fs : fileService) (sch : schedule) (m m' : msrServiceImpl)
    (core : string) :
  validSchedule sch →
  openAndReadMsr fs sch m core = (Returned None, m') →
  (∀ other, other ≠ core →
            cpuCoresData m' !! other = cpuCoresData m !! other) ∧
  dom (cpuCoresData m') = dom (cpuCoresData m) ∧
  cpuCores m' = cpuCores m.
Proof.
  intros Hsch Hrun.
  destruct (openAndReadMsr_success_inv fs sch m core m' Hsch Hrun)
    as (rd & raw & d & _ & _ & _ & Hd & ->).
  simpl. split; [|split; [|done]].
  - intros other Hne. by rewrite lookup_insert_ne.
  - apply dom_insert_lookup_L. by eexists.
Qed.

Lemma openAndReadMsr_frame_witness :
  dom (cpuCoresData
         (snd (openAndReadMsr (tableFs regsOk twoCpus) inOrder store1 "0"))) =
  dom (cpuCoresData store1).
Proof.
  apply (openAndReadMsr_frame (tableFs regsOk twoCpus) inOrder store1
           (snd (openAndReadMsr (tableFs regsOk twoCpus) inOrder store1 "0"))
           "0" validSchedule_inOrder eq_refl).
Defined.

(** X4: after two successful refreshes of a core in a row, each delta is
    (second raw value - first raw value) mod 2^64, whatever the sample held
    before the first refresh; when the six counters read the same both
    times, the six deltas are 0. The register files of the two refreshes may
    differ. *)
Theorem openAndReadMsr_twice
    (fs1 fs2 : fileService) (sch1 sch2 : schedule)
    (m m1 m2 : msrServiceImpl) (core : string) :
  validSchedule sch1 → validSchedule sch2 →
  openAndReadMsr fs1 sch1 m core = (Returned None, m1) →
  openAndReadMsr fs2 sch2 m1 core = (Returned None, m2) →
  ∃ (rd1 : reader fs1) (rd2 : reader fs2) (raw1 raw2 : Z → Z) d2,
    osOpen fs1 (msrPath core) = inr rd1 ∧
    osOpen fs2 (msrPath core) = inr rd2 ∧
    (∀ off, off ∈ msrOffsets →
            readFileAtOffsetToUint64 fs1 rd1 off = inr (raw1 off)) ∧
    (∀ off, off ∈ msrOffsets →
            readFileAtOffsetToUint64 fs2 rd2 off = inr (raw2 off)) ∧
    cpuCoresData m2 !! core = Some d2 ∧
    (c3Delta d2 =
       (raw2 c3StateResidencyLocation - raw1 c3StateResidencyLocation)
         mod 2 ^ 64 ∧
     c6Delta d2 =
       (raw2 c6StateResidencyLocation - raw1 c6StateResidencyLocation)
         mod 2 ^ 64 ∧
     c7Delta d2 =
       (raw2 c7StateResidencyLocation - raw1 c7StateResidencyLocation)
         mod 2 ^ 64 ∧
     mperfDelta d2 =
       (raw2 maximumFrequencyClockCountLocation
        - raw1 maximumFrequencyClockCountLocation) mod 2 ^ 64 ∧
     aperfDelta d2 =
       (raw2 actualFrequencyClockCountLocation
        - raw1 actualFrequencyClockCountLocation) mod 2 ^ 64 ∧
     timeStampCounterDelta d2 =
       (raw2 timestampCounterLocation - raw1 timestampCounterLocation)
         mod 2 ^ 64) ∧
    ((∀ off, off ∈ msrOffsets → raw2 off = raw1 off) →
     c3Delta d2 = 0 ∧ c6Delta d2 = 0 ∧ c7Delta d2 = 0 ∧
     mperfDelta d2 = 0 ∧ aperfDelta d2 = 0 ∧ timeStampCounterDelta d2 = 0).
Proof.
  intros Hs1 Hs2 Hrun1 Hrun2.
  destruct (openAndReadMsr_success_inv fs1 sch1 m core m1 Hs1 Hrun1)
    as (rd1 & raw1 & d & _ & Hop1 & Hraw1 & Hd & ->).
  destruct (openAndReadMsr_success_inv fs2 sch2 _ core m2 Hs2 Hrun2)
    as (rd2 & raw2 & d1 & _ & Hop2 & Hraw2 & Hd1 & ->).
  simpl in Hd1. rewrite lookup_insert_eq in Hd1. injection Hd1 as <-.
  exists rd1, rd2, raw1, raw2, (refreshed raw2 (refreshed raw1 d)). simpl.
  split; [done|]. split; [done|]. split; [done|]. split; [done|].
  split; [by rewrite lookup_insert_eq|]. split; [done|].
  intros Hsame.
  rewrite !Hsame by in_offsets. rewrite !Z.sub_diag. done.
Qed.

Lemma openAndReadMsr_twice_witness :
  ∃ m1 m2 d2,
    openAndReadMsr (tableFs regsOk twoCpus) inOrder store1 "0" =
      (Returned None, m1) ∧
    openAndReadMsr (tableFs regsTemps twoCpus) reversed m1 "0" =
      (Returned None, m2) ∧
    cpuCoresData m2 !! "0" = Some d2 ∧ c3Delta d2 = 0.
Proof.
  set (m1 := snd (openAndReadMsr (tableFs regsOk twoCpus) inOrder store1 "0")).
  set (m2 := snd (openAndReadMsr (tableFs regsTemps twoCpus) reversed m1 "0")).
  destruct (openAndReadMsr_twice (tableFs regsOk twoCpus)
              (tableFs regsTemps twoCpus) inOrder reversed store1 m1 m2 "0"
              validSchedule_inOrder validSchedule_reversed eq_refl eq_refl)
    as (rd1 & rd2 & raw1 & raw2 & d2 & _ & _ & _ & _ & Hd2 & _).
  exists m1, m2, d2. split; [reflexivity|]. split; [reflexivity|].
  split; [exact Hd2|].
  vm_compute in Hd2. injection Hd2 as <-. reflexivity.
Defined.

(** X5: the sample a successful refresh stores is well formed and keeps the
    link with the sample before: each delta is a [uint64], the throttle
    temperature is within 0..255 and the temperature within 0..127, and for
    each counter previous value + delta = current value modulo 2^64. *)
Theorem openAndReadMsr_sample_bounds
    (fs : fileService) (sch : schedule) (m m' : msrServiceImpl)
    (core : string) :
  validSchedule sch →
  openAndReadMsr fs sch m core = (Returned None, m') →
  ∃ d d',
    cpuCoresData m !! core = Some d ∧
    cpuCoresData m' !! core = Some d' ∧
    (0 ≤ c3Delta d' < 2 ^ 64 ∧ 0 ≤ c6Delta d' < 2 ^ 64 ∧
     0 ≤ c7Delta d' < 2 ^ 64 ∧ 0 ≤ mperfDelta d' < 2 ^ 64 ∧
     0 ≤ aperfDelta d' < 2 ^ 64 ∧ 0 ≤ timeStampCounterDelta d' < 2 ^ 64) ∧
    0 ≤ throttleTemp d' ≤ 255 ∧
    0 ≤ temp d' ≤ 127 ∧
    ((c3 d + c3Delta d') mod 2 ^ 64 = c3 d' mod 2 ^ 64 ∧
     (c6 d + c6Delta d') mod 2 ^ 64 = c6 d' mod 2 ^ 64 ∧
     (c7 d + c7Delta d') mod 2 ^ 64 = c7 d' mod 2 ^ 64 ∧
     (mperf d + mperfDelta d') mod 2 ^ 64 = mperf d' mod 2 ^ 64 ∧
     (aperf d + aperfDelta d') mod 2 ^ 64 = aperf d' mod 2 ^ 64 ∧
     (timeStampCounter d + timeStampCounterDelta d') mod 2 ^ 64 =
       timeStampCounter d' mod 2 ^ 64).
Proof.
  intros Hsch Hrun.
  destruct (openAndReadMsr_success_inv fs sch m core m' Hsch Hrun)
    as (rd & raw & d & _ & _ & _ & Hd & ->).
  exists d, (refreshed raw d). simpl.
  split; [done|]. split; [by rewrite lookup_insert_eq|].
  assert (Hmod : ∀ z, 0 ≤ z mod 2 ^ 64 < 2 ^ 64)
    by (intros z; apply Z.mod_pos_bound; lia).
  assert (Hback : ∀ p r, (p + (r - p) mod 2 ^ 64) mod 2 ^ 64 = r mod 2 ^ 64).
  { intros p r. rewrite Zplus_mod_idemp_r. f_equal. lia. }
  split; [by repeat split; apply Hmod|].
  split.
  { change 0xFF with (Z.ones 8). rewrite Z.land_ones by lia.
    pose proof (Z.mod_pos_bound
                  (Z.shiftr (raw throttleTemperatureLocation) 16) (2 ^ 8)).
    change (Z.ones 8) with 255. lia. }
  split.
  { change 0x7F with (Z.ones 7). rewrite Z.land_ones by lia.
    pose proof (Z.mod_pos_bound
                  (Z.shiftr (raw temperatureLocation) 16) (2 ^ 7)).
    change (Z.ones 7) with 127. lia. }
  by repeat split; apply Hback.
Qed.

Lemma openAndReadMsr_sample_bounds_witness :
  ∃ d', cpuCoresData
          (snd (openAndReadMsr (tableFs regsTemps twoCpus) inOrder store1 "0"))
          !! "0" = Some d' ∧
        0 ≤ throttleTemp d' ≤ 255.
Proof.
  destruct (openAndReadMsr_sample_bounds (tableFs regsTemps twoCpus) inOrder
              store1
              (snd (openAndReadMsr (tableFs regsTemps twoCpus) inOrder
                      store1 "0"))
              "0" validSchedule_inOrder eq_refl)
    as (d & d' & _ & Hd' & _ & Ht & _).
  exists d'. split; [exact Hd'|exact Ht].
Defined.

(** X6: successful refreshes of two different cores commute: in either
    order both succeed and leave the same service. The register files and
    the schedules of the two refreshes may differ. *)
Theorem openAndReadMsr_commute
    (fsA fsB : fileService) (schA schB : schedule)
    (m mA mAB : msrServiceImpl) (coreA coreB : string) :
  validSchedule schA → validSchedule schB →
  coreA ≠ coreB →
  openAndReadMsr fsA schA m coreA = (Returned None, mA) →
  openAndReadMsr fsB schB mA coreB = (Returned None, mAB) →
  ∃ mB,
    openAndReadMsr fsB schB m coreB = (Returned None, mB) ∧
    openAndReadMsr fsA schA mB coreA = (Returned None, mAB).
Proof.
  intros HsA HsB Hne HrunA HrunB.
  destruct (openAndReadMsr_success_inv fsA schA m coreA mA HsA HrunA)
    as (rdA & rawA & dA & HckA & HopA & HrawA & HdA & ->).
  destruct (openAndReadMsr_success_inv fsB schB _ coreB mAB HsB HrunB)
    as (rdB & rawB & dB & HckB & HopB & HrawB & HdB & ->).
  simpl in *. rewrite lookup_insert_ne in HdB by done.
  eexists. split.
  - rewrite (openAndReadMsr_readable_eq fsB m coreB rdB rawB HckB HopB HrawB
               schB HsB), HdB.
    reflexivity.
  - rewrite (openAndReadMsr_readable_eq fsA _ coreA rdA rawA HckA HopA HrawA
               schA HsA).
    simpl. rewrite lookup_insert_ne by done. rewrite HdA.
    f_equal. f_equal. by apply insert_insert_ne.
Qed.

Lemma openAndReadMsr_commute_witness :
  ∃ mB,
    openAndReadMsr (tableFs regsTemps twoCpus) reversed store2 "1" =
      (Returned None, mB) ∧
    openAndReadMsr (tableFs regsOk twoCpus) inOrder mB "0" =
      (Returned None,
       snd (openAndReadMsr (tableFs regsTemps twoCpus) reversed
              (snd (openAndReadMsr (tableFs regsOk twoCpus) inOrder
                      store2 "0")) "1")).
Proof.
  apply (openAndReadMsr_commute (tableFs regsOk twoCpus)
           (tableFs regsTemps twoCpus) inOrder reversed store2
           (snd (openAndReadMsr (tableFs regsOk twoCpus) inOrder store2 "0"))
           _ "0" "1" validSchedule_inOrder validSchedule_reversed).
  - discriminate.
  - reflexivity.
  - reflexivity.
Defined.

(** ** The probe and the store *)

Lemma existsb_first {A} (f : A → bool) (l : list A) :
  existsb f l = true →
  ∃ pre c post, l = pre ++ c :: post ∧ (∀ p, p ∈ pre → f p = false) ∧
                f c = true.
Proof.
  induction l as [|a l IH]; simpl; [done|].
  destruct (f a) eqn:Hfa; simpl.
  - intros _. exists [], a, l. split; [done|]. split; [|done].
    by intros p ?%elem_of_nil.
  - intros (pre & c & post & -> & Hpre & Hc)%IH.
    exists (a :: pre), c, post. split; [done|]. split; [|done].
    intros p [->|Hp]%elem_of_cons; [done|by apply Hpre].
Qed.

(** X7: the probe is not read-only: when [isMsrLoaded] returns true it has
    refreshed one core, the first in the order of the iteration whose
    register source is readable, and nothing else: the samples of all other
    cores and the set of cores are what they were. *)
Theorem isMsrLoaded_refreshes_one_core
    (fs : fileService) (sch : string → schedule) (order : list string)
    (m m' : msrServiceImpl) :
  (∀ c, validSchedule (sch c)) →
  (∀ c, c ∈ order ↔ is_Some (cpuCoresData m !! c)) →
  isMsrLoaded fs sch order m = (Returned true, m') →
  ∃ pre c post,
    order = pre ++ c :: post ∧
    (∀ p, p ∈ pre → readable fs p = false) ∧
    readable fs c = true ∧
    openAndReadMsr fs (sch c) m c = (Returned None, m') ∧
    (∀ other, other ≠ c →
              cpuCoresData m' !! other = cpuCoresData m !! other) ∧
    dom (cpuCoresData m') = dom (cpuCoresData m).
Proof.
  intros Hsch Hkeys. unfold isMsrLoaded.
  destruct (isMsrLoadedLoop_spec fs sch order m)
    as (m0 & Hrun & _ & Hfirst).
  { intros c _. apply Hsch. }
  { intros c Hc. by apply Hkeys. }
  rewrite Hrun. intros [= Hb <-].
  destruct (existsb_first _ _ Hb) as (pre & c & post & Heq & Hpre & Hc).
  exists pre, c, post. split; [done|]. split; [done|]. split; [done|].
  assert (Hkey : is_Some (cpuCoresData m !! c)).
  { apply Hkeys. rewrite Heq. apply elem_of_app. right. left. }
  destruct (readable_raw fs c Hc) as (rd & raw & Hck & Hop & Hraw).
  destruct Hkey as [d Hd].
  rewrite (Hfirst pre c post Heq Hpre Hc).
  rewrite (openAndReadMsr_readable_eq fs m c rd raw Hck Hop Hraw (sch c))
    by apply Hsch.
  rewrite Hd. simpl. split; [done|]. split.
  - intros other Hne. by rewrite lookup_insert_ne.
  - apply dom_insert_lookup_L. by eexists.
Qed.

Lemma isMsrLoaded_refreshes_one_core_witness :
  ∃ c, openAndReadMsr (tableFs regsOk twoCpus) inOrder store1 c =
         (Returned None,
          snd (isMsrLoaded (tableFs regsOk twoCpus) (λ _, inOrder) ["0"]
                 store1)).
Proof.
  destruct (isMsrLoaded_refreshes_one_core (tableFs regsOk twoCpus)
              (λ _, inOrder) ["0"] store1
              (snd (isMsrLoaded (tableFs regsOk twoCpus) (λ _, inOrder) ["0"]
                      store1)))
    as (pre & c & post & _ & _ & _ & Hrun & _).
  - intros _. exact validSchedule_inOrder.
  - intros c. unfold store1. simpl. rewrite list_elem_of_singleton.
    split.
    + intros ->. by rewrite lookup_singleton_eq.
    + intros [d Hd]. apply lookup_singleton_Some in Hd. by destruct Hd.
  - reflexivity.
  - exists c. exact Hrun.
Defined.

(** ** Setting the store up *)

Lemma contains_elem_of (s : list Z) (e : Z) : contains s e = true ↔ e ∈ s.
Proof.
  induction s as [|v rest IH]; simpl.
  - split; [done|]. by intros ?%elem_of_nil.
  - rewrite elem_of_cons. destruct (Z.eqb_spec v e) as [->|Hne].
    + split; [by left|done].
    + rewrite IH. split; [by right|]. intros [->|?]; [done|assumption].
Qed.

Lemma parseIntRanges_returns (ranges : list string) :
  ∃ log r, parseIntRanges ranges = Some (log, r) ∧
           (∀ e, parseIDs ranges = Some (inl e) → log = [] ∧ r = inl e).
Proof.
  unfold parseIntRanges.
  destruct (parseIDs_total ranges) as [[e|ids] ->].
  - eexists _, _. split; [done|]. by intros ? [= <-].
  - destruct (removeDuplicateValues ids). eexists _, _. split; [done|].
    intros ? [=].
Qed.

Lemma parseCores_returns (cores : slice string) :
  ∃ log r, parseCores cores = Some (log, r).
Proof.
  unfold parseCores. destruct cores as [[|s rest]|]; [by eauto | | by eauto].
  destruct (parseIntRanges_returns (s :: rest)) as (log & [e|ids] & -> & _);
    by eauto.
Qed.

(** The keys [setCPUCores] adds to the map: the cores of the paths that pass
    the filter. *)
Lemma setCPUCoresLoop_keys cpuPaths cores (data : gmap string msrData) core :
  is_Some (setCPUCoresLoop cpuPaths cores data !! core) ↔
  is_Some (data !! core) ∨
  ∃ p, p ∈ cpuPaths ∧ coreOf p = core ∧ selected cores core.
Proof.
  revert data. induction cpuPaths as [|cpuPath rest IH]; intros data.
  - simpl. split; [by left|]. intros [?|(p & ?%elem_of_nil & _)]; done.
  - cbn [setCPUCoresLoop]. fold (coreOf cpuPath).
    assert (Hskip :
      (match cores with
       | Some l => negb (Contains l (fst (Atoi (coreOf cpuPath))))
       | None => false
       end) = false ↔ selected cores (coreOf cpuPath)).
    { unfold selected, Contains. destruct cores as [l|]; [|done].
      rewrite negb_false_iff. apply contains_elem_of. }
    destruct (match cores with Some _ => _ | None => _ end) eqn:Hs.
    + rewrite IH. split.
      * intros [?|(p & Hp & Hc & Hsel)]; [by left|].
        right. exists p. split; [by apply list_elem_of_further|done].
      * intros [?|(p & Hp & Hc & Hsel)]; [by left|].
        apply elem_of_cons in Hp as [->|Hp].
        -- subst core. apply Hskip in Hsel. congruence.
        -- right. by exists p.
    + rewrite IH. split.
      * intros [Hin|(p & Hp & Hc & Hsel)].
        -- destruct (decide (coreOf cpuPath = core)) as [Heq|Hne].
           ++ right. exists cpuPath. split; [apply list_elem_of_here|].
              split; [done|]. subst core. by apply Hskip.
           ++ left. by rewrite lookup_insert_ne in Hin.
        -- right. exists p. split; [by apply list_elem_of_further|done].
      * intros [Hin|(p & Hp & Hc & Hsel)].
        -- left. destruct (decide (coreOf cpuPath = core)) as [Heq|Hne].
           ++ subst core. rewrite lookup_insert_eq. by eexists.
           ++ by rewrite lookup_insert_ne.
        -- apply elem_of_cons in Hp as [->|Hp].
           ++ left. subst core. rewrite lookup_insert_eq. by eexists.
           ++ right. by exists p.
Qed.

Lemma newMsrServiceWithFs_eq fs cores plog parsed :
  parseCores cores = Some (plog, parsed) →
  newMsrServiceWithFs fs cores =
    Some (plog ++
            match getStringsMatchingPatternOnPath fs cpuCorePattern with
            | inl err => [LogError err]
            | inr [] => [Debug "CPU core data wasn't found using pattern: %s"]
            | inr _ => []
            end,
          {| cpuCoresData :=
               match getStringsMatchingPatternOnPath fs cpuCorePattern with
               | inl _ => ∅
               | inr cpuPaths => setCPUCoresLoop cpuPaths parsed ∅
               end;
             cpuCores := parsed |}).
Proof.
  intros Hp. unfold newMsrServiceWithFs, setCPUCores. rewrite Hp. simpl.
  by destruct (getStringsMatchingPatternOnPath fs cpuCorePattern)
    as [e|[|p ps]].
Qed.

(** X8: the constructor always returns a service, whatever the list of cores
    and the file service are. Its filter is what [parseCores] returns, every
    sample it holds is the all-zero sample, and an error of the file service
    is only logged, after the entries of the parse: the store is then
    empty, as it is when no path matches the pattern. *)
Theorem newMsrServiceWithFs_always_returns
    (fs : fileService) (cores : slice string) :
  ∃ plog log m,
    parseCores cores = Some (plog, cpuCores m) ∧
    newMsrServiceWithFs fs cores = Some (plog ++ log, m) ∧
    map_Forall (λ _ d, d = newMsrData) (cpuCoresData m) ∧
    (∀ err, getStringsMatchingPatternOnPath fs cpuCorePattern = inl err →
            log = [LogError err] ∧ cpuCoresData m = ∅) ∧
    (getStringsMatchingPatternOnPath fs cpuCorePattern = inr [] →
     log = [Debug "CPU core data wasn't found using pattern: %s"] ∧
     cpuCoresData m = ∅) ∧
    (∀ p ps, getStringsMatchingPatternOnPath fs cpuCorePattern = inr (p :: ps) →
             log = []).
Proof.
  destruct (parseCores_returns cores) as (plog & parsed & Hp).
  rewrite (newMsrServiceWithFs_eq fs cores plog parsed Hp).
  eexists plog, _, _. split; [|split; [reflexivity|]]; [exact Hp|].
  cbn [cpuCoresData].
  destruct (getStringsMatchingPatternOnPath fs cpuCorePattern)
    as [e|cpuPaths].
  - split; [apply map_Forall_empty|].
    split; [by intros ? [= <-]|]. split; [done|]. intros ? ? [=].
  - split; [apply setCPUCoresLoop_fresh, map_Forall_empty|].
    split; [intros ? [=]|]. split.
    + by intros [= ->].
    + by intros ? ? [= ->].
Qed.

Lemma Atoi_syntax_zero (s fn s' : string) :
  snd (Atoi s) = Some (ErrSyntax fn s') → fst (Atoi s) = 0.
Proof.
  unfold Atoi.
  destruct (match s with
            | EmptyString => _
            | String _ _ => _
            end) as [neg body].
  destruct (ParseUint body) as [[]|un]; simpl; [done|done|].
  destruct (negb neg && (maxInt <? un)); [done|].
  destruct (neg && (maxInt + 1 <? un)); done.
Qed.

Lemma newMsrServiceWithFs_lookup fs cores cpuPaths log m core :
  getStringsMatchingPatternOnPath fs cpuCorePattern = inr cpuPaths →
  newMsrServiceWithFs fs cores = Some (log, m) →
  is_Some (cpuCoresData m !! core) ↔
  ∃ p, p ∈ cpuPaths ∧ coreOf p = core ∧ selected (cpuCores m) core.
Proof.
  intros Hfs Hnew.
  destruct (parseCores_returns cores) as (plog & parsed & Hp).
  rewrite (newMsrServiceWithFs_eq fs cores plog parsed Hp), Hfs in Hnew.
  injection Hnew as _ <-. cbn [cpuCores cpuCoresData].
  rewrite setCPUCoresLoop_keys, lookup_empty. split; [|by right].
  intros [[? ?]|?]; done.
Qed.

(** X9: the cores of the store the constructor builds are the cores of the
    paths the file service lists that pass the filter: all of them without a
    filter, and with a filter those whose number [strconv.Atoi] gives is in
    it. The error of [Atoi] is dropped, so a listed name that is not a number
    stands for core 0. *)
Theorem newMsrServiceWithFs_keys
    (fs : fileService) (cores : slice string) (cpuPaths : list string)
    (log : list logEntry) (m : msrServiceImpl) :
  getStringsMatchingPatternOnPath fs cpuCorePattern = inr cpuPaths →
  newMsrServiceWithFs fs cores = Some (log, m) →
  (∀ core, is_Some (cpuCoresData m !! core) ↔
           ∃ p, p ∈ cpuPaths ∧ coreOf p = core ∧ selected (cpuCores m) core) ∧
  (cpuCores m = None →
   ∀ p, p ∈ cpuPaths → is_Some (cpuCoresData m !! coreOf p)) ∧
  (∀ l p fn s,
     cpuCores m = Some l → p ∈ cpuPaths →
     snd (Atoi (coreOf p)) = Some (ErrSyntax fn s) →
     (is_Some (cpuCoresData m !! coreOf p) ↔ 0 ∈ l)).
Proof.
  intros Hfs Hnew.
  pose proof (λ core,
    newMsrServiceWithFs_lookup fs cores cpuPaths log m core Hfs Hnew)
    as Hkeys.
  split; [exact Hkeys|]. split.
  - intros Hnil p Hin. apply Hkeys. exists p. rewrite Hnil. done.
  - intros l p fn s Hl Hin Herr. rewrite Hkeys, Hl. unfold selected.
    rewrite <- (Atoi_syntax_zero _ _ _ Herr). split.
    + by intros (_ & _ & _ & ?).
    + intros H0. by exists p.
Qed.

Lemma newMsrServiceWithFs_keys_witness :
  is_Some (cpuCoresData
             {| cpuCoresData := setCPUCoresLoop twoCpus (Some [1]) ∅;
                cpuCores := Some [1] |} !! "1") ↔
  ∃ p, p ∈ twoCpus ∧ coreOf p = "1" ∧ selected (Some [1]) "1".
Proof.
  destruct (newMsrServiceWithFs_keys (tableFs regsOk twoCpus) (Some ["1"])
              twoCpus []
              {| cpuCoresData := setCPUCoresLoop twoCpus (Some [1]) ∅;
                 cpuCores := Some [1] |}) as [Hkeys _].
  - reflexivity.
  - reflexivity.
  - exact (Hkeys "1").
Defined.

(** X10: a list of cores that is nil, empty or does not parse builds the same
    service as no list at all, and only such a list does: the filter of the
    service is nil exactly then. *)
Theorem newMsrServiceWithFs_fallback
    (fs : fileService) (cores : slice string) :
  ∃ log m log0 m0,
    newMsrServiceWithFs fs cores = Some (log, m) ∧
    newMsrServiceWithFs fs None = Some (log0, m0) ∧
    (cpuCores m = None ↔
     cores = None ∨ cores = Some [] ∨
     ∃ ranges e, cores = Some ranges ∧ parseIDs ranges = Some (inl e)) ∧
    (cpuCores m = None → m = m0).
Proof.
  destruct (parseCores_returns cores) as (plog & parsed & Hp).
  rewrite (newMsrServiceWithFs_eq fs cores plog parsed Hp).
  rewrite (newMsrServiceWithFs_eq fs None _ None eq_refl).
  eexists _, _, _, _. split; [done|]. split; [done|].
  cbn [cpuCores]. split; [|by intros ->].
  unfold parseCores in Hp. destruct cores as [[|s rest]|].
  - injection Hp as <- <-. split; [by auto|done].
  - destruct (parseIntRanges_returns (s :: rest)) as (l & r & Hr & Herr).
    rewrite Hr in Hp. unfold parseIntRanges in Hr.
    destruct (parseIDs_total (s :: rest)) as [[e|ids] Hids].
    + destruct (Herr e Hids) as [-> ->]. injection Hp as <- <-.
      split; [|done]. intros _. right. right. by exists (s :: rest), e.
    + rewrite Hids in Hr.
      destruct (parseIDs_nonempty s rest ids Hids) as (x & xs & ->).
      destruct (removeDuplicateValues_spec (Some (x :: xs)))
        as (res & dup & Hrd & Hres & _).
      rewrite Hrd in Hr. injection Hr as <- <-. injection Hp as <- <-.
      simpl in Hres. split.
      * intros ->. done.
      * intros [?|[?|(ranges & e & [= <-] & He)]]; [done|done|].
        congruence.
  - injection Hp as <- <-. split; [by auto|done].
Qed.

(** *** Paths of the form "dir/cpu<n>" *)

Lemma hasSlash_decimalAux (fuel : nat) (n : Z) (acc : string) :
  0 ≤ n → hasSlash (decimalAux fuel n acc) = hasSlash acc.
Proof.
  revert n acc. induction fuel as [|fuel IH]; intros n acc Hn; simpl; [done|].
  assert (Hd : Ascii.eqb (digitChar (n mod 10)) slash = false).
  { apply Ascii.eqb_neq. intros Heq.
    apply (f_equal byte_of) in Heq.
    rewrite byte_of_digitChar in Heq
      by (pose proof (Z.mod_pos_bound n 10); lia).
    vm_compute (byte_of slash) in Heq.
    pose proof (Z.mod_pos_bound n 10). lia. }
  destruct (n <? 10).
  - simpl. by rewrite Hd.
  - rewrite IH by (apply Z.div_pos; lia). simpl. by rewrite Hd.
Qed.

Lemma stripTrailingSlashes_no_slash (u : string) :
  u ≠ EmptyString → hasSlash u = false → stripTrailingSlashes u = u.
Proof.
  induction u as [|c rest IH]; [done|]. intros _. simpl.
  intros [Hc Hrest]%orb_false_iff.
  destruct rest as [|c' rest'].
  - simpl. by rewrite Hc.
  - rewrite IH by done. done.
Qed.

Lemma stripTrailingSlashes_app (s t : string) :
  stripTrailingSlashes t ≠ EmptyString →
  stripTrailingSlashes (String.append s t) =
    String.append s (stripTrailingSlashes t).
Proof.
  intros Ht. induction s as [|c s IH]; [done|].
  rewrite !append_cons. cbn [stripTrailingSlashes]. rewrite IH.
  destruct (String.append s (stripTrailingSlashes t)) eqn:Heq; [|done].
  destruct s; [|by rewrite append_cons in Heq].
  by destruct Ht.
Qed.

Lemma lastElement_app (s u : string) :
  hasSlash u = false →
  lastElement (String.append s (String slash u)) = u.
Proof.
  intros Hu. induction s as [|c s IH].
  - change (String.append EmptyString ?x) with x. simpl. by rewrite Hu.
  - rewrite append_cons. cbn [lastElement].
    assert (Hs : hasSlash (String.append s (String slash u)) = true).
    { clear IH. induction s as [|c' s IH']; [done|].
      rewrite append_cons. simpl. rewrite IH'. apply orb_true_r. }
    by rewrite Hs.
Qed.

Lemma cutPrefix_empty (s : string) : cutPrefix s EmptyString = Some s.
Proof. by destruct s. Qed.

Lemma coreOf_cpuDir (dir : string) (n : Z) :
  0 ≤ n → coreOf (cpuDir dir n) = decimal n.
Proof.
  intros Hn. unfold coreOf, cpuDir.
  assert (Hd : hasSlash (decimal n) = false).
  { unfold decimal. by rewrite hasSlash_decimalAux. }
  set (d := decimal n) in *.
  change (String.append "/cpu" d) with (String slash (String.append "cpu" d)).
  assert (Hu : ∃ u, String.append "cpu" d = u ∧ u ≠ EmptyString ∧
                    hasSlash u = false ∧ TrimPrefix u "cpu" = d).
  { exists (String "c" (String "p" (String "u" d))).
    split; [reflexivity|]. split; [done|]. split; [exact Hd|].
    unfold TrimPrefix. cbn [cutPrefix].
    change (Ascii.eqb "c" "c") with true. change (Ascii.eqb "p" "p") with true.
    change (Ascii.eqb "u" "u") with true. cbv iota.
    by rewrite cutPrefix_empty. }
  destruct Hu as (u & -> & Hne & Hu & Htrim).
  assert (Hst : stripTrailingSlashes (String slash u) = String slash u).
  { cbn [stripTrailingSlashes].
    rewrite (stripTrailingSlashes_no_slash u) by done. by destruct u. }
  unfold Base.
  rewrite stripTrailingSlashes_app by (by rewrite Hst).
  rewrite Hst, lastElement_app by done.
  destruct dir, u; done.
Qed.

Lemma decimal_inj (n n' : Z) :
  0 ≤ n ≤ maxInt → 0 ≤ n' ≤ maxInt → decimal n = decimal n' → n = n'.
Proof.
  intros Hn Hn' Heq.
  pose proof (Atoi_decimal n Hn) as H1.
  pose proof (Atoi_decimal n' Hn') as H2.
  rewrite Heq, H2 in H1. by injection H1.
Qed.

(** X11: when the file service lists the directories "dir/cpu<n>" of the
    cores [ns], the store holds core [n] exactly when [n] is one of [ns]
    and, with a filter, [n] is in the filter: a core of the filter that the
    system does not have is left out, and so is a core of the system that an
    explicit filter does not name. Every key is the decimal name of a listed
    core. *)
Theorem newMsrServiceWithFs_numbered_cores
    (fs : fileService) (cores : slice string) (dir : string) (ns : list Z)
    (log : list logEntry) (m : msrServiceImpl) :
  getStringsMatchingPatternOnPath fs cpuCorePattern
    = inr (map (cpuDir dir) ns) →
  (∀ n, n ∈ ns → 0 ≤ n ≤ maxInt) →
  newMsrServiceWithFs fs cores = Some (log, m) →
  (∀ n, 0 ≤ n ≤ maxInt →
        (is_Some (cpuCoresData m !! decimal n) ↔
         n ∈ ns ∧ match cpuCores m with
                  | Some l => n ∈ l
                  | None => True
                  end)) ∧
  (∀ core, is_Some (cpuCoresData m !! core) →
           ∃ n, n ∈ ns ∧ core = decimal n).
Proof.
  intros Hfs Hns Hnew.
  pose proof (λ core,
    newMsrServiceWithFs_lookup fs cores _ log m core Hfs Hnew) as Hkeys.
  split.
  - intros n Hn. rewrite Hkeys. unfold selected. split.
    + intros (p & Hp & Hcore & Hsel).
      apply list_elem_of_fmap in Hp as (n' & -> & Hn').
      rewrite coreOf_cpuDir in Hcore by (apply Hns in Hn'; lia).
      apply decimal_inj in Hcore; [|by apply Hns|done]. subst n'.
      split; [done|].
      destruct (cpuCores m); [|done]. by rewrite Atoi_decimal in Hsel.
    + intros [Hin Hsel]. exists (cpuDir dir n).
      split; [by apply list_elem_of_fmap_2|].
      split; [apply coreOf_cpuDir; lia|].
      destruct (cpuCores m); [|done]. by rewrite Atoi_decimal.
  - intros core (p & Hp & Hcore & _)%Hkeys.
    apply list_elem_of_fmap in Hp as (n & -> & Hn).
    exists n. split; [done|]. rewrite <- Hcore.
    apply coreOf_cpuDir. apply Hns in Hn. lia.
Qed.

Lemma newMsrServiceWithFs_numbered_cores_witness :
  is_Some (cpuCoresData
             {| cpuCoresData :=
                  setCPUCoresLoop (map (cpuDir "/sys/devices/system/cpu/")
                                     [0; 1; 2])
                    (Some [1; 2; 3]) ∅;
                cpuCores := Some [1; 2; 3] |} !! decimal 2) ↔
  2 ∈ [0; 1; 2] ∧ 2 ∈ [1; 2; 3].
Proof.
  apply (newMsrServiceWithFs_numbered_cores
           (tableFs regsOk (map (cpuDir "/sys/devices/system/cpu/") [0; 1; 2]))
           (Some ["1-3"]) "/sys/devices/system/cpu/" [0; 1; 2] []
           {| cpuCoresData :=
                setCPUCoresLoop (map (cpuDir "/sys/devices/system/cpu/")
                                   [0; 1; 2])
                  (Some [1; 2; 3]) ∅;
              cpuCores := Some [1; 2; 3] |}).
  - reflexivity.
  - intros n Hn. unfold maxInt.
    repeat (apply elem_of_cons in Hn as [->|Hn]; [lia|]).
    by apply elem_of_nil in Hn.
  - reflexivity.
  - unfold maxInt. lia.
Defined.

(** ** The cores of the store never change *)




(** ** The parser: results, errors, composition *)

Lemma elems_appendAll {A} (s : slice A) (l : list A) :
  elems (appendAll s l) = elems s ++ l.
Proof. destruct l; simpl; [by rewrite app_nil_r|done]. Qed.

Lemma len_appendAll {A} (s : slice A) (l : list A) :
  len (appendAll s l) = len s + Z.of_nat (length l).
Proof. unfold len. rewrite elems_appendAll, length_app. lia. Qed.

Lemma appendAll_app {A} (s : slice A) (l1 l2 : list A) :
  appendAll (appendAll s l1) l2 = appendAll s (l1 ++ l2).
Proof.
  destruct l1 as [|x l1]; [done|]. destruct l2 as [|y l2]; simpl.
  - by rewrite app_nil_r.
  - by rewrite <- app_assoc.
Qed.

Lemma appendAll_append {A} (s : slice A) (x : A) (l : list A) :
  appendAll (append s x) l = appendAll s (x :: l).
Proof. apply (appendAll_app s [x] l). Qed.

Lemma wrapI64_range (z : Z) : minInt ≤ wrapI64 z ≤ maxInt.
Proof.
  unfold wrapI64, minInt, maxInt.
  pose proof (Z.mod_pos_bound (z + 2 ^ 63) (2 ^ 64)). lia.
Qed.

(** The same loop from a longer result: it appends the same IDs, unless they
    no longer fit. *)
Lemma rangeLoop_grow fuel start end_ (acc acc' r : slice Z) :
  rangeLoop fuel start end_ acc = Some (inr r) →
  len acc ≤ len acc' → len acc' ≤ maxIDsSize →
  ∃ l, elems r = elems acc ++ l ∧
       Forall (λ x, minInt ≤ x ≤ maxInt) l ∧
       rangeLoop fuel start end_ acc' =
         Some (if len acc' + Z.of_nat (length l) <=? maxIDsSize
               then inr (appendAll acc' l) else inl ErrMaxSize).
Proof.
  revert start acc acc'.
  induction fuel as [|fuel IH]; intros start acc acc' Hrun Hle Hmax; [done|].
  rewrite rangeLoop_unfold in Hrun. rewrite rangeLoop_unfold.
  destruct (start <=? end_).
  - destruct (Z.gtb_spec (len acc + 1) maxIDsSize) as [|Hsz]; [done|].
    destruct (Z.gtb_spec (len acc' + 1) maxIDsSize) as [Hover|Hfit].
    + destruct (IH _ _ (append acc (wrapI64 start)) Hrun)
        as (l & Hl & Hrange & _); [done| |].
      { rewrite len_append. lia. }
      exists (wrapI64 start :: l). split.
      { rewrite Hl. simpl. by rewrite <- app_assoc. }
      split; [constructor; [apply wrapI64_range|done]|].
      destruct (Z.leb_spec (len acc' + Z.of_nat (length (wrapI64 start :: l)))
                  maxIDsSize); [|done].
      simpl length in *. lia.
    + destruct (IH _ _ (append acc' (wrapI64 start)) Hrun)
        as (l & Hl & Hrange & Hrun').
      { rewrite !len_append. lia. }
      { rewrite len_append. lia. }
      exists (wrapI64 start :: l). split.
      { rewrite Hl. simpl. by rewrite <- app_assoc. }
      split; [constructor; [apply wrapI64_range|done]|].
      rewrite Hrun', len_append, appendAll_append.
      replace (len acc' + 1 + Z.of_nat (length l))
        with (len acc' + Z.of_nat (length (wrapI64 start :: l)))
        by (simpl length; lia).
      done.
  - injection Hrun as <-. exists []. rewrite app_nil_r. simpl.
    split; [done|]. split; [done|].
    destruct (Z.leb_spec (len acc' + Z.of_nat 0) maxIDsSize); [done|lia].
Qed.

Lemma rangeLoop_error_grow fuel start end_ (acc acc' : slice Z) e :
  rangeLoop fuel start end_ acc = Some (inl e) →
  len acc ≤ len acc' →
  e = ErrMaxSize ∧ rangeLoop fuel start end_ acc' = Some (inl ErrMaxSize).
Proof.
  revert start acc acc'.
  induction fuel as [|fuel IH]; intros start acc acc' Hrun Hle; [done|].
  rewrite rangeLoop_unfold in Hrun. rewrite rangeLoop_unfold.
  destruct (start <=? end_); [|done].
  destruct (Z.gtb_spec (len acc + 1) maxIDsSize) as [Hover|Hfit].
  - injection Hrun as <-. split; [done|].
    destruct (Z.gtb_spec (len acc' + 1) maxIDsSize); [done|lia].
  - destruct (IH _ _ (append acc' (wrapI64 start)) Hrun) as [-> Hrun'].
    { rewrite !len_append. lia. }
    split; [done|]. by destruct (len acc' + 1 >? maxIDsSize).
Qed.

Lemma parseID_grow (acc acc' r : slice Z) (f : string) :
  parseID acc f = Some (inr r) →
  len acc ≤ len acc' → len acc' ≤ maxIDsSize →
  ∃ l, elems r = elems acc ++ l ∧
       Forall (λ x, minInt ≤ x ≤ maxInt) l ∧
       parseID acc' f =
         Some (if len acc' + Z.of_nat (length l) <=? maxIDsSize
               then inr (appendAll acc' l) else inl ErrMaxSize).
Proof.
  unfold parseID. intros Hrun Hle Hmax.
  destruct (Sscanf (TrimSpace f)) as [[a b]|].
  - destruct (a >=? b); [done|]. by apply (rangeLoop_grow _ _ _ acc).
  - destruct (Atoi (TrimSpace f)) as [num [err|]] eqn:Hnum; [done|].
    destruct (len acc + 1 >? maxIDsSize); [done|]. injection Hrun as <-.
    exists [num]. split; [done|]. split.
    { constructor; [|done]. by destruct (Atoi_accepts _ _ Hnum). }
    simpl length.
    destruct (Z.gtb_spec (len acc' + 1) maxIDsSize),
      (Z.leb_spec (len acc' + Z.of_nat 1) maxIDsSize); try lia; done.
Qed.

Lemma parseID_error_grow (acc acc' : slice Z) (f : string) e :
  parseID acc f = Some (inl e) →
  len acc ≤ len acc' →
  parseID acc' f = Some (inl e).
Proof.
  unfold parseID. intros Hrun Hle.
  destruct (Sscanf (TrimSpace f)) as [[a b]|].
  - destruct (a >=? b); [done|].
    by destruct (rangeLoop_error_grow _ _ _ acc acc' e Hrun Hle) as [-> ->].
  - destruct (Atoi (TrimSpace f)) as [num [err|]]; [done|].
    destruct (Z.gtb_spec (len acc + 1) maxIDsSize); [|done].
    destruct (Z.gtb_spec (len acc' + 1) maxIDsSize); [done|lia].
Qed.

Lemma parseFields_grow (fs : list string) (acc acc' r : slice Z) :
  parseFields fs acc = Some (inr r) →
  len acc ≤ len acc' → len acc' ≤ maxIDsSize →
  ∃ l, elems r = elems acc ++ l ∧
       Forall (λ x, minInt ≤ x ≤ maxInt) l ∧
       parseFields fs acc' =
         Some (if len acc' + Z.of_nat (length l) <=? maxIDsSize
               then inr (appendAll acc' l) else inl ErrMaxSize).
Proof.
  revert acc acc'.
  induction fs as [|f rest IH]; intros acc acc' Hrun Hle Hmax.
  - injection Hrun as <-. exists []. rewrite app_nil_r. simpl.
    split; [done|]. split; [done|].
    destruct (Z.leb_spec (len acc' + Z.of_nat 0) maxIDsSize); [done|lia].
  - cbn [parseFields] in *.
    destruct (parseID acc f) as [[e|r1]|] eqn:Hf; [done| |done].
    destruct (parseID_grow acc acc' r1 f Hf Hle Hmax)
      as (l1 & Hl1 & Hrange1 & ->).
    assert (Hlen1 : len r1 = len acc + Z.of_nat (length l1)).
    { unfold len. rewrite Hl1, length_app. lia. }
    destruct (Z.leb_spec (len acc' + Z.of_nat (length l1)) maxIDsSize)
      as [Hfit|Hover].
    + destruct (IH r1 (appendAll acc' l1) Hrun) as (l2 & Hl2 & Hrange2 & ->).
      { rewrite len_appendAll. lia. }
      { rewrite len_appendAll. lia. }
      exists (l1 ++ l2). split; [by rewrite Hl2, Hl1, <- app_assoc|].
      split; [by apply Forall_app|].
      rewrite len_appendAll, appendAll_app, length_app, Nat2Z.inj_add.
      by rewrite Z.add_assoc.
    + assert (Hr1 : len r1 ≤ maxIDsSize).
      { destruct (parseID_total acc f) as [(r' & l' & Hr' & _ & ?)|[e He]];
          [lia| |congruence].
        congruence. }
      destruct (IH r1 r1 Hrun) as (l2 & Hl2 & Hrange2 & _); [lia|done|].
      exists (l1 ++ l2). split; [by rewrite Hl2, Hl1, <- app_assoc|].
      split; [by apply Forall_app|].
      destruct (Z.leb_spec (len acc' + Z.of_nat (length (l1 ++ l2)))
                  maxIDsSize); [|done].
      rewrite length_app in *. lia.
Qed.

Lemma parseFields_error_grow (fs : list string) (acc acc' : slice Z) e :
  parseFields fs acc = Some (inl e) →
  len acc ≤ len acc' → len acc' ≤ maxIDsSize →
  parseFields fs acc' = Some (inl e) ∨
  parseFields fs acc' = Some (inl ErrMaxSize).
Proof.
  revert acc acc'.
  induction fs as [|f rest IH]; intros acc acc' Hrun Hle Hmax; [done|].
  cbn [parseFields] in *.
  destruct (parseID acc f) as [[e1|r1]|] eqn:Hf; [| |done].
  - injection Hrun as <-. left.
    by rewrite (parseID_error_grow acc acc' f e1 Hf Hle).
  - destruct (parseID_grow acc acc' r1 f Hf Hle Hmax)
      as (l1 & Hl1 & _ & ->).
    destruct (Z.leb_spec (len acc' + Z.of_nat (length l1)) maxIDsSize);
      [|by right].
    apply (IH r1); [done| |].
    + rewrite len_appendAll. unfold len in *. rewrite Hl1, length_app. lia.
    + rewrite len_appendAll. lia.
Qed.

(** X13: the parser always returns (the loop over a range ends within its
    bound): either an error, or at most 8192 IDs, each of them an [int]. The
    result is nil only for the empty list of specifications. *)
Theorem parseIDs_returns_bounded (allIDsStrings : list string) :
  ∃ r, parseIDs allIDsStrings = Some r ∧
       ∀ ids, r = inr ids →
         len ids ≤ maxIDsSize ∧
         (∀ x, x ∈ elems ids → minInt ≤ x ≤ maxInt) ∧
         (ids = None ↔ allIDsStrings = []).
Proof.
  destruct (parseIDs_total allIDsStrings) as [r Hr]. exists r.
  split; [done|]. intros ids ->.
  pose proof Hr as Hrun. rewrite parseIDs_fields in Hrun.
  destruct (parseFields_grow _ None None ids Hrun) as (l & Hl & Hrange & Hrun');
    [done|by rewrite maxIDsSize_eq|].
  rewrite Hrun in Hrun'. simpl in Hl.
  destruct (Z.leb_spec (len (@None (list Z)) + Z.of_nat (length l)) maxIDsSize)
    as [Hfit|]; [|done].
  split; [|split].
  - unfold len in *. rewrite Hl. simpl in Hfit. lia.
  - intros x Hx. rewrite Hl in Hx. by apply (proj1 (Forall_forall _ _) Hrange).
  - destruct allIDsStrings as [|s rest].
    + by injection Hr as <-.
    + destruct (parseIDs_nonempty s rest ids Hr) as (x & xs & ->). done.
Qed.

Lemma Atoi_error (s : string) (v : Z) (err : error) :
  Atoi s = (v, Some err) →
  err = ErrSyntax "Atoi" s ∨ err = ErrRange "Atoi" s.
Proof.
  unfold Atoi.
  destruct (match s with
            | EmptyString => _
            | String _ _ => _
            end) as [neg body].
  destruct (ParseUint body) as [[]|un].
  - intros [= _ <-]. by left.
  - intros [= _ <-]. by right.
  - destruct (negb neg && (maxInt <? un)); [intros [= _ <-]; by right|].
    destruct (neg && (maxInt + 1 <? un)); [intros [= _ <-]; by right|done].
Qed.

(** The errors of one field. *)
Lemma parseID_error_inv (acc : slice Z) (f : string) (e : error) :
  parseID acc f = Some (inl e) →
  e = ErrMaxSize ∨
  (∃ a b, Sscanf (TrimSpace f) = Some (a, b) ∧ b ≤ a ∧
          e = ErrEqualOrGreater a b) ∨
  (∃ v err, Sscanf (TrimSpace f) = None ∧
            Atoi (TrimSpace f) = (v, Some err) ∧
            e = ErrWrongFormat (TrimSpace f) err).
Proof.
  unfold parseID.
  destruct (Sscanf (TrimSpace f)) as [[a b]|].
  - destruct (Z.geb_spec a b) as [Hge|Hlt].
    + intros [= <-]. right. left. exists a, b. split; [done|].
      split; [lia|done].
    + intros Hrun. left.
      by destruct (rangeLoop_error_grow _ _ _ acc acc e Hrun).
  - destruct (Atoi (TrimSpace f)) as [num [err|]] eqn:Hnum.
    + intros [= <-]. right. right. by exists num, err.
    + destruct (len acc + 1 >? maxIDsSize); [|done]. intros [= <-]. by left.
Qed.

Lemma parseFields_error_inv (fs : list string) (acc : slice Z) (e : error) :
  parseFields fs acc = Some (inl e) →
  ∃ f r, f ∈ fs ∧ parseID r f = Some (inl e).
Proof.
  revert acc. induction fs as [|f rest IH]; intros acc Hrun; [done|].
  cbn [parseFields] in Hrun.
  destruct (parseID acc f) as [[e1|r1]|] eqn:Hf; [| |done].
  - injection Hrun as <-. exists f, acc. split; [apply list_elem_of_here|done].
  - destruct (IH r1 Hrun) as (f' & r & Hin & Hf').
    exists f', r. split; [by apply list_elem_of_further|done].
Qed.

(** X14: every error of the parser is one of three: the size error, the
    error of a range whose end is not above its start, carrying the two
    numbers of a field, or the error of a field that is neither a range nor
    a number, carrying the trimmed field and the syntax or range error of
    [strconv.Atoi]. So a parse fails with a format error or with the
    capacity error, and with nothing else. *)
Theorem parseIDs_errors (allIDsStrings : list string) (e : error) :
  parseIDs allIDsStrings = Some (inl e) →
  (isFormatError e = true ∨ isCapacityError e = true) ∧
  (e = ErrMaxSize ∨
   ∃ f, f ∈ fields allIDsStrings ∧
     ((∃ a b, Sscanf (TrimSpace f) = Some (a, b) ∧ b ≤ a ∧
              e = ErrEqualOrGreater a b) ∨
      (∃ v err, Sscanf (TrimSpace f) = None ∧
                Atoi (TrimSpace f) = (v, Some err) ∧
                e = ErrWrongFormat (TrimSpace f) err ∧
                (err = ErrSyntax "Atoi" (TrimSpace f) ∨
                 err = ErrRange "Atoi" (TrimSpace f))))).
Proof.
  rewrite parseIDs_fields.
  intros (f & r & Hin & Hf)%parseFields_error_inv.
  destruct (parseID_error_inv r f e Hf)
    as [->|[(a & b & Hs & Hab & ->)|(v & err & Hs & Ha & ->)]].
  - split; [by right|by left].
  - split; [by left|]. right. exists f. split; [done|]. left. by exists a, b.
  - split; [by left|]. right. exists f. split; [done|]. right.
    exists v, err. split; [done|]. split; [done|]. split; [done|].
    by apply (Atoi_error _ v).
Qed.

Lemma parseIDs_errors_witness :
  isFormatError (ErrWrongFormat "x" (ErrSyntax "Atoi" "x")) = true ∨
  isCapacityError (ErrWrongFormat "x" (ErrSyntax "Atoi" "x")) = true.
Proof.
  apply (parseIDs_errors ["1, x"] (ErrWrongFormat "x" (ErrSyntax "Atoi" "x"))).
  reflexivity.
Defined.

Lemma Split_app_comma (s1 s2 : string) :
  Split (String.append s1 (String comma s2)) = Split s1 ++ Split s2.
Proof.
  induction s1 as [|c s1 IH]; [done|].
  rewrite append_cons. cbn [Split]. rewrite IH.
  destruct (Ascii.eqb c comma); [done|].
  by destruct (Split_nonempty s1) as (f & fs & ->).
Qed.

Lemma Split_joinComma (fs : list string) :
  fs ≠ [] → Split (joinComma fs) = flat_map Split fs.
Proof.
  induction fs as [|f rest IH]; [done|]. intros _.
  destruct rest as [|g rest].
  - simpl. by rewrite app_nil_r.
  - change (joinComma (f :: g :: rest))
      with (String.append f (String comma (joinComma (g :: rest)))).
    rewrite Split_app_comma, IH by done. done.
Qed.

(** X15: a comma inside a specification and the boundary between two
    specifications of the list mean the same: splitting a specification at
    a comma, or joining the whole list with commas into one specification,
    does not change the result of the parse, error included. *)
Theorem parseIDs_comma_is_boundary :
  (∀ l1 s1 s2 l2,
     parseIDs (l1 ++ String.append s1 (String comma s2) :: l2) =
     parseIDs (l1 ++ s1 :: s2 :: l2)) ∧
  (∀ l, l ≠ [] → parseIDs [joinComma l] = parseIDs l).
Proof.
  split.
  - intros l1 s1 s2 l2. rewrite !parseIDs_fields. unfold fields.
    rewrite !flat_map_app. simpl. by rewrite Split_app_comma, <- app_assoc.
  - intros l Hl. rewrite !parseIDs_fields. unfold fields at 1. simpl.
    by rewrite app_nil_r, Split_joinComma.
Qed.

(** X16: parsing two lists of specifications one after the other. An error
    of the first list is the error of the whole. When both lists parse, the
    whole parses to the IDs of the first followed by the IDs of the second,
    unless they are more than 8192 together, which is the size error. When
    only the second list fails, the whole fails with the same error or with
    the size error. *)
Theorem parseIDs_app (l1 l2 : list string) :
  (∀ e, parseIDs l1 = Some (inl e) → parseIDs (l1 ++ l2) = Some (inl e)) ∧
  (∀ ids1 ids2,
     parseIDs l1 = Some (inr ids1) → parseIDs l2 = Some (inr ids2) →
     parseIDs (l1 ++ l2) =
       Some (if len ids1 + len ids2 <=? maxIDsSize
             then inr (appendAll ids1 (elems ids2))
             else inl ErrMaxSize)) ∧
  (∀ ids1 e,
     parseIDs l1 = Some (inr ids1) → parseIDs l2 = Some (inl e) →
     parseIDs (l1 ++ l2) = Some (inl e) ∨
     parseIDs (l1 ++ l2) = Some (inl ErrMaxSize)).
Proof.
  rewrite !parseIDs_fields. unfold fields. rewrite flat_map_app.
  rewrite parseFields_app. fold (fields l1) (fields l2).
  assert (Hbound : ∀ ids1, parseFields (fields l1) None = Some (inr ids1) →
                           len ids1 ≤ maxIDsSize).
  { intros ids1 H1.
    destruct (parseFields_total (fields l1) None)
      as [(r' & l' & Hr' & _ & ?)|[e He]];
      [by rewrite maxIDsSize_eq| |congruence].
    congruence. }
  split; [|split].
  - by intros e ->.
  - intros ids1 ids2 H1 H2. rewrite H1.
    destruct (parseFields_grow _ None ids1 ids2 H2) as (l & Hl & _ & ->).
    { apply len_nonneg. }
    { by apply Hbound. }
    simpl in Hl. subst l. done.
  - intros ids1 e H1 H2. rewrite H1.
    apply (parseFields_error_grow _ None); [done| |by apply Hbound].
    apply len_nonneg.
Qed.

(** *** Written tokens *)

Lemma expandID_printToken (t : idToken) :
  validToken t → expandID (printToken t) = Some (tokenIDs t).
Proof.
  unfold expandID. destruct t as [n|a b]; simpl; intros Hv;
    unfold maxInt in *.
  - rewrite TrimSpace_decimal, Sscanf_decimal by (unfold maxUint; lia).
    by rewrite Atoi_decimal.
  - rewrite TrimSpace_rangeToken, Sscanf_rangeToken by (unfold maxUint; lia).
    destruct (Z.ltb_spec a b); [|lia].
    destruct (Z.leb_spec b (2 ^ 63 - 1)); [done|lia].
Qed.

Lemma hasComma_printToken (t : idToken) :
  validToken t → hasComma (printToken t) = false.
Proof.
  destruct t as [n|a b]; simpl; intros Hv.
  - unfold decimal. by rewrite hasComma_decimalAux by lia.
  - unfold rangeToken, decimal.
    rewrite decimalAux_append, hasComma_decimalAux by lia.
    change (String.append EmptyString ?s) with s.
    change (hasComma (String minus ?s)) with (hasComma s).
    by rewrite hasComma_decimalAux by lia.
Qed.

Lemma fields_printToken (ts : list idToken) :
  Forall validToken ts → fields (map printToken ts) = map printToken ts.
Proof.
  unfold fields. induction 1 as [|t ts Ht _ IH]; [done|].
  simpl. by rewrite IH, Split_no_comma by by apply hasComma_printToken.
Qed.

Lemma expandAll_printToken (ts : list idToken) :
  Forall validToken ts →
  expandAll (map printToken ts) = Some (flat_map tokenIDs ts).
Proof.
  induction 1 as [|t ts Ht _ IH]; [done|].
  simpl. by rewrite expandID_printToken, IH.
Qed.

Lemma parseIDs_joinComma (l : list string) :
  l ≠ [] → parseIDs [joinComma l] = parseIDs l.
Proof.
  intros Hl. rewrite !parseIDs_fields. unfold fields at 1. simpl.
  by rewrite app_nil_r, Split_joinComma.
Qed.

(** X17: what is written is read back. Valid tokens (a non-negative [int],
    or a range "a-b" of them with [a < b]) written in decimal, given one per
    specification or joined by commas into one, parse to the IDs they stand
    for, in the order written: [n] for a single ID and a, a+1, ..., b for a
    range. With more than 8192 IDs, the size error is the result. *)
Theorem parseIDs_printed_tokens (ts : list idToken) :
  ts ≠ [] → Forall validToken ts →
  (Z.of_nat (length (flat_map tokenIDs ts)) ≤ maxIDsSize →
   parseIDs (map printToken ts) = Some (inr (Some (flat_map tokenIDs ts))) ∧
   parseIDs [joinComma (map printToken ts)] =
     Some (inr (Some (flat_map tokenIDs ts)))) ∧
  (maxIDsSize < Z.of_nat (length (flat_map tokenIDs ts)) →
   parseIDs (map printToken ts) = Some (inl ErrMaxSize) ∧
   parseIDs [joinComma (map printToken ts)] = Some (inl ErrMaxSize)).
Proof.
  intros Hne Hvalid.
  assert (Hne' : map printToken ts ≠ []) by by destruct ts.
  rewrite (parseIDs_joinComma _ Hne').
  pose proof (expandAll_printToken ts Hvalid) as Hall.
  rewrite <- (fields_printToken ts Hvalid) in Hall.
  destruct (parseIDs_ceiling _ _ Hall) as [Hover Hfit].
  split.
  - intros Hsz. destruct (Hfit Hsz) as (ids & Hrun & Hids).
    destruct ts as [|t ts]; [done|].
    destruct (parseIDs_nonempty _ _ ids Hrun) as (x & xs & ->).
    simpl in Hids. by rewrite Hrun, Hids.
  - intros Hsz. by rewrite (Hover Hsz).
Qed.

Lemma parseIDs_printed_tokens_witness :
  parseIDs ["0"; "2-4"; "7"] = Some (inr (Some [0; 2; 3; 4; 7])) ∧
  parseIDs ["0,2-4,7"] = Some (inr (Some [0; 2; 3; 4; 7])).
Proof.
  apply (parseIDs_printed_tokens [Single 0; Range 2 4; Single 7]).
  - done.
  - repeat (apply Forall_cons_2; [simpl; unfold maxInt; lia|]).
    apply Forall_nil_2.
  - vm_compute. discriminate.
Defined.

(** ** Deduplication, once more *)

Lemma removeDuplicateValuesLoop_exact (l : list Z) (keys : gmap Z bool)
    (result duplicates : slice Z) :
  (∀ x, is_Some (keys !! x) ↔ x ∈ elems result) →
  removeDuplicateValuesLoop l keys result duplicates =
    (appendAll result (firstOccurrences (elems result) l),
     appendAll duplicates (laterOccurrences (elems result) l)).
Proof.
  revert keys result duplicates.
  induction l as [|y rest IH]; intros keys result duplicates Hkeys; simpl;
    [done|].
  destruct (keys !! y) as [v|] eqn:Hy.
  - rewrite bool_decide_eq_true_2 by (apply Hkeys; by eexists).
    rewrite (IH keys result (append duplicates y) Hkeys).
    by rewrite appendAll_append.
  - rewrite bool_decide_eq_false_2
      by (intros Hin; apply Hkeys in Hin as [? ?]; congruence).
    rewrite (IH (<[y:=true]> keys) (append result y) duplicates).
    + by rewrite appendAll_append.
    + intros x. simpl. rewrite elem_of_app, list_elem_of_singleton.
      rewrite <- Hkeys. destruct (decide (y = x)) as [->|Hne].
      * rewrite lookup_insert_eq. split; [by right|by eexists].
      * rewrite lookup_insert_ne by done. split; [by left|].
        intros [?|?]; [done|congruence].
Qed.

Lemma removeDuplicateValues_exact (intSlice : slice Z) :
  removeDuplicateValues intSlice =
    (appendAll None (firstOccurrences [] (elems intSlice)),
     appendAll None (laterOccurrences [] (elems intSlice))).
Proof.
  unfold removeDuplicateValues.
  apply (removeDuplicateValuesLoop_exact (elems intSlice) ∅ None None).
  intros x. simpl. rewrite lookup_empty. split.
  - by intros [? ?].
  - by intros ?%elem_of_nil.
Qed.

Lemma occurrences_NoDup (seen l : list Z) :
  NoDup (seen ++ l) →
  firstOccurrences seen l = l ∧ laterOccurrences seen l = [].
Proof.
  revert seen. induction l as [|x rest IH]; intros seen Hnd; [done|].
  simpl.
  assert (Hx : x ∉ seen).
  { apply NoDup_app in Hnd as (_ & Hdisj & _). intros Hin.
    apply (Hdisj x Hin). apply list_elem_of_here. }
  rewrite bool_decide_eq_false_2 by done.
  destruct (IH (seen ++ [x])) as [-> ->]; [|done].
  by rewrite <- app_assoc.
Qed.

(** X18: [removeDuplicateValues] loses no value and keeps none twice: the
    two slices it returns have together the length of its argument; the
    first holds every value of the argument, so [contains] answers the same
    on both; a slice without repetitions comes back as it is, with no
    duplicates reported; and applying the function to its own result changes
    nothing. The result is nil exactly for an argument without elements. *)
Theorem removeDuplicateValues_idempotent (intSlice : slice Z) :
  ∃ result duplicates,
    removeDuplicateValues intSlice = (result, duplicates) ∧
    len result + len duplicates = len intSlice ∧
    removeDuplicateValues result = (result, None) ∧
    (NoDup (elems intSlice) →
     elems result = elems intSlice ∧ duplicates = None) ∧
    (∀ e, contains (elems result) e = contains (elems intSlice) e) ∧
    (result = None ↔ elems intSlice = []).
Proof.
  rewrite removeDuplicateValues_exact. eexists _, _. split; [done|].
  set (l := elems intSlice).
  assert (Hnd : NoDup (firstOccurrences [] l))
    by apply (firstOccurrences_NoDup [] l), NoDup_nil_2.
  split; [|split; [|split; [|split]]].
  - rewrite !len_appendAll. unfold len. fold l. simpl.
    pose proof (Permutation_length (occurrences_Permutation [] l)) as Hlen.
    rewrite length_app in Hlen. lia.
  - rewrite removeDuplicateValues_exact, elems_appendAll. simpl.
    by destruct (occurrences_NoDup [] _ Hnd) as [-> ->].
  - intros Hl. destruct (occurrences_NoDup [] l Hl) as [-> ->].
    by rewrite elems_appendAll.
  - intros e. rewrite elems_appendAll. simpl.
    apply eq_true_iff_eq. rewrite !contains_elem_of.
    pose proof (firstOccurrences_elem [] l e) as Hel. simpl in Hel.
    rewrite Hel. split; [|by right]. intros [?%elem_of_nil|?]; done.
  - destruct l as [|x rest]; simpl; done.
Qed.

(** ** The path of an uncore frequency file *)

Lemma byte_of_inj (c d : ascii) : byte_of c = byte_of d → c = d.
Proof.
  unfold byte_of. intros H%N2Z.inj.
  by rewrite <- (ascii_N_embedding c), <- (ascii_N_embedding d), H.
Qed.

Lemma String_neq (c : ascii) (s : string) : String c s ≠ s.
Proof.
  revert c. induction s as [|d s IH]; intros c; [done|].
  intros [= _ H]. by apply (IH d).
Qed.

(** When the comparison with "0" and "9" holds: for "9" itself and for
    every string whose first byte is one of '0' to '8'. *)
Lemma zeroPrefixed_cases (id : string) :
  (stringLe "0" id && stringLe id "9" = true) ↔
  id = "9" ∨ ∃ c rest, id = String c rest ∧ 48 ≤ byte_of c ≤ 56.
Proof.
  destruct id as [|c rest].
  - simpl. split; [done|]. intros [?|(? & ? & ? & _)]; done.
  - assert (H1 : stringLe "0" (String c rest) = true ↔ 48 ≤ byte_of c).
    { cbn [stringLe]. change (byte_of "0") with 48.
      destruct (Z.ltb_spec 48 (byte_of c)); [split; [lia|done]|].
      destruct (Z.eqb_spec 48 (byte_of c)); [|split; [done|lia]].
      split; [lia|]. intros _. by destruct rest. }
    assert (H2 : stringLe (String c rest) "9" = true ↔
                 byte_of c < 57 ∨ (byte_of c = 57 ∧ rest = EmptyString)).
    { cbn [stringLe]. change (byte_of "9") with 57.
      destruct (Z.ltb_spec (byte_of c) 57); [split; [by left|done]|].
      destruct (Z.eqb_spec (byte_of c) 57).
      - destruct rest; simpl.
        + split; [by right|done].
        + split; [done|]. intros [?|[_ ?]]; [lia|done].
      - split; [done|]. intros [?|[? _]]; lia. }
    rewrite andb_true_iff, H1, H2. split.
    + intros [Ha [Hb|[Hb ->]]].
      * right. exists c, rest. split; [done|lia].
      * left. f_equal. by apply byte_of_inj.
    + intros [[= -> ->]|(c' & rest' & [= <- <-] & ?)].
      * change (byte_of "9") with 57. split; [lia|by right].
      * split; [lia|]. left. lia.
Qed.

Lemma decimal_one_digit (n : Z) :
  0 ≤ n ≤ 9 → decimal n = String (digitChar n) EmptyString.
Proof.
  intros Hn. unfold decimal. cbn [decimalAux].
  destruct (Z.ltb_spec n 10); [|lia]. by rewrite Z.mod_small by lia.
Qed.

Lemma decimal_two_digits (n : Z) :
  10 ≤ n ≤ 99 →
  decimal n =
    String (digitChar (n / 10)) (String (digitChar (n mod 10)) EmptyString).
Proof.
  intros Hn. unfold decimal.
  assert (Hlog : 3 ≤ Z.log2 n).
  { apply Z.log2_le_pow2; [lia|]. change (2 ^ 3) with 8. lia. }
  destruct (Z.to_nat (Z.log2 n)) as [|k] eqn:Hk; [lia|].
  cbn [decimalAux].
  destruct (Z.ltb_spec n 10); [lia|].
  assert (Hq : 1 ≤ n / 10 ≤ 9).
  { split.
    - apply Z.div_le_lower_bound; lia.
    - apply Z.lt_succ_r, Z.div_lt_upper_bound; lia. }
  destruct (Z.ltb_spec (n / 10) 10); [|lia].
  by rewrite (Z.mod_small (n / 10)) by lia.
Qed.

(** X19: which IDs [createUncoreFreqPath] pads with a zero. The test
    [id >= "0" && id <= "9"] compares strings, so it holds for "9" and for
    every ID whose first byte is one of '0' to '8', of any length: the
    one-digit IDs 0 to 9 are padded to two characters, the IDs 10 to 89 are
    padded as well, to three, and the IDs 90 to 99 are not. The padded IDs
    are what the path is made of. *)
Theorem createUncoreFreqPath_padding :
  (∀ id, zeroPrefixed id = String.append "0" id ↔
         id = "9" ∨ ∃ c rest, id = String c rest ∧ 48 ≤ byte_of c ≤ 56) ∧
  (∀ id, zeroPrefixed id = String.append "0" id ∨ zeroPrefixed id = id) ∧
  (∀ n, 0 ≤ n ≤ 89 → zeroPrefixed (decimal n) = String.append "0" (decimal n)) ∧
  (∀ n, 90 ≤ n ≤ 99 → zeroPrefixed (decimal n) = decimal n) ∧
  (∀ socketID typeFreq kind die path,
     createUncoreFreqPath socketID typeFreq kind die = inr path →
     ∃ file,
       path =
         String.append "/sys/devices/system/cpu/intel_uncore_frequency/package_"
           (String.append (zeroPrefixed socketID)
              (String.append "_die_"
                 (String.append (zeroPrefixed die) (String slash file))))).
Proof.
  assert (Hiff : ∀ id, zeroPrefixed id = String.append "0" id ↔
    id = "9" ∨ ∃ c rest, id = String c rest ∧ 48 ≤ byte_of c ≤ 56).
  { intros id. rewrite <- zeroPrefixed_cases. unfold zeroPrefixed.
    destruct (stringLe "0" id && stringLe id "9"); [done|].
    split; [|done]. intros H. symmetry in H. by apply String_neq in H. }
  assert (Hdigit : ∀ d, 0 ≤ d ≤ 9 → byte_of (digitChar d) = 48 + d).
  { intros d Hd. by apply byte_of_digitChar. }
  split; [exact Hiff|]. split; [|split; [|split]].
  - intros id. unfold zeroPrefixed.
    destruct (stringLe "0" id && stringLe id "9"); by auto.
  - intros n Hn. apply Hiff.
    destruct (Z.le_gt_cases n 9) as [H9|H9].
    + rewrite decimal_one_digit by lia.
      destruct (Z.eq_dec n 9) as [->|Hne]; [by left|].
      right. eexists _, _. split; [done|]. rewrite Hdigit by lia. lia.
    + rewrite decimal_two_digits by lia.
      right. eexists _, _. split; [done|].
      assert (1 ≤ n / 10 ≤ 8).
      { split.
        - apply Z.div_le_lower_bound; lia.
        - apply Z.lt_succ_r, Z.div_lt_upper_bound; lia. }
      rewrite Hdigit by lia. lia.
  - intros n Hn. unfold zeroPrefixed.
    destruct (stringLe "0" (decimal n) && stringLe (decimal n) "9") eqn:Hp;
      [|done].
    apply zeroPrefixed_cases in Hp. rewrite decimal_two_digits in Hp by lia.
    assert (Hq : n / 10 = 9).
    { apply Z.le_antisymm.
      - apply Z.lt_succ_r, Z.div_lt_upper_bound; lia.
      - apply Z.div_le_lower_bound; lia. }
    rewrite Hq in Hp.
    destruct Hp as [[=]|(c & rest & [= <- <-] & Hc)].
    vm_compute in Hc. destruct Hc as [_ Hc]. by destruct Hc.
  - intros socketID typeFreq kind die path. unfold createUncoreFreqPath.
    destruct (if String.eqb typeFreq "initial" then _ else _) as [prefix|];
      [|done].
    destruct (negb (String.eqb kind "min") && negb (String.eqb kind "max"));
      [done|].
    intros [= <-]. by eexists.
Qed.

(** ** The single-register read and the frequency files *)

Lemma msrAddress_table (msr : string) (a : Z) :
  msrAddress msr = Some a ↔ (msr, a) ∈ namedRegisters.
Proof.
  unfold msrAddress, namedRegisters. split.
  - repeat (match goal with
            | |- context [String.eqb msr ?s] =>
                destruct (String.eqb_spec msr s) as [->|?]
            end;
            [intros [= <-];
             repeat first [apply list_elem_of_here
                          |apply list_elem_of_further]|]).
    done.
  - rewrite !elem_of_cons, elem_of_nil.
    intros [[= -> ->]|[[= -> ->]|[[= -> ->]|[[= -> ->]|[[= -> ->]|[[= -> ->]|
            [[= -> ->]|[]]]]]]]]; reflexivity.
Qed.

(** X20: [readSingleMsr] returns a value exactly when the register file of
    the core passes the check and opens, the name is one of the seven it
    knows, and the read at the register of that name gives the value. A name
    it does not know is reported only once the file has passed the check and
    opened. The seven names stand for seven different registers, none of
    which is among the offsets a refresh reads. *)
Theorem readSingleMsr_outcome (fs : fileService) (core msr : string) :
  (∀ v, readSingleMsr fs core msr = inr v ↔
        checkFile fs (msrPath core) = None ∧
        ∃ rd a, osOpen fs (msrPath core) = inr rd ∧
                (msr, a) ∈ namedRegisters ∧
                readFileAtOffsetToUint64 fs rd a = inr v) ∧
  (∀ n, readSingleMsr fs core msr = inl (ErrIncorrectName n) ↔
        n = msr ∧ checkFile fs (msrPath core) = None ∧
        (∃ rd, osOpen fs (msrPath core) = inr rd) ∧
        ∀ a, (msr, a) ∉ namedRegisters) ∧
  (∀ a, (msr, a) ∈ namedRegisters → a ∉ msrOffsets) ∧
  (∀ msr' a, (msr, a) ∈ namedRegisters → (msr', a) ∈ namedRegisters →
             msr' = msr).
Proof.
  split; [|split; [|split]].
  - intros v. unfold readSingleMsr.
    destruct (checkFile fs (msrPath core)) as [e|].
    { split; [done|]. by intros [? _]. }
    destruct (osOpen fs (msrPath core)) as [e|rd].
    { split; [done|]. by intros (_ & ? & ? & ? & _). }
    destruct (msrAddress msr) as [a|] eqn:Ha.
    + apply msrAddress_table in Ha.
      destruct (readFileAtOffsetToUint64 fs rd a) as [e|v'] eqn:Hrd.
      * split; [done|]. intros (_ & rd' & a' & [= <-] & Ha' & Hrd').
        apply msrAddress_table in Ha, Ha'. congruence.
      * split.
        -- intros [= <-]. split; [done|]. by exists rd, a.
        -- intros (_ & rd' & a' & [= <-] & Ha' & Hrd').
           apply msrAddress_table in Ha, Ha'. congruence.
    + split; [done|]. intros (_ & rd' & a' & _ & Ha' & _).
      apply msrAddress_table in Ha'. congruence.
  - intros n. unfold readSingleMsr.
    destruct (checkFile fs (msrPath core)) as [e|].
    { split; [done|]. by intros (_ & ? & _). }
    destruct (osOpen fs (msrPath core)) as [e|rd].
    { split; [done|]. by intros (_ & _ & [? ?] & _). }
    destruct (msrAddress msr) as [a|] eqn:Ha.
    + apply msrAddress_table in Ha. split.
      * by destruct (readFileAtOffsetToUint64 fs rd a).
      * intros (_ & _ & _ & Hno). by destruct (Hno a).
    + split.
      * intros [= <-]. split; [done|]. split; [done|]. split; [by eexists|].
        intros a Hin%msrAddress_table. congruence.
      * by intros (-> & _).
  - intros a Hin.
    assert (H : Forall (λ p, p.2 ∉ msrOffsets) namedRegisters)
      by (apply (bool_decide_unpack _); by vm_compute).
    rewrite Forall_forall in H. apply (H _ Hin).
  - intros msr' a H1 H2.
    assert (H : Forall (λ p, Forall (λ q, p.2 = q.2 → p.1 = q.1)
                               namedRegisters) namedRegisters)
      by (apply (bool_decide_unpack _); by vm_compute).
    rewrite Forall_forall in H. specialize (H _ H2).
    rewrite Forall_forall in H. by apply (H _ H1).
Qed.

Lemma createUncoreFreqPath_valid (socketID typeFreq kind die : string) :
  (validFrequency typeFreq kind →
   ∃ path, createUncoreFreqPath socketID typeFreq kind die = inr path) ∧
  (¬ validFrequency typeFreq kind →
   ∃ cause,
     createUncoreFreqPath socketID typeFreq kind die = inl cause ∧
     (cause = ErrUnknownFrequencyType typeFreq ∧
      typeFreq ≠ "initial" ∧ typeFreq ≠ "current"
      ∨ cause = ErrUnknownFrequencyKind kind ∧
        (typeFreq = "initial" ∨ typeFreq = "current"))).
Proof.
  unfold validFrequency, createUncoreFreqPath.
  destruct (String.eqb_spec typeFreq "initial") as [Hi|Hi];
    [|destruct (String.eqb_spec typeFreq "current") as [Hc|Hc]].
  - destruct (String.eqb_spec kind "min") as [Hm|Hm];
      [|destruct (String.eqb_spec kind "max") as [Hx|Hx]]; simpl.
    + split; [by eauto|]. intros []. by auto.
    + split; [by eauto|]. intros []. by auto.
    + split.
      * intros [_ [?|?]]; done.
      * intros _. eexists. split; [done|]. right. by auto.
  - destruct (String.eqb_spec kind "min") as [Hm|Hm];
      [|destruct (String.eqb_spec kind "max") as [Hx|Hx]]; simpl.
    + split; [by eauto|]. intros []. by auto.
    + split; [by eauto|]. intros []. by auto.
    + split.
      * intros [_ [?|?]]; done.
      * intros _. eexists. split; [done|]. right. by auto.
  - split.
    + intros [[?|?] _]; done.
    + intros _. eexists. split; [done|]. left. by auto.
Qed.

(** X21: [retrieveUncoreFrequency] looks at no file when the frequency type
    or kind is not one it accepts: whatever the file service holds, it
    returns zero and the error of [createUncoreFreqPath] wrapped with the
    socket and the type, the type being judged before the kind. It returns
    without error exactly when the arguments are accepted and the file at
    the path made of them passes the check, opens and reads; what it returns
    after the read is the converted value, also next to a read error. *)
Theorem retrieveUncoreFrequency_outcome
    (fs : fileService) (ff : floatService fs)
    (socketID typeFreq kind die : string) :
  (¬ validFrequency typeFreq kind →
   ∃ cause,
     retrieveUncoreFrequency fs ff socketID typeFreq kind die =
       (zeroFloat ff, Some (ErrUncoreFreqPath socketID typeFreq cause)) ∧
     (cause = ErrUnknownFrequencyType typeFreq ∧
      typeFreq ≠ "initial" ∧ typeFreq ≠ "current"
      ∨ cause = ErrUnknownFrequencyKind kind ∧
        (typeFreq = "initial" ∨ typeFreq = "current"))) ∧
  (snd (retrieveUncoreFrequency fs ff socketID typeFreq kind die) = None ↔
   validFrequency typeFreq kind ∧
   ∃ path rd,
     createUncoreFreqPath socketID typeFreq kind die = inr path ∧
     checkFile fs path = None ∧ osOpen fs path = inr rd ∧
     snd (readFileToFloat64 ff rd) = None) ∧
  (∀ path rd,
     createUncoreFreqPath socketID typeFreq kind die = inr path →
     checkFile fs path = None → osOpen fs path = inr rd →
     retrieveUncoreFrequency fs ff socketID typeFreq kind die =
       (convertKiloHertzToMegaHertz ff (fst (readFileToFloat64 ff rd)),
        option_map ErrOf (snd (readFileToFloat64 ff rd)))) ∧
  (∀ path,
     createUncoreFreqPath socketID typeFreq kind die = inr path →
     (is_Some (checkFile fs path) ∨ ∃ e, osOpen fs path = inl e) →
     fst (retrieveUncoreFrequency fs ff socketID typeFreq kind die)
       = zeroFloat ff).
Proof.
  destruct (createUncoreFreqPath_valid socketID typeFreq kind die)
    as [Hvalid Hinvalid].
  unfold retrieveUncoreFrequency. split; [|split; [|split]].
  - intros (cause & -> & Hc)%Hinvalid. by exists cause.
  - destruct (createUncoreFreqPath socketID typeFreq kind die)
      as [cause|path] eqn:Hpath.
    { split; [done|]. intros [Hv _]. by destruct (Hvalid Hv). }
    assert (Hv : validFrequency typeFreq kind).
    { destruct (decide (validFrequency typeFreq kind)) as [|Hn]; [done|].
      by destruct (Hinvalid Hn) as (? & ? & _). }
    destruct (checkFile fs path) as [e|] eqn:Hck.
    { split; [done|]. intros (_ & p & rd & [= <-] & ? & _). congruence. }
    destruct (osOpen fs path) as [e|rd] eqn:Hop.
    { split; [done|]. intros (_ & p & rd & [= <-] & _ & ? & _). congruence. }
    destruct (readFileToFloat64 ff rd) as [v [e|]] eqn:Hrd; simpl.
    + split; [done|]. intros (_ & p & rd' & [= <-] & _ & Hop' & Hrd').
      rewrite Hop in Hop'. injection Hop' as <-. by rewrite Hrd in Hrd'.
    + split; [|done]. intros _. split; [done|]. exists path, rd.
      by rewrite Hrd.
  - intros path rd -> -> ->. by destruct (readFileToFloat64 ff rd).
  - intros path -> [[e He]|[e He]].
    + by rewrite He.
    + rewrite He. by destruct (checkFile fs path).
Qed.

(** X22: [retrieveCPUFrequencyForCore] returns without error exactly when
    the file scaling_cur_freq of the core passes the check, opens and reads.
    It returns zero when the check or the open fails; after the read it
    returns the converted value and the error of the read as it is, so a
    failed read does not reset the value to zero. *)
Theorem retrieveCPUFrequencyForCore_outcome
    (fs : fileService) (ff : floatService fs) (core : string) :
  (snd (retrieveCPUFrequencyForCore fs ff core) = None ↔
   checkFile fs (cpuFreqPath core) = None ∧
   ∃ rd, osOpen fs (cpuFreqPath core) = inr rd ∧
         snd (readFileToFloat64 ff rd) = None) ∧
  (∀ rd,
     checkFile fs (cpuFreqPath core) = None →
     osOpen fs (cpuFreqPath core) = inr rd →
     retrieveCPUFrequencyForCore fs ff core =
       (convertKiloHertzToMegaHertz ff (fst (readFileToFloat64 ff rd)),
        option_map ErrOf (snd (readFileToFloat64 ff rd)))) ∧
  (∀ e, checkFile fs (cpuFreqPath core) = Some e →
        retrieveCPUFrequencyForCore fs ff core = (zeroFloat ff, Some (ErrOf e))) ∧
  (∀ e, checkFile fs (cpuFreqPath core) = None →
        osOpen fs (cpuFreqPath core) = inl e →
        retrieveCPUFrequencyForCore fs ff core =
          (zeroFloat ff, Some (ErrOpenCurFreq (cpuFreqPath core) e))).
Proof.
  unfold retrieveCPUFrequencyForCore. split; [|split; [|split]].
  - destruct (checkFile fs (cpuFreqPath core)) as [e|].
    { split; [done|]. by intros [? _]. }
    destruct (osOpen fs (cpuFreqPath core)) as [e|rd].
    { split; [done|]. by intros (_ & ? & ? & _). }
    destruct (readFileToFloat64 ff rd) as [v [e|]] eqn:Hrd; simpl.
    + split; [done|]. intros (_ & rd' & [= <-] & Hrd').
      by rewrite Hrd in Hrd'.
    + split; [|done]. intros _. split; [done|]. exists rd. by rewrite Hrd.
  - intros rd -> ->. by destruct (readFileToFloat64 ff rd).
  - by intros e ->.
  - by intros e -> ->.
Qed.

(** ** The files of different cores *)

Lemma append_inj_l (p x y : string) :
  String.append p x = String.append p y → x = y.
Proof.
  induction p as [|c p IH]; [done|]. rewrite !append_cons.
  intros [= H]. by apply IH.
Qed.

Lemma length_append (s t : string) :
  String.length (String.append s t) = (String.length s + String.length t)%nat.
Proof.
  induction s as [|c s IH]; [done|]. rewrite append_cons. simpl. by rewrite IH.
Qed.

Lemma append_inj_r (x y s : string) :
  String.append x s = String.append y s → x = y.
Proof.
  revert y. induction x as [|c x IH]; intros [|d y] H.
  - done.
  - apply (f_equal String.length) in H.
    rewrite append_cons in H. cbn [String.length] in H.
    rewrite !length_append in H. cbn [String.length] in H. lia.
  - apply (f_equal String.length) in H.
    rewrite append_cons in H. cbn [String.length] in H.
    rewrite !length_append in H. cbn [String.length] in H. lia.
  - rewrite !append_cons in H. injection H as -> H. f_equal. by apply IH.
Qed.

(** X23: different cores never share a file: the path of the register file
    and the path of the frequency file determine the core, and no register
    file is a frequency file. So the refreshes of two cores read different
    files. *)
Theorem core_paths_injective :
  (∀ core1 core2, msrPath core1 = msrPath core2 → core1 = core2) ∧
  (∀ core1 core2, cpuFreqPath core1 = cpuFreqPath core2 → core1 = core2) ∧
  (∀ core1 core2, msrPath core1 ≠ cpuFreqPath core2).
Proof.
  unfold msrPath, cpuFreqPath. split; [|split].
  - intros core1 core2 H%append_inj_l. by apply append_inj_r in H.
  - intros core1 core2 H%append_inj_l. by apply append_inj_r in H.
  - intros core1 core2. done.
Qed.

(** ** Text after a range *)

Lemma hasComma_append (s t : string) :
  hasComma (String.append s t) = hasComma s || hasComma t.
Proof.
  induction s as [|c s IH]; [done|]. rewrite append_cons. simpl.
  by rewrite IH, orb_assoc.
Qed.

Lemma decimal_head (n : Z) :
  0 ≤ n → ∃ c rest, decimal n = String c rest ∧ isDigit c = true.
Proof. intros Hn. by apply decimalAux_head. Qed.

(** X24: [fmt.Sscanf] stops after the second number of "%d-%d" and does not
    look at what follows, so a field that goes on after a range, with text
    that does not start with a digit or an underscore, is read as the range
    alone: "1-3-5" and "1-3x7" stand for 1, 2, 3. The text is dropped without
    an error. *)
Theorem parseIDs_range_trailing_text
    (a b : Z) (c d : ascii) (mid : string) :
  0 ≤ a → a < b → b ≤ maxInt → b - a + 1 ≤ maxIDsSize →
  acceptsDigit c = false → Ascii.eqb c comma = false →
  hasComma mid = false → isDigit d = true →
  parseIDs [String.append (rangeToken a b)
              (String c (String.append mid (String d EmptyString)))]
    = Some (inr (Some (seqZ a (b - a + 1)))).
Proof.
  intros Ha Hab Hb Hsize Hc Hcomma Hmid Hd.
  set (tail := String c (String.append mid (String d EmptyString))).
  set (tok := String.append (rangeToken a b) tail).
  assert (Hbounds : 0 ≤ a ≤ maxUint ∧ 0 ≤ b ≤ maxUint)
    by (unfold maxUint, maxInt in *; lia).
  assert (Htok : tok = String.append (decimal a)
                         (String minus (String.append (decimal b) tail))).
  { unfold tok, rangeToken. by rewrite append_assoc, append_cons. }
  assert (Hscan : Sscanf tok = Some (a, b)).
  { rewrite Htok. unfold Sscanf.
    rewrite scanUint_decimal by (done || apply Hbounds).
    cbn [scanNumber]. change (acceptsDigit minus) with false.
    cbv iota. cbn [snd]. change (Ascii.eqb minus minus) with true. cbv iota.
    rewrite scanUint_decimal; [done|apply Hbounds|].
    unfold tail. cbn [scanNumber]. by rewrite Hc. }
  assert (Htrim : TrimSpace tok = tok).
  { destruct (decimal_head a Ha) as (c0 & rest0 & Hhead & Hc0).
    assert (Hform : tok = String c0 (String.append rest0
                            (String minus (String.append (decimal b) tail)))).
    { by rewrite Htok, Hhead, append_cons. }
    rewrite Hform.
    apply (TrimSpace_digits c0 d _
             (String.append (rangeToken a b) (String c mid))); [|done|done].
    rewrite <- Hform. unfold tok, tail.
    by rewrite append_assoc, append_cons. }
  assert (Hsplit : fields [tok] = [tok]).
  { unfold fields. simpl. rewrite app_nil_r. apply Split_no_comma.
    unfold tok, tail. rewrite hasComma_append.
    pose proof (hasComma_printToken (Range a b)) as Hrange.
    simpl in Hrange. rewrite Hrange by lia.
    simpl. rewrite Hcomma, hasComma_append, Hmid. simpl.
    destruct (isDigit_not_space d Hd) as (_ & _ & _ & _ & _).
    destruct (Ascii.eqb_spec d comma) as [->|]; [|done].
    by vm_compute in Hd. }
  assert (Hexp : expandAll (fields [tok]) = Some (seqZ a (b - a + 1))).
  { rewrite Hsplit. simpl. unfold expandID. rewrite Htrim, Hscan.
    destruct (Z.ltb_spec a b); [|lia].
    destruct (Z.leb_spec b maxInt); [|lia]. simpl. by rewrite app_nil_r. }
  destruct (parseIDs_ceiling _ _ Hexp) as [_ Hfit].
  destruct Hfit as (ids & Hrun & Hids).
  { rewrite length_seqZ. lia. }
  destruct (parseIDs_nonempty _ _ ids Hrun) as (x & xs & ->).
  simpl in Hids. fold tail tok. by rewrite Hrun, Hids.
Qed.

Lemma parseIDs_range_trailing_text_witness :
  parseIDs ["1-3-5"] = Some (inr (Some [1; 2; 3])).
Proof.
  apply (parseIDs_range_trailing_text 1 3 "-" "5" EmptyString);
    (reflexivity || (unfold maxInt; lia) || (vm_compute; discriminate)).
Defined.
